(** * Credit-note fee tree: serializer and validation schema

    A shallow embedding of [serializeCreditNoteInput] (the credit-note
    serializer) and of [simpleFeeSchema] / [generateFeesSchema]
    (src/formValidation/feesSchema.ts), over a small model of the JavaScript
    values these functions inspect at run time. *)

From Stdlib Require Import List String Ascii Bool ZArith QArith Qround Lia.
From Stdlib Require Import DecimalString.
Import ListNotations.

Set Warnings "-register-all".
Local Open Scope string_scope.
Local Open Scope list_scope.

(* ================================================================== *)
(** * JavaScript values *)

(** The values the two functions can meet.  A number is an exact rational
    or NaN: floating-point rounding is not represented.  An object is the
    list of its own enumerable properties in [Object.keys] order (keys are
    pairwise distinct in a real object); an array is the list of its
    elements. *)
Inductive JsValue : Type :=
| JsUndefined
| JsNull
| JsBool (b : bool)
| JsNum (q : Q)
| JsNaN
| JsStr (s : string)
| JsObj (props : list (string * JsValue))
| JsArr (elems : list JsValue).

(** Evaluation either yields a value or throws.  The only exception these
    functions can raise is a [TypeError] (reading a property of, or listing
    the keys of, [undefined] / [null]; calling something that is not a
    function). *)
Inductive result (A : Type) : Type :=
| Ok (a : A)
| TypeError.
Arguments Ok {A} a.
Arguments TypeError {A}.

Definition bind {A B : Type} (r : result A) (k : A -> result B) : result B :=
  match r with
  | Ok a => k a
  | TypeError => TypeError
  end.

Notation "'let*' x ':=' e 'in' k" := (bind e (fun x => k))
  (at level 10, x name, e at level 100, k at level 200).

(** [v == null] *)
Definition nullish (v : JsValue) : bool :=
  match v with
  | JsUndefined | JsNull => true
  | _ => false
  end.

(** [!!v] *)
Definition truthy (v : JsValue) : bool :=
  match v with
  | JsUndefined | JsNull | JsNaN => false
  | JsBool b => b
  | JsNum q => negb (Qeq_bool q 0)
  | JsStr s => negb (String.eqb s "")
  | JsObj _ | JsArr _ => true
  end.

(** [typeof v === 'boolean'] *)
Definition typeof_boolean (v : JsValue) : bool :=
  match v with
  | JsBool _ => true
  | _ => false
  end.

(** [a || b] for operands without effects *)
Definition js_or (a b : JsValue) : JsValue := if truthy a then a else b.

(** A destructuring default, [{ x = d }]: used for [undefined] only. *)
Definition default_to (v d : JsValue) : JsValue :=
  match v with
  | JsUndefined => d
  | _ => v
  end.

(** [a === b].  Objects and arrays are compared by identity in JavaScript;
    the only use below compares against a string literal, which no object
    is identical to. *)
Definition strict_equal (a b : JsValue) : bool :=
  match a, b with
  | JsUndefined, JsUndefined => true
  | JsNull, JsNull => true
  | JsBool x, JsBool y => Bool.eqb x y
  | JsNum x, JsNum y => Qeq_bool x y
  | JsStr x, JsStr y => String.eqb x y
  | _, _ => false
  end.

(** The property name of array index [i]. *)
Definition index_key (i : nat) : string :=
  NilZero.string_of_uint (Nat.to_uint i).

Fixpoint index_keys (n i : nat) : list string :=
  match n with
  | O => []
  | S n' => index_key i :: index_keys n' (S i)
  end.

Fixpoint assoc {V : Type} (k : string) (props : list (string * V)) : option V :=
  match props with
  | [] => None
  | (k', v) :: rest => if String.eqb k' k then Some v else assoc k rest
  end.

Fixpoint at_index {V : Type} (k : string) (elems : list V) (i : nat) : option V :=
  match elems with
  | [] => None
  | x :: rest => if String.eqb (index_key i) k then Some x else at_index k rest (S i)
  end.

Definition or_undefined (o : option JsValue) : JsValue :=
  match o with Some v => v | None => JsUndefined end.

Definition chars (s : string) : list JsValue :=
  map (fun a => JsStr (String a EmptyString)) (list_ascii_of_string s).

(** Reading property [k] of a value that is neither [undefined] nor [null].
    Only data properties are modelled: own properties of objects, indices
    and [length] of arrays and strings.  None of the names read below is
    inherited from a prototype. *)
Definition lookup (v : JsValue) (k : string) : JsValue :=
  match v with
  | JsObj props => or_undefined (assoc k props)
  | JsArr elems =>
      match at_index k elems 0 with
      | Some x => x
      | None => if String.eqb k "length"
                then JsNum (inject_Z (Z.of_nat (List.length elems)))
                else JsUndefined
      end
  | JsStr s =>
      match at_index k (chars s) 0 with
      | Some x => x
      | None => if String.eqb k "length"
                then JsNum (inject_Z (Z.of_nat (String.length s)))
                else JsUndefined
      end
  | _ => JsUndefined
  end.

(** [v.k] and [v[k]] *)
Definition getProp (v : JsValue) (k : string) : result JsValue :=
  if nullish v then TypeError else Ok (lookup v k).

(** [v?.k] *)
Definition optProp (v : JsValue) (k : string) : JsValue :=
  if nullish v then JsUndefined else lookup v k.

(** [Object.keys(v)] *)
Definition Object_keys (v : JsValue) : result (list string) :=
  match v with
  | JsUndefined | JsNull => TypeError
  | JsObj props => Ok (map fst props)
  | JsArr elems => Ok (index_keys (List.length elems) 0)
  | JsStr s => Ok (index_keys (String.length s) 0)
  | JsBool _ | JsNum _ | JsNaN => Ok []
  end.

(** [keys.reduce(f, init)] for a callback that may throw. *)
Fixpoint reduce {A : Type} (f : A -> string -> result A)
         (keys : list string) (acc : A) : result A :=
  match keys with
  | [] => Ok acc
  | k :: rest => let* acc' := f acc k in reduce f rest acc'
  end.

(** [arr.find(pred)] for a predicate that may throw; calling [find] on
    anything that is not an array is a [TypeError]. *)
Fixpoint find_first (pred : JsValue -> result bool) (elems : list JsValue)
  : result JsValue :=
  match elems with
  | [] => Ok JsUndefined
  | x :: rest =>
      let* hit := pred x in
      if hit then Ok x else find_first pred rest
  end.

Definition Array_find (arr : JsValue) (pred : JsValue -> result bool)
  : result JsValue :=
  match arr with
  | JsArr elems => find_first pred elems
  | _ => TypeError
  end.

(** [{...acc, [k]: v}]: an existing key keeps its position, a new key goes
    last. *)
Fixpoint obj_set {V : Type} (acc : list (string * V)) (k : string) (v : V)
  : list (string * V) :=
  match acc with
  | [] => [(k, v)]
  | (k', v') :: rest =>
      if String.eqb k' k then (k', v) :: rest else (k', v') :: obj_set rest k v
  end.

(* ================================================================== *)
(** * Amount conversion *)

(** Modelled from the spec: [CurrencyEnum] (generated GraphQL types) and the
    currency precision table of [~/core/serializers/serializeAmount] are not
    among the sources.  The spec fixes only that a currency has 2 decimal
    digits of minor-unit precision unless it belongs to the three-decimal
    subset, so a currency is its code together with its membership in that
    subset. *)
Record CurrencyEnum : Type := {
  code : string;
  three_decimals : bool
}.

(** Modelled from the spec: [getCurrencyPrecision] is not among the sources;
    "most currencies use 2 decimal digits of minor-unit precision; a
    specific subset use 3". *)
Definition getCurrencyPrecision (currency : CurrencyEnum) : nat :=
  if three_decimals currency then 3%nat else 2%nat.

Definition pow10 (p : nat) : Q := inject_Z (10 ^ Z.of_nat p).

(** [Math.round]: the nearest integer, halves towards +infinity. *)
Definition Math_round (q : Q) : Q := inject_Z (Qfloor (q + (1 # 2))).

(** Modelled from the spec: [serializeAmount] is not among the sources;
    "major-unit amount to integer minor units ... must be treated as
    round(amount * 10^precision)".  The spec gives the conversion of
    numeric amounts only; any other argument is mapped to NaN here. *)
Definition serializeAmount (value : JsValue) (currency : CurrencyEnum) : JsValue :=
  match value with
  | JsNum q => JsNum (Math_round (q * pow10 (getCurrencyPrecision currency)))
  | _ => JsNaN
  end.

(** Modelled from the spec: [deserializeAmount] is not among the sources;
    it converts "from minor units via the currency's precision", reversing
    [serializeAmount].  Any argument that is not a number is mapped to NaN. *)
Definition deserializeAmount (value : JsValue) (currency : CurrencyEnum) : JsValue :=
  match value with
  | JsNum q => JsNum (q / pow10 (getCurrencyPrecision currency))
  | _ => JsNaN
  end.

(* ================================================================== *)
(** * The serializer *)

Record CreditNoteItemInput : Type := {
  feeId : JsValue;
  amountCents : JsValue
}.

Record CreateCreditNoteInput : Type := {
  invoiceId : JsValue;
  reason : JsValue;
  description : JsValue;
  creditAmountCents : JsValue;
  refundAmountCents : JsValue;
  items : list CreditNoteItemInput
}.

(** Modelled from the spec: [CreditTypeEnum] (~/components/creditNote/types)
    is not among the sources; a pay-back entry has "type: credit|refund". *)
Inductive CreditTypeEnum : Type := credit | refund.

Definition js_credit_type (t : CreditTypeEnum) : JsValue :=
  match t with
  | credit => JsStr "credit"
  | refund => JsStr "refund"
  end.

(** [serializeAmount(payBack.find((p) => p.type === type)?.value || 0, currency)]
    (lines 29-32 and 35-38) *)
Definition payBackAmount (payBack : JsValue) (type : CreditTypeEnum)
           (currency : CurrencyEnum) : result JsValue :=
  let* found := Array_find payBack
                  (fun p => let* t := getProp p "type" in
                            Ok (strict_equal t (js_credit_type type))) in
  Ok (serializeAmount (js_or (optProp found "value") (JsNum 0)) currency).

(** The spread [...(addOnFee?.value ? [{feeId, amountCents}] : [])]
    (lines 40-47). *)
Definition addOnItems (addOnFee : JsValue) (currency : CurrencyEnum)
  : result (list CreditNoteItemInput) :=
  if truthy (optProp addOnFee "value")
  then
    let* id := getProp addOnFee "id" in
    let* value := getProp addOnFee "value" in
    Ok [ {| feeId := id; amountCents := serializeAmount value currency |} ]
  else Ok [].

(** The innermost [reduce], over the keys of a [grouped] map (lines 72-84). *)
Definition groupedItems (grouped : JsValue) (currency : CurrencyEnum)
  : result (list CreditNoteItemInput) :=
  let* feeKeys := Object_keys grouped in
  reduce
    (fun feeAcc feeKey =>
       let* fee := getProp grouped feeKey in
       let* checked := getProp fee "checked" in
       if negb (truthy checked) then Ok feeAcc
       else
         let* id := getProp fee "id" in
         let* value := getProp fee "value" in
         Ok (feeAcc ++ [ {| feeId := id;
                            amountCents := serializeAmount value currency |} ]))
    feeKeys [].

(** The callback of the middle [reduce]: one fee-group of a sub-invoice
    (lines 53-86). *)
Definition groupStep (subChild : JsValue) (currency : CurrencyEnum)
           (groupAcc : list CreditNoteItemInput) (groupKey : string)
  : result (list CreditNoteItemInput) :=
  (* subChild?.fees[groupKey] *)
  let* child := if nullish subChild then Ok JsUndefined
                else getProp (lookup subChild "fees") groupKey in
  let* checked := getProp child "checked" in
  if typeof_boolean checked then
    if negb (truthy checked) then Ok groupAcc
    else
      let* value := getProp child "value" in
      Ok (groupAcc ++ [ {| feeId := optProp child "id";
                           amountCents := serializeAmount value currency |} ])
  else
    let grouped := optProp child "grouped" in
    let* inner := groupedItems grouped currency in
    Ok (groupAcc ++ inner).

(** The callback of the outer [reduce]: one sub-invoice group
    (lines 48-88). *)
Definition subStep (fees : JsValue) (currency : CurrencyEnum)
           (subAcc : list CreditNoteItemInput) (subKey : string)
  : result (list CreditNoteItemInput) :=
  let* subChild := getProp fees subKey in
  let* groupKeys := Object_keys (optProp subChild "fees") in
  let* inner := reduce (groupStep subChild currency) groupKeys [] in
  Ok (subAcc ++ inner).

(** [Object.keys(fees).reduce(...)]: the tree walk. *)
Definition feeItems (fees : JsValue) (currency : CurrencyEnum)
  : result (list CreditNoteItemInput) :=
  let* subKeys := Object_keys fees in
  reduce (subStep fees currency) subKeys [].

Definition serializeCreditNoteInput
           (invoiceId : JsValue) (formValues : JsValue) (currency : CurrencyEnum)
  : result CreateCreditNoteInput :=
  (* const { reason, description, payBack, fees = [], addOnFee } = formValues *)
  let* reason := getProp formValues "reason" in
  let* description := getProp formValues "description" in
  let* payBack := getProp formValues "payBack" in
  let* fees0 := getProp formValues "fees" in
  let fees := default_to fees0 (JsArr []) in
  let* addOnFee := getProp formValues "addOnFee" in
  let* creditCents :=
    if negb (truthy payBack) then Ok (JsNum 0)
    else payBackAmount payBack credit currency in
  let* refundCents :=
    if negb (truthy payBack) then Ok (JsNum 0)
    else let* cents := payBackAmount payBack refund currency in
         Ok (js_or cents (JsNum 0)) in
  let* addOn := addOnItems addOnFee currency in
  let* walk := feeItems fees currency in
  Ok {| invoiceId := invoiceId;
        reason := reason;
        description := description;
        creditAmountCents := creditCents;
        refundAmountCents := refundCents;
        items := addOn ++ walk |}.

(* ================================================================== *)
(** * The validation schema *)

(** Modelled from the spec: [CreditNoteFeeErrorEnum]
    (~/components/creditNote/types) is not among the sources; the "two
    named failure classifications": value at or below zero, value above the
    creditable amount. *)
Inductive CreditNoteFeeErrorEnum : Type := minZero | overMax.

Inductive Message : Type :=
| FeeError (e : CreditNoteFeeErrorEnum)
| Text (s : string)
| NotType.

(** The part of yup the schema is built from.  [when base key then_] stands
    for [base.when(key, (v, schema) => !!v ? then_ : schema)], the only
    form of condition in the source. *)
Inductive Test : Type :=
| Min (bound : JsValue) (msg : Message)
| Max (bound : JsValue) (msg : Message)
| Required (msg : Message).

Inductive Schema : Type :=
| boolean
| number (default : option JsValue) (tests : list Test)
| when (base : Schema) (key : string) (then_ : Schema)
| object (shape : list (string * Schema)).

Definition simpleFeeSchema (maxAmount : JsValue) (currency : CurrencyEnum) : Schema :=
  object
    [ ("checked", boolean);
      ("value",
       when (number (Some (JsNum 0)) []) "checked"
            (number None
                    [ Min (JsNum (1 # 10000000000000000)) (FeeError minZero);
                      Max (deserializeAmount maxAmount currency) (FeeError overMax);
                      Required (Text "") ])) ].

(** lodash [stringToPath] on a path without bracket syntax: the segments
    between dots. *)
Fixpoint stringToPath (path : string) : list string :=
  match path with
  | EmptyString => [EmptyString]
  | String a rest =>
      if Ascii.eqb a "." then EmptyString :: stringToPath rest
      else match stringToPath rest with
           | seg :: segs => String a seg :: segs
           | [] => [String a EmptyString]
           end
  end.

(** [path in Object(object)] *)
Definition has_property (object : JsValue) (path : string) : bool :=
  match object with
  | JsObj props => match assoc path props with Some _ => true | None => false end
  | JsArr elems =>
      match at_index path elems 0 with
      | Some _ => true
      | None => String.eqb path "length"
      end
  | JsStr s =>
      match at_index path (chars s) 0 with
      | Some _ => true
      | None => String.eqb path "length"
      end
  | _ => false
  end.

(** lodash [baseGet]: follow the segments, stopping at [undefined] / [null]. *)
Fixpoint baseGet (object : JsValue) (path : list string) : JsValue :=
  match path with
  | [] => object
  | key :: rest =>
      if nullish object then JsUndefined else baseGet (lookup object key) rest
  end.

(** lodash [_get(object, path)] for the dotted paths built below: such a
    path is taken as one key only when the object has a property of that
    very name, and is split at its dots otherwise.  Bracket syntax inside
    a key is not modelled. *)
Definition _get (object : JsValue) (path : string) : JsValue :=
  if nullish object then JsUndefined
  else if has_property object path then lookup object path
  else baseGet object (stringToPath path).

(** The innermost [reduce] of [generateFeesSchema]: the rules of a
    [grouped] map (lines 58-69). *)
Definition groupedShape (formikInitialFees : JsValue) (currency : CurrencyEnum)
           (subKey feeGroupKey : string) (grouped : JsValue)
  : result (list (string * Schema)) :=
  let* feeKeys := Object_keys grouped in
  reduce
    (fun feeAcc feeKey =>
       Ok (obj_set feeAcc feeKey
             (simpleFeeSchema
                (_get (js_or formikInitialFees (JsObj []))
                      (subKey ++ ".fees." ++ feeGroupKey ++ ".grouped."
                              ++ feeKey ++ ".maxAmount"))
                currency)))
    feeKeys [].

(** The callback of the middle [reduce]: the rule of one fee-group
    (lines 37-73). *)
Definition feeGroupStep (formikInitialFees subChilds : JsValue)
           (currency : CurrencyEnum) (subKey : string)
           (feeGroupAcc : list (string * Schema)) (feeGroupKey : string)
  : result (list (string * Schema)) :=
  let* child := getProp subChilds feeGroupKey in
  let* checked := getProp child "checked" in
  if typeof_boolean checked then
    Ok (obj_set feeGroupAcc feeGroupKey
          (simpleFeeSchema
             (_get (js_or formikInitialFees (JsObj []))
                   (subKey ++ ".fees." ++ feeGroupKey ++ ".maxAmount"))
             currency))
  else
    let grouped := optProp child "grouped" in
    let* inner := groupedShape formikInitialFees currency subKey feeGroupKey grouped in
    Ok (obj_set feeGroupAcc feeGroupKey (object [ ("grouped", object inner) ])).

(** The callback of the outer [reduce]: the rule of one sub-invoice group
    (lines 30-78). *)
Definition subSchemaStep (formikInitialFees : JsValue) (currency : CurrencyEnum)
           (accSub : list (string * Schema)) (subKey : string)
  : result (list (string * Schema)) :=
  (* formikInitialFees[subKey]?.fees *)
  let* subChild := getProp formikInitialFees subKey in
  let subChilds := optProp subChild "fees" in
  let* feeGroupKeys := Object_keys subChilds in
  let* inner := reduce (feeGroupStep formikInitialFees subChilds currency subKey)
                       feeGroupKeys [] in
  Ok (obj_set accSub subKey (object [ ("fees", object inner) ])).

Definition generateFeesSchema (formikInitialFees : JsValue) (currency : CurrencyEnum)
  : result Schema :=
  let* subKeys := Object_keys (js_or formikInitialFees (JsObj [])) in
  let* shape := reduce (subSchemaStep formikInitialFees currency) subKeys [] in
  Ok (object shape).

(** ** Validating a value against a schema

    The behaviour of yup's [validate] (all errors collected) on the schemas
    above, for form values of the declared types.  Coercions that yup
    applies to values of another type (numeric strings, 'true' / 'false')
    are not modelled: such a value fails the type check here. *)

Definition ValidationError : Type := (list string * Message)%type.

(** [a <= b] on numbers; a comparison with NaN is false. *)
Definition js_le (a b : JsValue) : bool :=
  match a, b with
  | JsNum x, JsNum y => Qle_bool x y
  | _, _ => false
  end.

Definition run_test (t : Test) (v : JsValue) : list Message :=
  match t with
  | Min bound msg => if nullish v || js_le bound v then [] else [msg]
  | Max bound msg => if nullish v || js_le v bound then [] else [msg]
  | Required msg => if nullish v then [msg] else []
  end.

Definition at_path (path : list string) (msgs : list Message) : list ValidationError :=
  map (fun m => (path, m)) msgs.

Fixpoint validate (s : Schema) (parent v : JsValue) (path : list string)
  : list ValidationError :=
  match s with
  | boolean =>
      match v with
      | JsUndefined | JsBool _ => []
      | _ => [(path, NotType)]
      end
  | number default tests =>
      let v' := match v, default with
                | JsUndefined, Some d => d
                | _, _ => v
                end in
      match v' with
      | JsUndefined | JsNum _ => at_path path (flat_map (fun t => run_test t v') tests)
      | _ => [(path, NotType)]
      end
  | when base key then_ =>
      if truthy (optProp parent key)
      then validate then_ parent v path
      else validate base parent v path
  | object shape =>
      match v with
      | JsUndefined | JsObj _ =>
          (* an absent object is validated as the object of its fields'
             defaults *)
          let obj := default_to v (JsObj []) in
          flat_map (fun field =>
                      validate (snd field) obj (lookup obj (fst field))
                               (path ++ [fst field]))
                   shape
      | _ => [(path, NotType)]
      end
  end.

(** [schema.isValidSync(v)] *)
Definition isValid (s : Schema) (v : JsValue) : bool :=
  match validate s JsUndefined v [] with
  | [] => true
  | _ :: _ => false
  end.

(** The leaf rules of a schema, in field order: the object schemas that are
    not made of object schemas only. *)
Definition is_object (s : Schema) : bool :=
  match s with
  | object _ => true
  | _ => false
  end.

Fixpoint leaf_rules (s : Schema) : list Schema :=
  match s with
  | object shape =>
      if forallb (fun field => is_object (snd field)) shape
      then flat_map (fun field => leaf_rules (snd field)) shape
      else [s]
  | _ => []
  end.

(* ================================================================== *)
(** * Well-formed fee trees *)

(** Modelled from the spec: the form types of [~/components/creditNote/types]
    are not among the sources.  "LeafFee: [id] (external fee identifier),
    [checked] (whether this fee is included), [value] (amount entered by
    the user, in major units), [maxAmount] (upper bound in minor units)." *)
Record FromFee : Type := {
  id : string;
  checked : bool;
  value : Q;
  maxAmount : Q
}.

(** Modelled from the spec: "FeeGroup: either a LeafFee directly, or a
    GroupedFee: owns a mapping of LeafFee keyed by sub-group identifier". *)
Inductive FeeGroup : Type :=
| Leaf (fee : FromFee)
| Grouped (grouped : list (string * FromFee)).

(** Modelled from the spec: "SubInvoiceGroup (keyed by sub-invoice
    identifier): owns a mapping of FeeGroup".  Mappings are kept in
    iteration order. *)
Definition SubInvoice : Type := list (string * FeeGroup).
Definition FeesPerInvoice : Type := list (string * SubInvoice).

Definition map_values {A B : Type} (f : A -> B) (m : list (string * A))
  : list (string * B) :=
  map (fun kv => (fst kv, f (snd kv))) m.

(** The JavaScript object of a typed tree. *)
Definition js_fee (fee : FromFee) : JsValue :=
  JsObj [ ("id", JsStr (id fee));
          ("checked", JsBool (checked fee));
          ("value", JsNum (value fee));
          ("maxAmount", JsNum (maxAmount fee)) ].

Definition js_group (g : FeeGroup) : JsValue :=
  match g with
  | Leaf fee => js_fee fee
  | Grouped grouped => JsObj [ ("grouped", JsObj (map_values js_fee grouped)) ]
  end.

Definition js_sub (sub : SubInvoice) : JsValue :=
  JsObj [ ("fees", JsObj (map_values js_group sub)) ].

Definition js_fees (tree : FeesPerInvoice) : JsValue :=
  JsObj (map_values js_sub tree).

(** Modelled from the spec: "an optional pay-back allocation
    ({type: credit|refund, value: number}[])". *)
Module PayBack.
Record t : Type := { type : CreditTypeEnum; value : Q }.
End PayBack.

Definition js_payBack (p : PayBack.t) : JsValue :=
  JsObj [ ("type", js_credit_type (PayBack.type p));
          ("value", JsNum (PayBack.value p)) ].

(** Modelled from the spec: the form values, "a Fee Tree, an optional
    pay-back allocation, an optional single add-on fee, a reason code, an
    optional free-text description".  [None] is an absent property.  The
    add-on fee is kept as a raw value: its absence and the falsiness of its
    [value] are what the serializer tests. *)
Module CreditNoteForm.
Record t : Type := {
  reason : JsValue;
  description : JsValue;
  payBack : option (list PayBack.t);
  fees : option FeesPerInvoice;
  addOnFee : JsValue
}.
End CreditNoteForm.

Definition js_form (form : CreditNoteForm.t) : JsValue :=
  JsObj [ ("reason", CreditNoteForm.reason form);
          ("description", CreditNoteForm.description form);
          ("payBack", match CreditNoteForm.payBack form with
                      | Some entries => JsArr (map js_payBack entries)
                      | None => JsUndefined
                      end);
          ("fees", match CreditNoteForm.fees form with
                   | Some tree => js_fees tree
                   | None => JsUndefined
                   end);
          ("addOnFee", CreditNoteForm.addOnFee form) ].

(** Keys of one object are pairwise distinct, at every level. *)
Definition distinct_keys {A : Type} (m : list (string * A)) : Prop :=
  NoDup (map fst m).

Definition wf_group (g : FeeGroup) : Prop :=
  match g with
  | Leaf _ => True
  | Grouped grouped => distinct_keys grouped
  end.

Definition wf_sub (sub : SubInvoice) : Prop :=
  distinct_keys sub /\ Forall (fun kv => wf_group (snd kv)) sub.

Definition wf_tree (tree : FeesPerInvoice) : Prop :=
  distinct_keys tree /\ Forall (fun kv => wf_sub (snd kv)) tree.

Definition wf_form (form : CreditNoteForm.t) : Prop :=
  match CreditNoteForm.fees form with
  | Some tree => wf_tree tree
  | None => True
  end.

(** The leaves of a tree in walk order: sub-invoice group, then fee-group,
    then sub-group. *)
Definition group_leaves (g : FeeGroup) : list FromFee :=
  match g with
  | Leaf fee => [fee]
  | Grouped grouped => map snd grouped
  end.

Definition sub_leaves (sub : SubInvoice) : list FromFee :=
  flat_map (fun kv => group_leaves (snd kv)) sub.

Definition tree_leaves (tree : FeesPerInvoice) : list FromFee :=
  flat_map (fun kv => sub_leaves (snd kv)) tree.

Definition form_leaves (form : CreditNoteForm.t) : list FromFee :=
  match CreditNoteForm.fees form with
  | Some tree => tree_leaves tree
  | None => []
  end.

(** Keys that lodash reads back from a dotted path: no dot and no
    bracket. *)
Fixpoint plain_key (k : string) : bool :=
  match k with
  | EmptyString => true
  | String a rest =>
      negb (Ascii.eqb a ".") && negb (Ascii.eqb a "[") && negb (Ascii.eqb a "]")
      && plain_key rest
  end.

Definition plain_keys {A : Type} (m : list (string * A)) : Prop :=
  Forall (fun kv => plain_key (fst kv) = true) m.

Definition plain_group (g : FeeGroup) : Prop :=
  match g with
  | Leaf _ => True
  | Grouped grouped => plain_keys grouped
  end.

Definition plain_sub (sub : SubInvoice) : Prop :=
  plain_keys sub /\ Forall (fun kv => plain_group (snd kv)) sub.

Definition plain_tree (tree : FeesPerInvoice) : Prop :=
  plain_keys tree /\ Forall (fun kv => plain_sub (snd kv)) tree.

(** The rules mirroring a typed tree. *)
Definition leaf_rule (currency : CurrencyEnum) (fee : FromFee) : Schema :=
  simpleFeeSchema (JsNum (maxAmount fee)) currency.

Definition group_rule (currency : CurrencyEnum) (g : FeeGroup) : Schema :=
  match g with
  | Leaf fee => leaf_rule currency fee
  | Grouped grouped =>
      object [ ("grouped", object (map_values (leaf_rule currency) grouped)) ]
  end.

Definition sub_rule (currency : CurrencyEnum) (sub : SubInvoice) : Schema :=
  object [ ("fees", object (map_values (group_rule currency) sub)) ].

Definition tree_rule (currency : CurrencyEnum) (tree : FeesPerInvoice) : Schema :=
  object (map_values (sub_rule currency) tree).

(** The rules as [generateFeesSchema] builds them: the bound of a leaf rule
    is what [_get] reads at the leaf's dotted path. *)
Definition map_entries {A B : Type} (f : string -> A -> B) (m : list (string * A))
  : list (string * B) :=
  map (fun kv => (fst kv, f (fst kv) (snd kv))) m.

Definition path_rule (currency : CurrencyEnum) (initial : JsValue) (path : string)
  : Schema :=
  simpleFeeSchema (_get (js_or initial (JsObj [])) path) currency.

Definition group_path_rule (currency : CurrencyEnum) (initial : JsValue)
           (subKey feeGroupKey : string) (g : FeeGroup) : Schema :=
  match g with
  | Leaf _ =>
      path_rule currency initial (subKey ++ ".fees." ++ feeGroupKey ++ ".maxAmount")
  | Grouped grouped =>
      object
        [ ("grouped",
           object
             (map_entries
                (fun feeKey _ =>
                   path_rule currency initial
                             (subKey ++ ".fees." ++ feeGroupKey ++ ".grouped."
                                     ++ feeKey ++ ".maxAmount"))
                grouped)) ]
  end.

Definition sub_path_rule (currency : CurrencyEnum) (initial : JsValue)
           (subKey : string) (sub : SubInvoice) : Schema :=
  object [ ("fees", object (map_entries (group_path_rule currency initial subKey) sub)) ].

Definition tree_path_rule (currency : CurrencyEnum) (tree : FeesPerInvoice) : Schema :=
  object (map_entries (sub_path_rule currency (js_fees tree)) tree).

(** Two maps with the same keys in the same order whose values are related. *)
Definition map_rel {A : Type} (R : A -> A -> Prop) (m1 m2 : list (string * A)) : Prop :=
  Forall2 (fun kv1 kv2 => fst kv1 = fst kv2 /\ R (snd kv1) (snd kv2)) m1 m2.

Definition group_rel (R : FromFee -> FromFee -> Prop) (g1 g2 : FeeGroup) : Prop :=
  match g1, g2 with
  | Leaf f1, Leaf f2 => R f1 f2
  | Grouped m1, Grouped m2 => map_rel R m1 m2
  | _, _ => False
  end.

(** Two trees of the same shape whose leaves are related pairwise. *)
Definition tree_rel (R : FromFee -> FromFee -> Prop) (t1 t2 : FeesPerInvoice) : Prop :=
  map_rel (map_rel (group_rel R)) t1 t2.

Definition same_shape (t1 t2 : FeesPerInvoice) : Prop :=
  tree_rel (fun _ _ => True) t1 t2.

(** The constraint of a leaf rule on a candidate leaf: a checked value lies
    between the rule's lower bound and the initial leaf's [maxAmount] in
    major units. *)
Definition leaf_ok (currency : CurrencyEnum) (initial candidate : FromFee) : Prop :=
  checked candidate = true ->
  (1 # 10000000000000000) <= value candidate /\
  value candidate <= maxAmount initial / pow10 (getCurrencyPrecision currency).

(** Two leaves that a leaf rule cannot tell apart: the same [checked], and
    the same [value] when checked. *)
Definition same_checked_values (f1 f2 : FromFee) : Prop :=
  checked f1 = checked f2 /\ (checked f1 = true -> value f1 = value f2).

(** The shape of every schema that [generateFeesSchema] returns. *)
Definition is_leaf_rule (s : Schema) : Prop :=
  exists maxAmount currency, s = simpleFeeSchema maxAmount currency.

Definition is_group_rule (s : Schema) : Prop :=
  is_leaf_rule s \/
  exists inner, s = object [ ("grouped", object inner) ]
                /\ Forall (fun field => is_leaf_rule (snd field)) inner.

Definition is_sub_rule (s : Schema) : Prop :=
  exists inner, s = object [ ("fees", object inner) ]
                /\ Forall (fun field => is_group_rule (snd field)) inner.

Definition is_fees_schema (s : Schema) : Prop :=
  exists shape, s = object shape
                /\ Forall (fun field => is_sub_rule (snd field)) shape.

(** The encoding of an optional entry. *)
Definition opt_js {A : Type} (J : A -> JsValue) (o : option A) : JsValue :=
  match o with
  | Some a => J a
  | None => JsUndefined
  end.

Definition opt_rel {A : Type} (R : A -> A -> Prop) (o1 o2 : option A) : Prop :=
  match o1, o2 with
  | Some a, Some b => R a b
  | None, None => True
  | _, _ => False
  end.

(** The line item of a leaf. *)
Definition fee_item (currency : CurrencyEnum) (fee : FromFee) : CreditNoteItemInput :=
  {| feeId := JsStr (id fee);
     amountCents := serializeAmount (JsNum (value fee)) currency |}.

(** The items of the checked leaves of a list, in order. *)
Definition checked_items (currency : CurrencyEnum) (leaves : list FromFee)
  : list CreditNoteItemInput :=
  map (fee_item currency) (filter checked leaves).

(** The add-on item, when the add-on fee has a truthy [value]. *)
Definition addOn_item (addOnFee : JsValue) (currency : CurrencyEnum)
  : CreditNoteItemInput :=
  {| feeId := lookup addOnFee "id";
     amountCents := serializeAmount (lookup addOnFee "value") currency |}.

Definition credit_type_eqb (a b : CreditTypeEnum) : bool :=
  match a, b with
  | credit, credit | refund, refund => true
  | _, _ => false
  end.

(** The first pay-back entry of a type. *)
Definition payBack_entry (type : CreditTypeEnum) (entries : list PayBack.t)
  : option PayBack.t :=
  find (fun p => credit_type_eqb (PayBack.type p) type) entries.

(** Minor units of the pay-back entry of a type, 0 without one. *)
Definition payBack_cents (type : CreditTypeEnum) (currency : CurrencyEnum)
           (payBack : option (list PayBack.t)) : JsValue :=
  match payBack with
  | None => JsNum 0
  | Some entries =>
      match payBack_entry type entries with
      | Some p => serializeAmount (JsNum (PayBack.value p)) currency
      | None => JsNum 0
      end
  end.

(** A fold over the entries of a map, for a step that may throw: what a
    [reduce] over the keys amounts to when the callback only reads the
    entry of its key. *)
Fixpoint fold_entries {A V : Type} (h : A -> string * V -> result A)
         (l : list (string * V)) (acc : A) : result A :=
  match l with
  | [] => Ok acc
  | kv :: rest => let* acc' := h acc kv in fold_entries h rest acc'
  end.

(** The condition on a candidate leaf as the specification words it:
    a checked value is strictly positive and at most the initial leaf's
    [maxAmount] in major units. *)
Definition spec_leaf_ok (currency : CurrencyEnum) (initial candidate : FromFee) : Prop :=
  checked candidate = true ->
  0 < value candidate /\
  value candidate <= maxAmount initial / pow10 (getCurrencyPrecision currency).

(** Two leaves that differ at most in [maxAmount]. *)
Definition same_but_maxAmount (f1 f2 : FromFee) : Prop :=
  id f1 = id f2 /\ checked f1 = checked f2 /\ value f1 = value f2.

(** ** Sample data *)

Definition usd : CurrencyEnum := {| code := "USD"; three_decimals := false |}.

Definition sample_tree : FeesPerInvoice :=
  [ ("invA",
     [ ("g1", Leaf {| id := "f1"; checked := true; value := 10; maxAmount := 5000 |});
       ("g2", Grouped
                [ ("s1", {| id := "f2"; checked := true; value := 2; maxAmount := 1000 |});
                  ("s2", {| id := "f3"; checked := false; value := 7; maxAmount := 300 |}) ]);
       ("g3", Leaf {| id := "f4"; checked := true; value := 0; maxAmount := 900 |}) ]) ].

(** [sample_tree] with other [maxAmount]s. *)
Definition sample_tree'' : FeesPerInvoice :=
  [ ("invA",
     [ ("g1", Leaf {| id := "f1"; checked := true; value := 10; maxAmount := 1 |});
       ("g2", Grouped
                [ ("s1", {| id := "f2"; checked := true; value := 2; maxAmount := 2 |});
                  ("s2", {| id := "f3"; checked := false; value := 7; maxAmount := 3 |}) ]);
       ("g3", Leaf {| id := "f4"; checked := true; value := 0; maxAmount := 4 |}) ]) ].

Definition sample_form : CreditNoteForm.t :=
  {| CreditNoteForm.reason := JsStr "other";
     CreditNoteForm.description := JsUndefined;
     CreditNoteForm.payBack :=
       Some [ {| PayBack.type := refund; PayBack.value := 5 # 2 |};
              {| PayBack.type := credit; PayBack.value := 19 # 2 |} ];
     CreditNoteForm.fees := Some sample_tree;
     CreditNoteForm.addOnFee := JsObj [ ("id", JsStr "addon"); ("value", JsNum 3) ] |}.

(** An initial leaf and a candidate whose checked value is positive but
    below the lower bound of the rule. *)
Definition tiny_initial : FeesPerInvoice :=
  [ ("invA",
     [ ("g1", Leaf {| id := "f1"; checked := false; value := 0; maxAmount := 5000 |}) ]) ].

Definition tiny_candidate : FeesPerInvoice :=
  [ ("invA",
     [ ("g1", Leaf {| id := "f1"; checked := true;
                      value := 1 # 100000000000000000; maxAmount := 5000 |}) ]) ].

(** A sub-invoice group without a [fees] map, and a fee-group that is not a
    leaf and has no [grouped] map. *)
Definition no_fees_map : JsValue := JsObj [ ("invA", JsObj []) ].

Definition no_grouped_map : JsValue :=
  JsObj [ ("invA", JsObj [ ("fees", JsObj [ ("g1", JsObj [ ("name", JsStr "x") ]) ]) ]) ].

Definition form_of_fees (fees : JsValue) : JsValue :=
  JsObj [ ("reason", JsStr "other"); ("fees", fees) ].

(** ** Further notions *)

(** The lower bound of a leaf rule, [min(0.0000000000000001)]. *)
Definition min_value : Q := 1 # 10000000000000000.


(** The item the innermost [reduce] builds from an entry of a [grouped]
    map, and the items of a whole map: one per entry whose [checked] is
    truthy. *)
Definition entry_item (currency : CurrencyEnum) (fee : JsValue) : CreditNoteItemInput :=
  {| feeId := lookup fee "id";
     amountCents := serializeAmount (lookup fee "value") currency |}.

Definition entries_items (currency : CurrencyEnum) (props : list (string * JsValue))
  : list CreditNoteItemInput :=
  flat_map (fun kv => if truthy (lookup (snd kv) "checked")
                      then [entry_item currency (snd kv)] else [])
           props.

(** The tree made of one grouped fee-group whose [grouped] map has the
    given entries. *)
Definition grouped_only (subKey feeGroupKey : string) (props : list (string * JsValue))
  : JsValue :=
  JsObj [ (subKey,
           JsObj [ ("fees",
                    JsObj [ (feeGroupKey, JsObj [ ("grouped", JsObj props) ]) ]) ]) ].

(** The rule a schema holds at a path of field names. *)
Fixpoint rule_at (s : Schema) (path : list string) : option Schema :=
  match path with
  | [] => Some s
  | k :: rest =>
      match s with
      | object shape =>
          match assoc k shape with
          | Some field => rule_at field rest
          | None => None
          end
      | _ => None
      end
  end.

(** Two leaves with the same [maxAmount]. *)
Definition same_maxAmount (f1 f2 : FromFee) : Prop := maxAmount f1 = maxAmount f2.

(** A tree whose sub-invoice key contains a dot. *)
Definition dotted_tree : FeesPerInvoice :=
  [ ("inv.A",
     [ ("g1", Leaf {| id := "f1"; checked := true; value := 10; maxAmount := 5000 |}) ]) ].

(** [sample_tree] after the user unchecked and edited leaves. *)
Definition edited_tree : FeesPerInvoice :=
  [ ("invA",
     [ ("g1", Leaf {| id := "f1"; checked := false; value := 77; maxAmount := 5000 |});
       ("g2", Grouped
                [ ("s1", {| id := "f2"; checked := true; value := 9; maxAmount := 1000 |});
                  ("s2", {| id := "f3"; checked := true; value := 1; maxAmount := 300 |}) ]);
       ("g3", Leaf {| id := "f4"; checked := false; value := 0; maxAmount := 900 |}) ]) ].

(** A candidate of the shape of [sample_tree] that passes validation. *)
Definition valid_tree : FeesPerInvoice :=
  [ ("invA",
     [ ("g1", Leaf {| id := "f1"; checked := true; value := 50; maxAmount := 5000 |});
       ("g2", Grouped
                [ ("s1", {| id := "f2"; checked := true; value := 1 # 1000;
                            maxAmount := 1000 |});
                  ("s2", {| id := "f3"; checked := false; value := 7; maxAmount := 300 |}) ]);
       ("g3", Leaf {| id := "f4"; checked := true; value := 5 # 2; maxAmount := 900 |}) ]) ].


(** A sub-invoice group that the initial tree does not have, with a checked
    leaf of value 0. *)
Definition extra_sub : SubInvoice :=
  [ ("g7", Leaf {| id := "f9"; checked := true; value := 0; maxAmount := 1 |}) ].

(** A [grouped] map with entries that are not typed leaves. *)
Definition raw_grouped : list (string * JsValue) :=
  [ ("s1", JsObj [ ("id", JsStr "f1"); ("checked", JsNum 1); ("value", JsNum 4) ]);
    ("s2", JsObj [ ("id", JsStr "f2"); ("checked", JsStr ""); ("value", JsNum 5) ]);
    ("s3", JsStr "leaf") ].

Definition raw_grouped_with_null : list (string * JsValue) :=
  [ ("s1", JsObj [ ("id", JsStr "f1"); ("checked", JsBool true); ("value", JsNum 4) ]);
    ("s2", JsNull) ].

(** ** Candidate trees whose values are any number *)

(** A JavaScript number as a form field holds one: a rational or NaN. *)
Inductive JsNumber : Type :=
| Rational (q : Q)
| NotANumber.

Definition js_number (n : JsNumber) : JsValue :=
  match n with
  | Rational q => JsNum q
  | NotANumber => JsNaN
  end.

(** Modelled from the spec: the tree that is validated has the types of the
    fee tree, "LeafFee: [id], [checked], [value] (amount entered by the
    user, in major units), [maxAmount]"; the amount entered is any number,
    NaN included. *)
Module Candidate.
Record Fee : Type := {
  id : string;
  checked : bool;
  value : JsNumber;
  maxAmount : Q
}.

Inductive Group : Type :=
| Leaf (fee : Fee)
| Grouped (grouped : list (string * Fee)).

Definition Sub : Type := list (string * Group).
Definition Tree : Type := list (string * Sub).
End Candidate.

Definition js_candidate_fee (fee : Candidate.Fee) : JsValue :=
  JsObj [ ("id", JsStr (Candidate.id fee));
          ("checked", JsBool (Candidate.checked fee));
          ("value", js_number (Candidate.value fee));
          ("maxAmount", JsNum (Candidate.maxAmount fee)) ].

Definition js_candidate_group (g : Candidate.Group) : JsValue :=
  match g with
  | Candidate.Leaf fee => js_candidate_fee fee
  | Candidate.Grouped grouped =>
      JsObj [ ("grouped", JsObj (map_values js_candidate_fee grouped)) ]
  end.

Definition js_candidate_sub (sub : Candidate.Sub) : JsValue :=
  JsObj [ ("fees", JsObj (map_values js_candidate_group sub)) ].

Definition js_candidate (tree : Candidate.Tree) : JsValue :=
  JsObj (map_values js_candidate_sub tree).

Definition candidate_group_leaves (g : Candidate.Group) : list Candidate.Fee :=
  match g with
  | Candidate.Leaf fee => [fee]
  | Candidate.Grouped grouped => map snd grouped
  end.

Definition candidate_sub_leaves (sub : Candidate.Sub) : list Candidate.Fee :=
  flat_map (fun kv => candidate_group_leaves (snd kv)) sub.

Definition candidate_leaves (tree : Candidate.Tree) : list Candidate.Fee :=
  flat_map (fun kv => candidate_sub_leaves (snd kv)) tree.

(** A typed leaf as a candidate leaf. *)
Definition candidate_of_fee (fee : FromFee) : Candidate.Fee :=
  {| Candidate.id := id fee;
     Candidate.checked := checked fee;
     Candidate.value := Rational (value fee);
     Candidate.maxAmount := maxAmount fee |}.

Definition candidate_of_group (g : FeeGroup) : Candidate.Group :=
  match g with
  | Leaf fee => Candidate.Leaf (candidate_of_fee fee)
  | Grouped grouped => Candidate.Grouped (map_values candidate_of_fee grouped)
  end.

Definition candidate_of_tree (tree : FeesPerInvoice) : Candidate.Tree :=
  map_values (map_values candidate_of_group) tree.

(** An initial map and a candidate map with the same keys in the same order
    whose values are related. *)
Definition map_rel2 {A B : Type} (R : A -> B -> Prop)
           (m1 : list (string * A)) (m2 : list (string * B)) : Prop :=
  Forall2 (fun kv1 kv2 => fst kv1 = fst kv2 /\ R (snd kv1) (snd kv2)) m1 m2.

Definition candidate_group_rel (R : FromFee -> Candidate.Fee -> Prop)
           (g0 : FeeGroup) (g : Candidate.Group) : Prop :=
  match g0, g with
  | Leaf f0, Candidate.Leaf f => R f0 f
  | Grouped m0, Candidate.Grouped m => map_rel2 R m0 m
  | _, _ => False
  end.

Definition candidate_rel (R : FromFee -> Candidate.Fee -> Prop)
           (t0 : FeesPerInvoice) (t : Candidate.Tree) : Prop :=
  map_rel2 (map_rel2 (candidate_group_rel R)) t0 t.

(** A candidate with the shape of the initial tree. *)
Definition candidate_shape (t0 : FeesPerInvoice) (t : Candidate.Tree) : Prop :=
  candidate_rel (fun _ _ => True) t0 t.

(** What the rule of an initial leaf asks of a candidate leaf: a value that
    is a number other than NaN and, when the leaf is checked, between the
    rule's lower bound and the initial [maxAmount] in major units. *)
Definition candidate_leaf_ok (currency : CurrencyEnum) (initial : FromFee)
           (candidate : Candidate.Fee) : Prop :=
  exists q,
    Candidate.value candidate = Rational q /\
    (Candidate.checked candidate = true ->
     (1 # 10000000000000000) <= q /\
     q <= maxAmount initial / pow10 (getCurrencyPrecision currency)).

(** A candidate of the shape of [sample_tree]: an unchecked leaf holds NaN,
    a checked one holds 0. *)
Definition sample_candidate : Candidate.Tree :=
  [ ("invA",
     [ ("g1", Candidate.Leaf
                {| Candidate.id := "f1"; Candidate.checked := true;
                   Candidate.value := Rational 50; Candidate.maxAmount := 5000 |});
       ("g2", Candidate.Grouped
                [ ("s1", {| Candidate.id := "f2"; Candidate.checked := true;
                            Candidate.value := Rational (1 # 1000);
                            Candidate.maxAmount := 1000 |});
                  ("s2", {| Candidate.id := "f3"; Candidate.checked := false;
                            Candidate.value := NotANumber;
                            Candidate.maxAmount := 300 |}) ]);
       ("g3", Candidate.Leaf
                {| Candidate.id := "f4"; Candidate.checked := true;
                   Candidate.value := Rational 0; Candidate.maxAmount := 900 |}) ]) ].

(** The line item of a candidate leaf, and the items of the checked leaves
    of a list. *)
Definition candidate_item (currency : CurrencyEnum) (fee : Candidate.Fee)
  : CreditNoteItemInput :=
  {| feeId := JsStr (Candidate.id fee);
     amountCents := serializeAmount (js_number (Candidate.value fee)) currency |}.

Definition candidate_items (currency : CurrencyEnum) (leaves : list Candidate.Fee)
  : list CreditNoteItemInput :=
  map (candidate_item currency) (filter Candidate.checked leaves).

Definition wf_candidate_group (g : Candidate.Group) : Prop :=
  match g with
  | Candidate.Leaf _ => True
  | Candidate.Grouped grouped => distinct_keys grouped
  end.

Definition wf_candidate_sub (sub : Candidate.Sub) : Prop :=
  distinct_keys sub /\ Forall (fun kv => wf_candidate_group (snd kv)) sub.

Definition wf_candidate (tree : Candidate.Tree) : Prop :=
  distinct_keys tree /\ Forall (fun kv => wf_candidate_sub (snd kv)) tree.

(** Two candidates of the same shape whose leaves are related pairwise. *)
Definition candidates_group_rel (R : Candidate.Fee -> Candidate.Fee -> Prop)
           (g1 g2 : Candidate.Group) : Prop :=
  match g1, g2 with
  | Candidate.Leaf f1, Candidate.Leaf f2 => R f1 f2
  | Candidate.Grouped m1, Candidate.Grouped m2 => map_rel R m1 m2
  | _, _ => False
  end.

Definition candidates_rel (R : Candidate.Fee -> Candidate.Fee -> Prop)
           (t1 t2 : Candidate.Tree) : Prop :=
  map_rel (map_rel (candidates_group_rel R)) t1 t2.

(** Two candidate leaves that differ at most in the [value] of an unchecked
    leaf, whatever numbers the two values are. *)
Definition differ_in_unchecked_value (f1 f2 : Candidate.Fee) : Prop :=
  Candidate.id f1 = Candidate.id f2 /\
  Candidate.maxAmount f1 = Candidate.maxAmount f2 /\
  Candidate.checked f1 = Candidate.checked f2 /\
  (Candidate.checked f1 = true -> Candidate.value f1 = Candidate.value f2).

(** An unchecked leaf holds a number other than NaN. *)
Definition unchecked_is_rational (fee : Candidate.Fee) : Prop :=
  Candidate.checked fee = false -> Candidate.value fee <> NotANumber.

(** Two candidate leaves that a leaf rule cannot tell apart. *)
Definition same_checked_numbers (f1 f2 : Candidate.Fee) : Prop :=
  Candidate.checked f1 = Candidate.checked f2 /\
  (Candidate.checked f1 = true -> Candidate.value f1 = Candidate.value f2) /\
  (Candidate.checked f1 = false ->
   Candidate.value f1 <> NotANumber /\ Candidate.value f2 <> NotANumber).

(** The form values holding a candidate tree. *)
Definition js_candidate_form (reason description : JsValue)
           (payBack : option (list PayBack.t)) (tree : Candidate.Tree)
           (addOnFee : JsValue) : JsValue :=
  JsObj [ ("reason", reason);
          ("description", description);
          ("payBack", match payBack with
                      | Some entries => JsArr (map js_payBack entries)
                      | None => JsUndefined
                      end);
          ("fees", js_candidate tree);
          ("addOnFee", addOnFee) ].

(** A candidate of the shape of [sample_tree] whose unchecked leaf holds
    the given number. *)
Definition edited_candidate (v : JsNumber) : Candidate.Tree :=
  [ ("invA",
     [ ("g1", Candidate.Leaf
                {| Candidate.id := "f1"; Candidate.checked := true;
                   Candidate.value := Rational 10; Candidate.maxAmount := 5000 |});
       ("g2", Candidate.Grouped
                [ ("s1", {| Candidate.id := "f2"; Candidate.checked := true;
                            Candidate.value := Rational 2;
                            Candidate.maxAmount := 1000 |});
                  ("s2", {| Candidate.id := "f3"; Candidate.checked := false;
                            Candidate.value := v;
                            Candidate.maxAmount := 300 |}) ]);
       ("g3", Candidate.Leaf
                {| Candidate.id := "f4"; Candidate.checked := true;
                   Candidate.value := Rational 0; Candidate.maxAmount := 900 |}) ]) ].

(** The candidate of the shape of [tiny_initial] whose single leaf is
    unchecked and holds the given number. *)
Definition unchecked_leaf_tree (v : JsNumber) : Candidate.Tree :=
  [ ("invA",
     [ ("g1", Candidate.Leaf
                {| Candidate.id := "f1"; Candidate.checked := false;
                   Candidate.value := v; Candidate.maxAmount := 5000 |}) ]) ].

(** ** Fee trees with arbitrary fee-groups *)

(** A tree that has its nested [fees] maps and whose fee-groups are any
    values: sub-invoice key, then fee-group key. *)
Definition RawSub : Type := list (string * JsValue).
Definition RawTree : Type := list (string * RawSub).

Definition js_raw_sub (groups : RawSub) : JsValue :=
  JsObj [ ("fees", JsObj groups) ].

Definition js_raw_tree (tree : RawTree) : JsValue :=
  JsObj (map_values js_raw_sub tree).

Definition wf_raw_tree (tree : RawTree) : Prop :=
  distinct_keys tree /\ Forall (fun kv => distinct_keys (snd kv)) tree.

(** The discrimination of the specification: "bare leaf when the checked
    field is of boolean type, grouped wrapper otherwise". *)
Definition is_bare_leaf (child : JsValue) : bool :=
  typeof_boolean (lookup child "checked").

(** The results of the entries of a map, in order, for a visit that may
    throw: concatenated, and keyed. *)
Fixpoint collect {V I : Type} (g : V -> result (list I)) (m : list (string * V))
  : result (list I) :=
  match m with
  | [] => Ok []
  | kv :: rest =>
      let* x := g (snd kv) in
      let* xs := collect g rest in
      Ok (x ++ xs)
  end.

Fixpoint traverse {V S : Type} (g : string -> V -> result S) (m : list (string * V))
  : result (list (string * S)) :=
  match m with
  | [] => Ok []
  | kv :: rest =>
      let* s := g (fst kv) (snd kv) in
      let* rs := traverse g rest in
      Ok ((fst kv, s) :: rs)
  end.

(** The walks as the specification words them, both led by [is_bare_leaf]:
    a bare leaf gives its own item when checked, and its own leaf rule; a
    grouped wrapper gives the items, and the wrapped rules, of its
    [grouped] map.  Reading a field of a fee-group that is [undefined] or
    [null] raises. *)
Definition spec_group_items (currency : CurrencyEnum) (child : JsValue)
  : result (list CreditNoteItemInput) :=
  if nullish child then TypeError
  else if is_bare_leaf child
       then Ok (if truthy (lookup child "checked")
                then [entry_item currency child] else [])
       else groupedItems (lookup child "grouped") currency.

Definition spec_group_rule (currency : CurrencyEnum) (initial : JsValue)
           (subKey feeGroupKey : string) (child : JsValue) : result Schema :=
  if nullish child then TypeError
  else if is_bare_leaf child
       then Ok (path_rule currency initial
                          (subKey ++ ".fees." ++ feeGroupKey ++ ".maxAmount"))
       else let* inner := groupedShape initial currency subKey feeGroupKey
                                       (lookup child "grouped") in
            Ok (object [ ("grouped", object inner) ]).

Definition spec_walk_items (currency : CurrencyEnum) (tree : RawTree)
  : result (list CreditNoteItemInput) :=
  collect (collect (spec_group_items currency)) tree.

Definition spec_walk_rules (currency : CurrencyEnum) (tree : RawTree) : result Schema :=
  let* shape :=
    traverse (fun subKey groups =>
                let* inner := traverse (spec_group_rule currency (js_raw_tree tree) subKey)
                                       groups in
                Ok (object [ ("fees", object inner) ]))
             tree in
  Ok (object shape).

(** A typed fee-group as a raw one. *)
Definition raw_of_tree (tree : FeesPerInvoice) : RawTree :=
  map_values (map_values js_group) tree.

(** A tree with fee-groups that no typed tree has: one carries both a
    boolean [checked] and a [grouped] map, one carries the fields of a leaf
    without a boolean [checked] beside a [grouped] map. *)
Definition ambiguous_tree : RawTree :=
  [ ("invA",
     [ ("g1", JsObj [ ("id", JsStr "f1"); ("checked", JsBool true); ("value", JsNum 4);
                      ("maxAmount", JsNum 900);
                      ("grouped",
                       JsObj [ ("s1", JsObj [ ("id", JsStr "f2"); ("checked", JsBool true);
                                              ("value", JsNum 1);
                                              ("maxAmount", JsNum 100) ]) ]) ]);
       ("g2", JsObj [ ("id", JsStr "f3"); ("checked", JsStr "yes"); ("value", JsNum 6);
                      ("maxAmount", JsNum 700);
                      ("grouped",
                       JsObj [ ("s1", JsObj [ ("id", JsStr "f4"); ("checked", JsBool true);
                                              ("value", JsNum 2);
                                              ("maxAmount", JsNum 200) ]) ]) ]) ]) ].

(** ** Trees with empty nested maps *)

(** A tree in which a grouped fee-group has an empty [grouped] map and a
    sub-invoice group has an empty [fees] map, beside a checked leaf. *)
Definition sparse_tree : FeesPerInvoice :=
  [ ("invA",
     [ ("g1", Grouped []);
       ("g2", Leaf {| id := "f1"; checked := true; value := 10; maxAmount := 5000 |}) ]);
    ("invB", []) ].

Definition sparse_form : CreditNoteForm.t :=
  {| CreditNoteForm.reason := JsStr "other";
     CreditNoteForm.description := JsUndefined;
     CreditNoteForm.payBack := None;
     CreditNoteForm.fees := Some sparse_tree;
     CreditNoteForm.addOnFee := JsUndefined |}.

(** A form without a fee tree. *)
Definition treeless_form : CreditNoteForm.t :=
  {| CreditNoteForm.reason := JsStr "other";
     CreditNoteForm.description := JsUndefined;
     CreditNoteForm.payBack := None;
     CreditNoteForm.fees := None;
     CreditNoteForm.addOnFee := JsObj [ ("id", JsStr "addon"); ("value", JsNum 3) ] |}.

(* ================================================================== *)
(** * Facts about the value model *)

Lemma assoc_In {V : Type} (k : string) (v : V) (m : list (string * V)) :
  NoDup (map fst m) -> In (k, v) m -> assoc k m = Some v.
Proof.
  induction m as [|[k' v'] m IH]; simpl; intros ND HIn; [contradiction|].
  inversion ND as [|? ? Hnot ND']; subst.
  destruct HIn as [Heq|HIn].
  - inversion Heq; subst. now rewrite String.eqb_refl.
  - destruct (String.eqb_spec k' k) as [->|_].
    + exfalso. apply Hnot. change k with (fst (k, v)). now apply in_map.
    + now apply IH.
Qed.

Lemma assoc_map_values {A B : Type} (f : A -> B) k (m : list (string * A)) :
  assoc k (map_values f m) = option_map f (assoc k m).
Proof.
  induction m as [|[k' v'] m IH]; simpl; [reflexivity|].
  destruct (String.eqb k' k); [reflexivity|exact IH].
Qed.

Lemma map_fst_map_values {A B : Type} (f : A -> B) (m : list (string * A)) :
  map fst (map_values f m) = map fst m.
Proof. unfold map_values. rewrite map_map. reflexivity. Qed.

Lemma reduce_entries {A V : Type} (f : A -> string -> result A)
      (h : A -> string * V -> result A) (m l : list (string * V)) :
  (forall kv acc, In kv m -> f acc (fst kv) = h acc kv) ->
  incl l m ->
  forall acc, reduce f (map fst l) acc = fold_entries h l acc.
Proof.
  intros Hf. induction l as [|kv l IH]; intros Hincl acc; simpl; [reflexivity|].
  rewrite Hf by (apply Hincl; now left).
  destruct (h acc kv); simpl; [|reflexivity].
  apply IH. intros x Hx. apply Hincl. now right.
Qed.

(** A fold whose steps append the items of each entry collects them in
    order. *)
Lemma fold_entries_append {V I : Type} (g : string * V -> list I)
      (h : list I -> string * V -> result (list I)) (l : list (string * V)) :
  (forall kv acc, In kv l -> h acc kv = Ok (acc ++ g kv)) ->
  forall acc, fold_entries h l acc = Ok (acc ++ flat_map g l).
Proof.
  induction l as [|kv l IH]; intros Hh acc; simpl.
  - now rewrite app_nil_r.
  - rewrite Hh by now left. simpl.
    rewrite IH by (intros; apply Hh; now right).
    now rewrite <- app_assoc.
Qed.

Lemma lookup_map_values {A : Type} (f : A -> JsValue) k v (m : list (string * A)) :
  distinct_keys m -> In (k, v) m -> lookup (JsObj (map_values f m)) k = f v.
Proof.
  intros ND HIn. simpl. rewrite assoc_map_values, (assoc_In k v m ND HIn).
  reflexivity.
Qed.

(** A [reduce] over the keys of an encoded map, whose callback appends the
    items of the entry it reads. *)
Lemma reduce_map_values {A I : Type} (f : list I -> string -> result (list I))
      (g : A -> list I) (m : list (string * A)) :
  (forall k v acc, In (k, v) m -> f acc k = Ok (acc ++ g v)) ->
  forall acc, reduce f (map fst m) acc = Ok (acc ++ flat_map (fun kv => g (snd kv)) m).
Proof.
  intros Hf acc.
  rewrite (reduce_entries f (fun acc kv => Ok (acc ++ g (snd kv))) m m).
  - now apply fold_entries_append.
  - intros [k v] acc' HIn. now apply Hf.
  - apply incl_refl.
Qed.

Lemma checked_items_app c (l1 l2 : list FromFee) :
  checked_items c (l1 ++ l2) = checked_items c l1 ++ checked_items c l2.
Proof. unfold checked_items. now rewrite filter_app, map_app. Qed.

Lemma checked_items_flat_map {A : Type} c (F : A -> list FromFee) (l : list A) :
  flat_map (fun x => checked_items c (F x)) l = checked_items c (flat_map F l).
Proof.
  induction l as [|x l IH]; simpl; [reflexivity|].
  now rewrite checked_items_app, IH.
Qed.

Lemma flat_map_single {A B : Type} (f : A -> B) (l : list A) :
  flat_map (fun x => [f x]) l = map f l.
Proof. induction l as [|x l IH]; simpl; [reflexivity|now rewrite IH]. Qed.

(* ================================================================== *)
(** * The tree walk on well-formed trees *)

Lemma groupedItems_wf c (grouped : list (string * FromFee)) :
  distinct_keys grouped ->
  groupedItems (JsObj (map_values js_fee grouped)) c
  = Ok (checked_items c (map snd grouped)).
Proof.
  intros ND. unfold groupedItems. cbn [Object_keys bind].
  rewrite map_fst_map_values.
  rewrite (reduce_map_values _ (fun fee => checked_items c [fee])).
  - simpl. rewrite (checked_items_flat_map c (fun kv => [snd kv])).
    now rewrite flat_map_single.
  - intros k fee acc HIn. unfold getProp at 1. cbn [nullish].
    rewrite (lookup_map_values js_fee k fee grouped ND HIn).
    unfold checked_items, fee_item. simpl.
    destruct (checked fee); simpl; [reflexivity|now rewrite app_nil_r].
Qed.

Lemma groupStep_wf c (sub : SubInvoice) k g acc :
  distinct_keys sub -> wf_group g -> In (k, g) sub ->
  groupStep (js_sub sub) c acc k = Ok (acc ++ checked_items c (group_leaves g)).
Proof.
  intros ND Hg HIn. unfold groupStep, js_sub. cbn [nullish].
  change (lookup (JsObj [("fees", JsObj (map_values js_group sub))]) "fees")
    with (JsObj (map_values js_group sub)).
  unfold getProp at 1. cbn [nullish bind].
  rewrite (lookup_map_values js_group k g sub ND HIn).
  destruct g as [fee|grouped]; simpl in *.
  - unfold checked_items, fee_item. simpl.
    destruct (checked fee); simpl; [reflexivity|now rewrite app_nil_r].
  - change (optProp (JsObj [("grouped", JsObj (map_values js_fee grouped))]) "grouped")
      with (JsObj (map_values js_fee grouped)).
    now rewrite (groupedItems_wf c grouped Hg).
Qed.

Lemma subStep_wf c (tree : FeesPerInvoice) k sub acc :
  distinct_keys tree -> wf_sub sub -> In (k, sub) tree ->
  subStep (js_fees tree) c acc k = Ok (acc ++ checked_items c (sub_leaves sub)).
Proof.
  intros ND [NDs Hgs] HIn. unfold subStep, js_fees, getProp. cbn [nullish bind].
  rewrite (lookup_map_values js_sub k sub tree ND HIn).
  change (optProp (js_sub sub) "fees") with (JsObj (map_values js_group sub)).
  cbn [Object_keys bind]. rewrite map_fst_map_values.
  rewrite (reduce_map_values _ (fun g => checked_items c (group_leaves g))).
  - simpl. unfold sub_leaves.
    now rewrite (checked_items_flat_map c (fun kv => group_leaves (snd kv))).
  - intros k' g acc' HIn'. apply groupStep_wf; auto.
    rewrite Forall_forall in Hgs. exact (Hgs _ HIn').
Qed.

Lemma feeItems_wf c (tree : FeesPerInvoice) :
  wf_tree tree ->
  feeItems (js_fees tree) c = Ok (checked_items c (tree_leaves tree)).
Proof.
  intros [ND Hsubs]. unfold feeItems, js_fees. cbn [Object_keys bind].
  rewrite map_fst_map_values.
  rewrite (reduce_map_values _ (fun sub => checked_items c (sub_leaves sub))).
  - simpl. unfold tree_leaves.
    now rewrite (checked_items_flat_map c (fun kv => sub_leaves (snd kv))).
  - intros k sub acc HIn. apply subStep_wf; auto.
    rewrite Forall_forall in Hsubs. exact (Hsubs _ HIn).
Qed.

(* ================================================================== *)
(** * The serializer on typed forms *)

Lemma serializeAmount_zero c : serializeAmount (JsNum 0) c = JsNum 0.
Proof. destruct c as [cd [|]]; reflexivity. Qed.

Lemma serializeAmount_Qeq c (x y : Q) :
  x == y -> serializeAmount (JsNum x) c = serializeAmount (JsNum y) c.
Proof.
  intros H. unfold serializeAmount, Math_round. do 2 f_equal.
  apply Qfloor_comp. now rewrite H.
Qed.

Lemma js_or_amount c (v : Q) :
  serializeAmount (js_or (JsNum v) (JsNum 0)) c = serializeAmount (JsNum v) c.
Proof.
  unfold js_or. cbn [truthy].
  destruct (Qeq_bool v 0) eqn:E; cbn [negb]; [|reflexivity].
  apply serializeAmount_Qeq. symmetry. now apply Qeq_bool_eq.
Qed.

Lemma js_or_cents c (v : Q) :
  js_or (serializeAmount (JsNum v) c) (JsNum 0) = serializeAmount (JsNum v) c.
Proof.
  unfold js_or, serializeAmount, Math_round.
  set (z := Qfloor _). cbn [truthy].
  destruct (Qeq_bool (inject_Z z) 0) eqn:E; cbn [negb]; [|reflexivity].
  apply Qeq_bool_eq in E. unfold Qeq in E. simpl in E.
  replace z with 0%Z by lia. reflexivity.
Qed.

Lemma find_first_payBack type (entries : list PayBack.t) :
  find_first (fun p => let* t := getProp p "type" in
                       Ok (strict_equal t (js_credit_type type)))
             (map js_payBack entries)
  = Ok (match payBack_entry type entries with
        | Some p => js_payBack p
        | None => JsUndefined
        end).
Proof.
  induction entries as [|p l IH]; simpl; [reflexivity|].
  replace (strict_equal (js_credit_type (PayBack.type p)) (js_credit_type type))
    with (credit_type_eqb (PayBack.type p) type)
    by (destruct (PayBack.type p), type; reflexivity).
  destruct (credit_type_eqb (PayBack.type p) type); [reflexivity|exact IH].
Qed.

Lemma payBackAmount_typed type c (entries : list PayBack.t) :
  payBackAmount (JsArr (map js_payBack entries)) type c
  = Ok (payBack_cents type c (Some entries)).
Proof.
  unfold payBackAmount, Array_find. rewrite find_first_payBack. cbn [bind].
  unfold payBack_cents. destruct (payBack_entry type entries) as [p|].
  - change (optProp (js_payBack p) "value") with (JsNum (PayBack.value p)).
    now rewrite js_or_amount.
  - change (js_or (optProp JsUndefined "value") (JsNum 0)) with (JsNum 0).
    now rewrite serializeAmount_zero.
Qed.

Lemma js_or_payBack_cents type c payBack :
  js_or (payBack_cents type c payBack) (JsNum 0) = payBack_cents type c payBack.
Proof.
  unfold payBack_cents. destruct payBack as [entries|]; [|reflexivity].
  destruct (payBack_entry type entries); [apply js_or_cents|reflexivity].
Qed.

Lemma addOnItems_ok (addOnFee : JsValue) c :
  addOnItems addOnFee c
  = Ok (if truthy (optProp addOnFee "value") then [addOn_item addOnFee c] else []).
Proof.
  unfold addOnItems, optProp, getProp, addOn_item.
  destruct (nullish addOnFee); simpl; [reflexivity|].
  destruct (truthy (lookup addOnFee "value")); reflexivity.
Qed.

(** The whole output on a typed form. *)
Lemma serializeCreditNoteInput_typed inv (form : CreditNoteForm.t) c :
  wf_form form ->
  serializeCreditNoteInput inv (js_form form) c
  = Ok {| invoiceId := inv;
          reason := CreditNoteForm.reason form;
          description := CreditNoteForm.description form;
          creditAmountCents := payBack_cents credit c (CreditNoteForm.payBack form);
          refundAmountCents := payBack_cents refund c (CreditNoteForm.payBack form);
          items := (if truthy (optProp (CreditNoteForm.addOnFee form) "value")
                    then [addOn_item (CreditNoteForm.addOnFee form) c] else [])
                   ++ checked_items c (form_leaves form) |}.
Proof.
  destruct form as [rs ds pb fs ao]. unfold wf_form, form_leaves, js_form.
  cbn [CreditNoteForm.reason CreditNoteForm.description CreditNoteForm.payBack
       CreditNoteForm.fees CreditNoteForm.addOnFee].
  intros Hwf. unfold serializeCreditNoteInput, getProp.
  cbn [nullish lookup assoc String.eqb Ascii.eqb Bool.eqb or_undefined bind].
  rewrite addOnItems_ok.
  assert (Hwalk :
    feeItems (default_to match fs with Some tree => js_fees tree | None => JsUndefined end
                         (JsArr [])) c
    = Ok (checked_items c match fs with Some tree => tree_leaves tree | None => [] end)).
  { destruct fs as [tree|]; [|reflexivity].
    change (default_to (js_fees tree) (JsArr [])) with (js_fees tree).
    now apply feeItems_wf. }
  destruct pb as [entries|].
  - cbn [truthy negb]. rewrite !payBackAmount_typed. cbn [bind].
    rewrite js_or_payBack_cents, Hwalk. reflexivity.
  - cbn [truthy negb bind]. rewrite Hwalk. reflexivity.
Qed.

(* ================================================================== *)
(** * Amount conversion round trip *)

Lemma pow10_nonzero p : ~ pow10 p == 0.
Proof.
  unfold pow10, Qeq. simpl. rewrite Z.mul_1_r.
  apply Z.pow_nonzero; lia.
Qed.

Lemma Math_round_integer (z : Z) (q : Q) :
  q == inject_Z z -> Math_round q = inject_Z z.
Proof.
  intros H. unfold Math_round. f_equal.
  rewrite (Qfloor_comp _ (inject_Z z + (1 # 2))) by now rewrite H.
  unfold Qfloor, Qplus, inject_Z. simpl.
  symmetry. apply Z.div_unique with (r := 1%Z); lia.
Qed.

Lemma precision_2_or_3 c :
  getCurrencyPrecision c = 2%nat \/ getCurrencyPrecision c = 3%nat.
Proof. unfold getCurrencyPrecision. destruct (three_decimals c); auto. Qed.

(** Minor units survive the way to major units and back. *)
Lemma serialize_deserialize_integer c (z : Z) :
  serializeAmount (deserializeAmount (JsNum (inject_Z z)) c) c = JsNum (inject_Z z).
Proof.
  unfold serializeAmount, deserializeAmount. f_equal.
  apply Math_round_integer. field. apply pow10_nonzero.
Qed.

Lemma serialize_deserialize_serialize c (v : JsValue) :
  serializeAmount (deserializeAmount (serializeAmount v c) c) c = serializeAmount v c.
Proof.
  destruct v; try reflexivity.
  unfold serializeAmount at 2 3. unfold Math_round.
  apply serialize_deserialize_integer.
Qed.

(** A major-unit amount with no more decimals than the precision is
    recovered from its minor units. *)
Lemma deserialize_serialize_exact c (v : Q) (z : Z) :
  v * pow10 (getCurrencyPrecision c) == inject_Z z ->
  exists q, deserializeAmount (serializeAmount (JsNum v) c) c = JsNum q /\ q == v.
Proof.
  intros H. unfold serializeAmount, deserializeAmount.
  rewrite (Math_round_integer z _ H).
  eexists; split; [reflexivity|].
  rewrite <- H. field. apply pow10_nonzero.
Qed.

(* ================================================================== *)
(** * The generated schema of a well-formed tree *)

Lemma obj_set_fresh {V : Type} (acc : list (string * V)) k v :
  ~ In k (map fst acc) -> obj_set acc k v = acc ++ [(k, v)].
Proof.
  induction acc as [|[k' v'] acc IH]; simpl; intros Hk; [reflexivity|].
  destruct (String.eqb_spec k' k) as [->|_]; [exfalso; auto|].
  rewrite IH; auto.
Qed.

Lemma fold_entries_obj_set {A S : Type} (g : string -> A -> S) (l : list (string * A)) :
  forall acc : list (string * S),
    NoDup (map fst acc ++ map fst l) ->
    fold_entries (fun acc kv => Ok (obj_set acc (fst kv) (g (fst kv) (snd kv)))) l acc
    = Ok (acc ++ map_entries g l).
Proof.
  induction l as [|[k v] l IH]; intros acc ND; simpl.
  - now rewrite app_nil_r.
  - simpl in ND. pose proof (NoDup_remove_2 _ _ _ ND) as Hk.
    rewrite obj_set_fresh by (intros HIn; apply Hk, in_or_app; now left).
    rewrite IH.
    + now rewrite <- app_assoc.
    + rewrite map_app, <- app_assoc. exact ND.
Qed.

(** A [reduce] over the keys of an encoded map, whose callback sets the
    rule of the entry it reads. *)
Lemma reduce_obj_set {A S : Type} (f : list (string * S) -> string -> result (list (string * S)))
      (g : string -> A -> S) (m : list (string * A)) :
  distinct_keys m ->
  (forall k v acc, In (k, v) m -> f acc k = Ok (obj_set acc k (g k v))) ->
  reduce f (map fst m) [] = Ok (map_entries g m).
Proof.
  intros ND Hf.
  rewrite (reduce_entries f
             (fun acc kv => Ok (obj_set acc (fst kv) (g (fst kv) (snd kv)))) m m).
  - now rewrite fold_entries_obj_set.
  - intros [k v] acc HIn. now apply Hf.
  - apply incl_refl.
Qed.

Lemma map_entries_values {A B : Type} (f : string -> A -> B) (g : A -> B)
      (m : list (string * A)) :
  (forall k v, In (k, v) m -> f k v = g v) -> map_entries f m = map_values g m.
Proof.
  intros H. apply map_ext_in. intros [k v] HIn. simpl. now rewrite H.
Qed.

Lemma stringToPath_app (k rest : string) :
  plain_key k = true ->
  stringToPath (k ++ String "." rest) = k :: stringToPath rest.
Proof.
  induction k as [|a k IH]; simpl; intros Hk; [reflexivity|].
  apply andb_prop in Hk as [Ha Hk]. apply andb_prop in Ha as [Ha _].
  apply andb_prop in Ha as [Ha _].
  destruct (Ascii.eqb a "."); [discriminate|].
  now rewrite IH.
Qed.

Lemma plain_key_dotted (k rest : string) :
  plain_key (k ++ String "." rest) = false.
Proof.
  induction k as [|a k IH]; simpl; [reflexivity|].
  rewrite IH. now rewrite andb_false_r.
Qed.

Lemma assoc_not_plain {V : Type} (path : string) (m : list (string * V)) :
  plain_keys m -> plain_key path = false -> assoc path m = None.
Proof.
  intros Hm Hp. induction Hm as [|[k v] m Hk _ IH]; simpl; [reflexivity|].
  destruct (String.eqb_spec k path) as [->|_]; [|exact IH].
  simpl in Hk. congruence.
Qed.

Lemma plain_keys_map_values {A B : Type} (f : A -> B) (m : list (string * A)) :
  plain_keys m -> plain_keys (map_values f m).
Proof.
  unfold plain_keys, map_values. rewrite Forall_map. now simpl.
Qed.

Lemma lookup_fees (sub : SubInvoice) :
  lookup (js_sub sub) "fees" = JsObj (map_values js_group sub).
Proof. reflexivity. Qed.

Lemma lookup_grouped (grouped : list (string * FromFee)) :
  lookup (js_group (Grouped grouped)) "grouped" = JsObj (map_values js_fee grouped).
Proof. reflexivity. Qed.

(** A dotted path whose first segment is a plain key of a tree is resolved
    segment by segment. *)
Lemma _get_dotted (tree : FeesPerInvoice) (k rest : string) :
  plain_keys tree -> plain_key k = true ->
  _get (js_or (js_fees tree) (JsObj [])) (k ++ String "." rest)
  = baseGet (lookup (js_fees tree) k) (stringToPath rest).
Proof.
  intros Ht Hk. unfold _get, js_fees. cbn [js_or truthy nullish has_property].
  rewrite (assoc_not_plain _ _ (plain_keys_map_values js_sub tree Ht)
                           (plain_key_dotted k rest)).
  now rewrite stringToPath_app.
Qed.

Lemma maxAmount_of_leaf (tree : FeesPerInvoice) subKey sub feeGroupKey fee :
  distinct_keys tree -> plain_keys tree ->
  distinct_keys sub -> plain_keys sub ->
  In (subKey, sub) tree -> In (feeGroupKey, Leaf fee) sub ->
  _get (js_or (js_fees tree) (JsObj []))
       (subKey ++ ".fees." ++ feeGroupKey ++ ".maxAmount")
  = JsNum (maxAmount fee).
Proof.
  intros NDt Pt NDs Ps Hsub Hg.
  assert (Hk : plain_key subKey = true).
  { unfold plain_keys in Pt. rewrite Forall_forall in Pt. exact (Pt _ Hsub). }
  assert (Hgk : plain_key feeGroupKey = true).
  { unfold plain_keys in Ps. rewrite Forall_forall in Ps. exact (Ps _ Hg). }
  change (subKey ++ ".fees." ++ feeGroupKey ++ ".maxAmount")%string
    with (subKey ++ String "." ("fees" ++ String "." (feeGroupKey ++ String "." "maxAmount")))%string.
  rewrite _get_dotted by assumption.
  rewrite !stringToPath_app by (assumption || reflexivity).
  unfold js_fees. rewrite (lookup_map_values js_sub subKey sub tree NDt Hsub).
  cbn [baseGet]. rewrite lookup_fees. cbn [nullish js_sub].
  rewrite (lookup_map_values js_group feeGroupKey (Leaf fee) sub NDs Hg).
  reflexivity.
Qed.

Lemma maxAmount_of_grouped_leaf (tree : FeesPerInvoice) subKey sub feeGroupKey
      grouped feeKey fee :
  distinct_keys tree -> plain_keys tree ->
  distinct_keys sub -> plain_keys sub ->
  distinct_keys grouped -> plain_keys grouped ->
  In (subKey, sub) tree -> In (feeGroupKey, Grouped grouped) sub ->
  In (feeKey, fee) grouped ->
  _get (js_or (js_fees tree) (JsObj []))
       (subKey ++ ".fees." ++ feeGroupKey ++ ".grouped." ++ feeKey ++ ".maxAmount")
  = JsNum (maxAmount fee).
Proof.
  intros NDt Pt NDs Ps NDg Pg Hsub Hg Hf.
  assert (Hk : plain_key subKey = true).
  { unfold plain_keys in Pt. rewrite Forall_forall in Pt. exact (Pt _ Hsub). }
  assert (Hgk : plain_key feeGroupKey = true).
  { unfold plain_keys in Ps. rewrite Forall_forall in Ps. exact (Ps _ Hg). }
  assert (Hfk : plain_key feeKey = true).
  { unfold plain_keys in Pg. rewrite Forall_forall in Pg. exact (Pg _ Hf). }
  change (subKey ++ ".fees." ++ feeGroupKey ++ ".grouped." ++ feeKey ++ ".maxAmount")%string
    with (subKey ++ String "." ("fees" ++ String "." (feeGroupKey ++ String "."
            ("grouped" ++ String "." (feeKey ++ String "." "maxAmount")))))%string.
  rewrite _get_dotted by assumption.
  rewrite !stringToPath_app by (assumption || reflexivity).
  unfold js_fees. rewrite (lookup_map_values js_sub subKey sub tree NDt Hsub).
  cbn [baseGet]. rewrite lookup_fees. cbn [nullish js_sub].
  rewrite (lookup_map_values js_group feeGroupKey (Grouped grouped) sub NDs Hg).
  rewrite lookup_grouped. cbn [nullish js_group].
  rewrite (lookup_map_values js_fee feeKey fee grouped NDg Hf).
  reflexivity.
Qed.

Lemma groupedShape_wf c init subKey feeGroupKey (grouped : list (string * FromFee)) :
  distinct_keys grouped ->
  groupedShape init c subKey feeGroupKey (JsObj (map_values js_fee grouped))
  = Ok (map_entries
          (fun feeKey _ =>
             path_rule c init (subKey ++ ".fees." ++ feeGroupKey ++ ".grouped."
                                      ++ feeKey ++ ".maxAmount"))
          grouped).
Proof.
  intros NDg. unfold groupedShape.
  cbn [Object_keys bind]. rewrite map_fst_map_values.
  apply reduce_obj_set; [assumption|]. reflexivity.
Qed.

Lemma feeGroupStep_wf c init subKey (sub : SubInvoice) feeGroupKey g acc :
  wf_sub sub -> In (feeGroupKey, g) sub ->
  feeGroupStep init (JsObj (map_values js_group sub)) c subKey acc feeGroupKey
  = Ok (obj_set acc feeGroupKey (group_path_rule c init subKey feeGroupKey g)).
Proof.
  intros [NDs Wg] Hg. unfold feeGroupStep, getProp.
  cbn [nullish bind].
  rewrite (lookup_map_values js_group feeGroupKey g sub NDs Hg).
  rewrite Forall_forall in Wg. specialize (Wg _ Hg).
  destruct g as [fee|grouped]; cbn [snd wf_group] in Wg.
  - reflexivity.
  - change (nullish (js_group (Grouped grouped))) with false. cbn iota.
    change (lookup (js_group (Grouped grouped)) "checked") with JsUndefined.
    cbn [bind typeof_boolean].
    change (optProp (js_group (Grouped grouped)) "grouped")
      with (JsObj (map_values js_fee grouped)).
    now rewrite (groupedShape_wf c init subKey feeGroupKey grouped Wg).
Qed.

Lemma subSchemaStep_wf c (tree : FeesPerInvoice) subKey sub acc :
  distinct_keys tree -> wf_sub sub -> In (subKey, sub) tree ->
  subSchemaStep (js_fees tree) c acc subKey
  = Ok (obj_set acc subKey (sub_path_rule c (js_fees tree) subKey sub)).
Proof.
  intros NDt Ws Hsub. unfold subSchemaStep, getProp.
  change (nullish (js_fees tree)) with false. cbn iota. cbn [bind].
  assert (E : lookup (js_fees tree) subKey = js_sub sub)
    by exact (lookup_map_values js_sub subKey sub tree NDt Hsub).
  rewrite !E.
  change (optProp (js_sub sub) "fees") with (JsObj (map_values js_group sub)).
  cbn [Object_keys bind]. rewrite map_fst_map_values.
  rewrite (reduce_obj_set _ (group_path_rule c (js_fees tree) subKey) sub).
  - reflexivity.
  - exact (proj1 Ws).
  - intros k g acc' HIn. now apply feeGroupStep_wf.
Qed.

(** The schema generated from a well-formed tree has the shape of the
    tree. *)
Lemma generateFeesSchema_paths c (tree : FeesPerInvoice) :
  wf_tree tree ->
  generateFeesSchema (js_fees tree) c = Ok (tree_path_rule c tree).
Proof.
  intros [NDt Ws]. unfold generateFeesSchema.
  change (js_or (js_fees tree) (JsObj [])) with (js_fees tree).
  unfold js_fees at 1. cbn [Object_keys bind]. rewrite map_fst_map_values.
  rewrite (reduce_obj_set _ (sub_path_rule c (js_fees tree)) tree).
  - reflexivity.
  - exact NDt.
  - intros k sub acc HIn. rewrite Forall_forall in Ws.
    apply subSchemaStep_wf; auto. exact (Ws _ HIn).
Qed.

(** With plain keys every dotted path leads to its leaf. *)
Lemma tree_path_rule_plain c (tree : FeesPerInvoice) :
  wf_tree tree -> plain_tree tree ->
  tree_path_rule c tree = tree_rule c tree.
Proof.
  intros [NDt Ws] [Pt Ps]. unfold tree_path_rule, tree_rule. f_equal.
  apply map_entries_values. intros subKey sub Hsub.
  rewrite Forall_forall in Ws, Ps.
  destruct (Ws _ Hsub) as [NDs Wg]. destruct (Ps _ Hsub) as [Pks Pg].
  cbn [snd] in *. unfold sub_path_rule, sub_rule. do 4 f_equal.
  apply map_entries_values. intros feeGroupKey g Hg.
  rewrite Forall_forall in Wg, Pg. specialize (Wg _ Hg). specialize (Pg _ Hg).
  destruct g as [fee|grouped]; cbn [snd wf_group plain_group] in Wg, Pg.
  - unfold group_path_rule, group_rule, path_rule, leaf_rule.
    now rewrite (maxAmount_of_leaf tree subKey sub feeGroupKey fee).
  - unfold group_path_rule, group_rule. do 4 f_equal.
    apply map_entries_values. intros feeKey fee Hf.
    unfold path_rule, leaf_rule.
    now rewrite (maxAmount_of_grouped_leaf tree subKey sub feeGroupKey grouped feeKey fee).
Qed.

Lemma generateFeesSchema_wf c (tree : FeesPerInvoice) :
  wf_tree tree -> plain_tree tree ->
  generateFeesSchema (js_fees tree) c = Ok (tree_rule c tree).
Proof.
  intros Hwf Hplain. rewrite generateFeesSchema_paths by assumption.
  now rewrite tree_path_rule_plain.
Qed.

(* ================================================================== *)
(** * Validation of a candidate tree *)

Lemma flat_map_nil_iff {A B : Type} (f : A -> list B) (l : list A) :
  flat_map f l = [] <-> Forall (fun x => f x = []) l.
Proof.
  induction l as [|x l IH]; simpl.
  - split; auto.
  - split.
    + intros H. apply app_eq_nil in H as [Hx Hl]. constructor; [exact Hx|now apply IH].
    + intros H. inversion H; subst. rewrite (proj2 IH) by assumption.
      now rewrite H2.
Qed.

Lemma validate_object_obj shape p props path :
  validate (object shape) p (JsObj props) path
  = flat_map (fun field =>
                validate (snd field) (JsObj props)
                         (lookup (JsObj props) (fst field)) (path ++ [fst field]))
             shape.
Proof. reflexivity. Qed.

Lemma validate_leaf_iff c (initial candidate : FromFee) p path :
  validate (leaf_rule c initial) p (js_fee candidate) path = []
  <-> leaf_ok c initial candidate.
Proof.
  unfold leaf_rule, simpleFeeSchema, leaf_ok, js_fee. rewrite validate_object_obj.
  cbn [flat_map snd fst js_fee lookup assoc String.eqb Ascii.eqb Bool.eqb
       or_undefined validate optProp nullish truthy app].
  destruct (checked candidate).
  - cbn [validate deserializeAmount at_path flat_map run_test nullish orb js_le
         app map].
    destruct (Qle_bool (1 # 10000000000000000) (value candidate)) eqn:E1;
      destruct (Qle_bool (value candidate)
                         (maxAmount initial / pow10 (getCurrencyPrecision c))) eqn:E2;
      cbn [app map]; split; intros H; try discriminate; try reflexivity.
    + intros _. split; now apply Qle_bool_iff.
    + destruct (H eq_refl) as [_ H2]. apply Qle_bool_iff in H2. congruence.
    + destruct (H eq_refl) as [H1 _]. apply Qle_bool_iff in H1. congruence.
    + destruct (H eq_refl) as [H1 _]. apply Qle_bool_iff in H1. congruence.
  - cbn [validate at_path flat_map map app]. split; [discriminate|reflexivity].
Qed.

(** Validating an encoded map against the rules of a map with the same
    keys amounts to validating the entries pairwise. *)
Lemma validate_map_rel {A : Type} (S : A -> Schema) (J : A -> JsValue)
      (R P : A -> A -> Prop) (m0 m : list (string * A)) p path :
  map_rel R m0 m -> distinct_keys m ->
  (forall k a b, In (k, b) m -> R a b ->
     (validate (S a) (JsObj (map_values J m)) (J b) (path ++ [k]) = [] <-> P a b)) ->
  (validate (object (map_values S m0)) p (JsObj (map_values J m)) path = []
   <-> map_rel P m0 m).
Proof.
  intros Hrel ND Hleaf. rewrite validate_object_obj, flat_map_nil_iff.
  enough (G : forall l0 l, map_rel R l0 l -> incl l m ->
            (Forall (fun field =>
                       validate (snd field) (JsObj (map_values J m))
                                (lookup (JsObj (map_values J m)) (fst field))
                                (path ++ [fst field]) = [])
                    (map_values S l0)
             <-> map_rel P l0 l))
    by (apply G; [assumption|apply incl_refl]).
  clear Hrel. intros l0 l Hrel.
  induction Hrel as [|[k0 a] [k b] l0 l [Hk HR] Hrel IH];
    intros Hincl; simpl in *.
  - split; constructor.
  - subst k0.
    assert (HIn : In (k, b) m) by (apply Hincl; now left).
    assert (IH' := IH (fun x Hx => Hincl x (or_intror Hx))).
    split; intros H.
    + inversion H as [|? ? Hhd Htl]; subst. simpl in Hhd.
      rewrite assoc_map_values, (assoc_In k b m ND HIn) in Hhd. simpl in Hhd.
      constructor.
      * split; [reflexivity|]. now apply (Hleaf k a b HIn HR).
      * now apply IH'.
    + inversion H as [|? ? ? ? [_ HP] Htl]; subst. constructor.
      * simpl. rewrite assoc_map_values, (assoc_In k b m ND HIn). simpl.
        now apply (Hleaf k a b HIn HR).
      * now apply IH'.
Qed.

Lemma validate_group_iff c (g0 g : FeeGroup) p path :
  group_rel (fun _ _ => True) g0 g -> wf_group g ->
  (validate (group_rule c g0) p (js_group g) path = []
   <-> group_rel (leaf_ok c) g0 g).
Proof.
  destruct g0 as [f0|m0], g as [f|m]; simpl group_rel; intros Hrel Hwf;
    try contradiction.
  - apply validate_leaf_iff.
  - unfold group_rule, js_group. rewrite validate_object_obj.
    cbn [flat_map fst snd lookup assoc String.eqb Ascii.eqb Bool.eqb or_undefined].
    rewrite app_nil_r.
    apply (validate_map_rel _ _ (fun _ _ => True)); auto.
    intros k a b _ _. apply validate_leaf_iff.
Qed.

Lemma validate_sub_iff c (sub0 sub : SubInvoice) p path :
  map_rel (group_rel (fun _ _ => True)) sub0 sub -> wf_sub sub ->
  (validate (sub_rule c sub0) p (js_sub sub) path = []
   <-> map_rel (group_rel (leaf_ok c)) sub0 sub).
Proof.
  intros Hrel [ND Hwf]. unfold sub_rule, js_sub. rewrite validate_object_obj.
  cbn [flat_map fst snd lookup assoc String.eqb Ascii.eqb Bool.eqb or_undefined].
  rewrite app_nil_r.
  apply (validate_map_rel _ _ (group_rel (fun _ _ => True))); auto.
  intros k a b HIn HR. apply validate_group_iff; auto.
  rewrite Forall_forall in Hwf. exact (Hwf _ HIn).
Qed.

Lemma validate_tree_iff c (t0 t : FeesPerInvoice) p path :
  same_shape t0 t -> wf_tree t ->
  (validate (tree_rule c t0) p (js_fees t) path = []
   <-> tree_rel (leaf_ok c) t0 t).
Proof.
  intros Hrel [ND Hwf]. unfold tree_rule, js_fees, tree_rel.
  apply (validate_map_rel _ _ (map_rel (group_rel (fun _ _ => True)))); auto.
  intros k a b HIn HR. apply validate_sub_iff; auto.
  rewrite Forall_forall in Hwf. exact (Hwf _ HIn).
Qed.

(** Related trees, read leaf by leaf. *)
Lemma Forall2_app_split {X : Type} (P : X -> X -> Prop) (a1 a2 b1 b2 : list X) :
  List.length a1 = List.length b1 ->
  Forall2 P (a1 ++ a2) (b1 ++ b2) -> Forall2 P a1 b1 /\ Forall2 P a2 b2.
Proof.
  revert b1. induction a1 as [|x a1 IH]; intros [|y b1] Hlen H; simpl in *;
    try discriminate.
  - split; [constructor|exact H].
  - inversion H; subst. destruct (IH b1) as [H1 H2]; auto.
Qed.

Lemma map_rel_flat_map {V X : Type} (G : V -> list X) (R0 Q : V -> V -> Prop)
      (P : X -> X -> Prop) (m0 m : list (string * V)) :
  (forall a b, R0 a b ->
     List.length (G a) = List.length (G b) /\ (Q a b <-> Forall2 P (G a) (G b))) ->
  map_rel R0 m0 m ->
  List.length (flat_map (fun kv => G (snd kv)) m0)
  = List.length (flat_map (fun kv => G (snd kv)) m)
  /\ (map_rel Q m0 m
      <-> Forall2 P (flat_map (fun kv => G (snd kv)) m0)
                    (flat_map (fun kv => G (snd kv)) m)).
Proof.
  intros HG Hrel. induction Hrel as [|[k0 a] [k b] l0 l [Hk HR] Hrel [IHlen IH]];
    simpl in *.
  - split; [reflexivity|]. split; constructor.
  - destruct (HG a b HR) as [Hlen HQ]. split.
    + rewrite !length_app. congruence.
    + split; intros H.
      * inversion H as [|? ? ? ? [_ Hq] Htl]; subst.
        apply Forall2_app; [now apply HQ|now apply IH].
      * apply Forall2_app_split in H as [H1 H2]; [|exact Hlen].
        constructor; [split; [exact Hk|now apply HQ]|now apply IH].
Qed.

Lemma group_rel_leaves (P : FromFee -> FromFee -> Prop) (g0 g : FeeGroup) :
  group_rel (fun _ _ => True) g0 g ->
  List.length (group_leaves g0) = List.length (group_leaves g)
  /\ (group_rel P g0 g <-> Forall2 P (group_leaves g0) (group_leaves g)).
Proof.
  destruct g0 as [f0|m0], g as [f|m]; simpl; intros Hrel; try contradiction.
  - split; [reflexivity|]. split; intros H.
    + now constructor.
    + now inversion H.
  - rewrite <- !(flat_map_single snd).
    apply (map_rel_flat_map (fun fee => [fee]) (fun _ _ => True)); auto.
    intros a b _. split; [reflexivity|]. split; intros H.
    + now constructor.
    + now inversion H.
Qed.

Lemma tree_rel_leaves (P : FromFee -> FromFee -> Prop) (t0 t : FeesPerInvoice) :
  same_shape t0 t ->
  (tree_rel P t0 t <-> Forall2 P (tree_leaves t0) (tree_leaves t)).
Proof.
  intros Hrel. unfold tree_rel, tree_leaves.
  apply (map_rel_flat_map sub_leaves (map_rel (group_rel (fun _ _ => True))));
    [|exact Hrel].
  intros sub0 sub Hsub. unfold sub_leaves.
  apply (map_rel_flat_map group_leaves (group_rel (fun _ _ => True)));
    [|exact Hsub].
  intros g0 g Hg. now apply group_rel_leaves.
Qed.

(* ================================================================== *)
(** * The shape of every generated schema *)

Lemma bind_ok {A B : Type} (r : result A) (k : A -> result B) (b : B) :
  bind r k = Ok b -> exists a, r = Ok a /\ k a = Ok b.
Proof. destruct r as [a|]; simpl; [eauto|discriminate]. Qed.

Lemma reduce_inv {A : Type} (P : A -> Prop) (f : A -> string -> result A) keys :
  (forall acc k acc', P acc -> f acc k = Ok acc' -> P acc') ->
  forall acc r, P acc -> reduce f keys acc = Ok r -> P r.
Proof.
  intros Hf. induction keys as [|k keys IH]; simpl; intros acc r HP H.
  - now inversion H; subst.
  - apply bind_ok in H as [acc' [H1 H2]]. eauto.
Qed.

Lemma Forall_obj_set {V : Type} (P : V -> Prop) (acc : list (string * V)) k v :
  Forall (fun field => P (snd field)) acc -> P v ->
  Forall (fun field => P (snd field)) (obj_set acc k v).
Proof.
  intros Hacc Hv. induction Hacc as [|[k' v'] acc Hhd Htl IH]; simpl.
  - constructor; [exact Hv|constructor].
  - destruct (String.eqb k' k); constructor; auto.
Qed.

Lemma groupedShape_shape init c subKey feeGroupKey grouped inner :
  groupedShape init c subKey feeGroupKey grouped = Ok inner ->
  Forall (fun field => is_leaf_rule (snd field)) inner.
Proof.
  unfold groupedShape. intros H. apply bind_ok in H as [keys [_ H]].
  revert H. apply reduce_inv; [|constructor].
  intros acc k acc' Hacc Hstep. inversion Hstep; subst.
  apply Forall_obj_set; [exact Hacc|]. unfold is_leaf_rule. eauto.
Qed.

Lemma feeGroupStep_shape init subChilds c subKey acc k acc' :
  Forall (fun field => is_group_rule (snd field)) acc ->
  feeGroupStep init subChilds c subKey acc k = Ok acc' ->
  Forall (fun field => is_group_rule (snd field)) acc'.
Proof.
  unfold feeGroupStep. intros Hacc H.
  apply bind_ok in H as [child [_ H]]. apply bind_ok in H as [chk [_ H]].
  destruct (typeof_boolean chk).
  - inversion H; subst. apply Forall_obj_set; [exact Hacc|].
    left. unfold is_leaf_rule. eauto.
  - apply bind_ok in H as [inner [Hinner H]]. inversion H; subst.
    apply Forall_obj_set; [exact Hacc|]. right. exists inner. split; [reflexivity|].
    exact (groupedShape_shape _ _ _ _ _ _ Hinner).
Qed.

Lemma subSchemaStep_shape init c acc k acc' :
  Forall (fun field => is_sub_rule (snd field)) acc ->
  subSchemaStep init c acc k = Ok acc' ->
  Forall (fun field => is_sub_rule (snd field)) acc'.
Proof.
  unfold subSchemaStep. intros Hacc H.
  apply bind_ok in H as [subChild [_ H]]. apply bind_ok in H as [keys [_ H]].
  apply bind_ok in H as [inner [Hinner H]]. inversion H; subst.
  apply Forall_obj_set; [exact Hacc|]. exists inner. split; [reflexivity|].
  revert Hinner. apply reduce_inv; [|constructor].
  intros a k' a' Ha Hstep. exact (feeGroupStep_shape _ _ _ _ _ _ _ Ha Hstep).
Qed.

Lemma generateFeesSchema_shape init c s :
  generateFeesSchema init c = Ok s -> is_fees_schema s.
Proof.
  unfold generateFeesSchema. intros H.
  apply bind_ok in H as [keys [_ H]]. apply bind_ok in H as [shape [Hshape H]].
  inversion H; subst. exists shape. split; [reflexivity|].
  revert Hshape. apply reduce_inv; [|constructor].
  intros a k a' Ha Hstep. exact (subSchemaStep_shape _ _ _ _ _ Ha Hstep).
Qed.

(* ================================================================== *)
(** * What validation reads from a candidate *)

Lemma lookup_opt_js {A : Type} (J : A -> JsValue) k (m : list (string * A)) :
  lookup (JsObj (map_values J m)) k = opt_js J (assoc k m).
Proof. simpl. rewrite assoc_map_values. now destruct (assoc k m). Qed.

Lemma assoc_map_rel {A : Type} (R : A -> A -> Prop) k (m1 m2 : list (string * A)) :
  map_rel R m1 m2 -> opt_rel R (assoc k m1) (assoc k m2).
Proof.
  intros H. induction H as [|[k1 a] [k2 b] l1 l2 [Hk HR] _ IH]; simpl in *.
  - exact I.
  - subst k2. destruct (String.eqb k1 k); [exact HR|exact IH].
Qed.

Lemma map_rel_impl {A : Type} (R R' : A -> A -> Prop) (m1 m2 : list (string * A)) :
  (forall a b, R a b -> R' a b) -> map_rel R m1 m2 -> map_rel R' m1 m2.
Proof.
  intros HR H. induction H as [|x y l1 l2 [Hk Hxy] _ IH]; constructor; auto.
Qed.

Lemma tree_rel_impl (R R' : FromFee -> FromFee -> Prop) (t1 t2 : FeesPerInvoice) :
  (forall a b, R a b -> R' a b) -> tree_rel R t1 t2 -> tree_rel R' t1 t2.
Proof.
  intros HR. unfold tree_rel. apply map_rel_impl. intros s1 s2.
  apply map_rel_impl. intros [f1|m1] [f2|m2]; simpl; auto.
  now apply map_rel_impl.
Qed.

Lemma validate_leaf_indist mx c (f1 f2 : FromFee) p1 p2 path :
  same_checked_values f1 f2 ->
  validate (simpleFeeSchema mx c) p1 (js_fee f1) path
  = validate (simpleFeeSchema mx c) p2 (js_fee f2) path.
Proof.
  intros [Hc Hv]. unfold simpleFeeSchema, js_fee. rewrite !validate_object_obj.
  cbn [flat_map snd fst lookup assoc String.eqb Ascii.eqb Bool.eqb
       or_undefined validate optProp nullish truthy app].
  rewrite <- Hc. destruct (checked f1).
  - now rewrite (Hv eq_refl).
  - reflexivity.
Qed.

(** Validating two encoded maps with related entries against the same
    rules. *)
Lemma validate_map_indist {A : Type} (J : A -> JsValue) (R : A -> A -> Prop)
      (rule : Schema -> Prop) shape (m1 m2 : list (string * A)) p1 p2 path :
  Forall (fun field => rule (snd field)) shape ->
  map_rel R m1 m2 ->
  (forall s a b q1 q2 pth, rule s -> R a b ->
     validate s q1 (J a) pth = validate s q2 (J b) pth) ->
  (forall s q1 q2 pth, rule s ->
     validate s q1 JsUndefined pth = validate s q2 JsUndefined pth) ->
  validate (object shape) p1 (JsObj (map_values J m1)) path
  = validate (object shape) p2 (JsObj (map_values J m2)) path.
Proof.
  intros Hshape Hrel Hsome Hnone. rewrite !validate_object_obj.
  induction Hshape as [|[k s] shape Hs _ IH]; cbn [flat_map fst snd];
    [reflexivity|].
  rewrite IH. f_equal. rewrite !lookup_opt_js.
  pose proof (assoc_map_rel R k m1 m2 Hrel) as Hk.
  destruct (assoc k m1) as [a|], (assoc k m2) as [b|]; simpl in *;
    try contradiction; auto.
Qed.

Lemma is_leaf_rule_undefined s q1 q2 pth :
  is_leaf_rule s -> validate s q1 JsUndefined pth = validate s q2 JsUndefined pth.
Proof. intros [mx [c ->]]. reflexivity. Qed.

Lemma is_group_rule_undefined s q1 q2 pth :
  is_group_rule s -> validate s q1 JsUndefined pth = validate s q2 JsUndefined pth.
Proof.
  intros [H|[inner [-> _]]]; [now apply is_leaf_rule_undefined|reflexivity].
Qed.

Lemma is_sub_rule_undefined s q1 q2 pth :
  is_sub_rule s -> validate s q1 JsUndefined pth = validate s q2 JsUndefined pth.
Proof. intros [inner [-> _]]. reflexivity. Qed.

Lemma validate_group_indist s (g1 g2 : FeeGroup) q1 q2 pth :
  is_group_rule s -> group_rel same_checked_values g1 g2 ->
  validate s q1 (js_group g1) pth = validate s q2 (js_group g2) pth.
Proof.
  intros Hs Hg.
  destruct g1 as [f1|m1], g2 as [f2|m2]; simpl in Hg; try contradiction.
  - destruct Hs as [[mx [c ->]]|[inner [-> _]]].
    + now apply validate_leaf_indist.
    + reflexivity.
  - destruct Hs as [[mx [c ->]]|[inner [-> Hinner]]].
    + reflexivity.
    + unfold js_group. rewrite !validate_object_obj.
      cbn [flat_map fst snd lookup assoc String.eqb Ascii.eqb Bool.eqb or_undefined].
      f_equal.
      apply (validate_map_indist js_fee same_checked_values is_leaf_rule); auto.
      * intros s a b p1 p2 path [mx [c ->]] Hab. now apply validate_leaf_indist.
      * intros s p1 p2 path Hs. now apply is_leaf_rule_undefined.
Qed.

Lemma validate_sub_indist s (sub1 sub2 : SubInvoice) q1 q2 pth :
  is_sub_rule s -> map_rel (group_rel same_checked_values) sub1 sub2 ->
  validate s q1 (js_sub sub1) pth = validate s q2 (js_sub sub2) pth.
Proof.
  intros [inner [-> Hinner]] Hrel. unfold js_sub. rewrite !validate_object_obj.
  cbn [flat_map fst snd lookup assoc String.eqb Ascii.eqb Bool.eqb or_undefined].
  f_equal.
  apply (validate_map_indist js_group (group_rel same_checked_values) is_group_rule);
    auto.
  - intros s a b p1 p2 path Hs Hab. now apply validate_group_indist.
  - intros s p1 p2 path Hs. now apply is_group_rule_undefined.
Qed.

(** Validation cannot tell apart two candidates whose leaves agree on
    [checked] and, where checked, on [value]. *)
Lemma validate_indist s (t1 t2 : FeesPerInvoice) p1 p2 path :
  is_fees_schema s -> tree_rel same_checked_values t1 t2 ->
  validate s p1 (js_fees t1) path = validate s p2 (js_fees t2) path.
Proof.
  intros [shape [-> Hshape]] Hrel. unfold js_fees.
  apply (validate_map_indist js_sub (map_rel (group_rel same_checked_values))
                             is_sub_rule); auto.
  - intros s a b q1 q2 pth Hs Hab. now apply validate_sub_indist.
  - intros s q1 q2 pth Hs. now apply is_sub_rule_undefined.
Qed.

(* ================================================================== *)
(** * Properties of the serializer *)

Ltac wf_tac :=
  repeat (simpl;
          match goal with
          | H : false = true |- _ => discriminate H
          | |- _ /\ _ => split
          | |- NoDup _ => constructor
          | |- Forall _ _ => constructor
          | |- Forall2 _ _ _ => constructor
          | |- map_rel _ _ _ => unfold map_rel
          | |- ~ _ => intuition discriminate
          | |- True => exact I
          | |- _ = _ => reflexivity
          | |- _ -> _ => intro
          end).

Lemma sample_tree_wf : wf_tree sample_tree.
Proof. unfold wf_tree, wf_sub, wf_group, distinct_keys. wf_tac. Defined.

Lemma sample_form_wf : wf_form sample_form.
Proof. exact sample_tree_wf. Defined.

(** The two serializer examples of the specification, 2-decimal currency. *)
Example bare_leaf_example :
  feeItems (js_fees [ ("invA", [ ("g1", Leaf {| id := "f1"; checked := true;
                                                value := 10; maxAmount := 5000 |}) ]) ])
           usd
  = Ok [ {| feeId := JsStr "f1"; amountCents := JsNum 1000 |} ].
Proof. reflexivity. Qed.

Example grouped_leaf_example :
  feeItems (js_fees [ ("invA", [ ("g1", Grouped [ ("s1", {| id := "f2"; checked := true;
                                                            value := 2;
                                                            maxAmount := 1000 |}) ]) ]) ])
           usd
  = Ok [ {| feeId := JsStr "f2"; amountCents := JsNum 200 |} ].
Proof. reflexivity. Qed.

(** C1: on every fee tree the serializer's [items] are, after the optional
    add-on item, exactly the items of the leaves whose [checked] is true,
    each with the leaf's [id] as [feeId], in walk order (sub-invoice group,
    fee-group, sub-group); an unchecked leaf contributes nothing. *)
Theorem items_are_checked_leaves inv (form : CreditNoteForm.t) c :
  wf_form form ->
  exists out,
    serializeCreditNoteInput inv (js_form form) c = Ok out /\
    items out
    = (if truthy (optProp (CreditNoteForm.addOnFee form) "value")
       then [addOn_item (CreditNoteForm.addOnFee form) c] else [])
      ++ map (fun fee => {| feeId := JsStr (id fee);
                            amountCents := serializeAmount (JsNum (value fee)) c |})
             (filter checked (form_leaves form)).
Proof.
  intros Hwf. eexists. split.
  - now apply serializeCreditNoteInput_typed.
  - reflexivity.
Qed.

Lemma items_are_checked_leaves_witness :
  wf_form sample_form /\
  exists out,
    serializeCreditNoteInput (JsStr "inv-1") (js_form sample_form) usd = Ok out /\
    items out
    = (if truthy (optProp (CreditNoteForm.addOnFee sample_form) "value")
       then [addOn_item (CreditNoteForm.addOnFee sample_form) usd] else [])
      ++ map (fun fee => {| feeId := JsStr (id fee);
                            amountCents := serializeAmount (JsNum (value fee)) usd |})
             (filter checked (form_leaves sample_form)).
Proof.
  split; [exact sample_form_wf|].
  apply (items_are_checked_leaves (JsStr "inv-1") sample_form usd).
  exact sample_form_wf.
Defined.




(** C7: without an add-on fee, or with one whose [value] is falsy (0
    included), [items] are exactly the items of the tree walk; with an
    add-on fee whose [value] is truthy, [items] start with the one item
    {feeId: addOnFee.id, amountCents: convert(addOnFee.value)} and go on
    with the items of the tree walk, in their order. *)
Theorem addOn_item_first inv (form : CreditNoteForm.t) c :
  wf_form form ->
  let addOnFee := CreditNoteForm.addOnFee form in
  let walk := map (fee_item c) (filter checked (form_leaves form)) in
  exists out,
    serializeCreditNoteInput inv (js_form form) c = Ok out /\
    (nullish addOnFee = true \/ truthy (lookup addOnFee "value") = false ->
     items out = walk) /\
    (nullish addOnFee = false -> truthy (lookup addOnFee "value") = true ->
     items out = {| feeId := lookup addOnFee "id";
                    amountCents := serializeAmount (lookup addOnFee "value") c |}
                 :: walk).
Proof.
  intros Hwf addOnFee walk. eexists. split.
  - now apply serializeCreditNoteInput_typed.
  - cbn [items]. fold addOnFee. unfold optProp. split.
    + intros [H|H].
      * now rewrite H.
      * destruct (nullish addOnFee); [reflexivity|now rewrite H].
    + intros H1 H2. now rewrite H1, H2.
Qed.

Lemma addOn_item_first_witness :
  wf_form sample_form /\
  let addOnFee := CreditNoteForm.addOnFee sample_form in
  let walk := map (fee_item usd) (filter checked (form_leaves sample_form)) in
  exists out,
    serializeCreditNoteInput (JsStr "inv-1") (js_form sample_form) usd = Ok out /\
    (nullish addOnFee = true \/ truthy (lookup addOnFee "value") = false ->
     items out = walk) /\
    (nullish addOnFee = false -> truthy (lookup addOnFee "value") = true ->
     items out = {| feeId := lookup addOnFee "id";
                    amountCents := serializeAmount (lookup addOnFee "value") usd |}
                 :: walk).
Proof.
  split; [exact sample_form_wf|].
  apply (addOn_item_first (JsStr "inv-1") sample_form usd). exact sample_form_wf.
Defined.

(** C9: a checked leaf, bare or grouped, is emitted even when its value is
    0, as the item {feeId: leaf.id, amountCents: 0}: the number of items
    after the add-on item is the number of checked leaves whatever their
    values, while an add-on fee of value 0 yields no item. *)
Theorem zero_valued_checked_leaf_emitted inv (form : CreditNoteForm.t) c :
  wf_form form ->
  exists out,
    serializeCreditNoteInput inv (js_form form) c = Ok out /\
    (forall fee, In fee (form_leaves form) -> checked fee = true ->
                 value fee == 0 ->
                 In {| feeId := JsStr (id fee); amountCents := JsNum 0 |} (items out)) /\
    List.length (items out)
    = ((if truthy (optProp (CreditNoteForm.addOnFee form) "value") then 1 else 0)
       + List.length (filter checked (form_leaves form)))%nat /\
    (forall q, optProp (CreditNoteForm.addOnFee form) "value" = JsNum q -> q == 0 ->
               items out = map (fee_item c) (filter checked (form_leaves form))).
Proof.
  intros Hwf. eexists. split; [now apply serializeCreditNoteInput_typed|].
  cbn [items]. split; [|split].
  - intros fee HIn Hc Hv. apply in_or_app. right. unfold checked_items.
    replace {| feeId := JsStr (id fee); amountCents := JsNum 0 |}
      with (fee_item c fee).
    + apply in_map. apply filter_In. now split.
    + unfold fee_item. f_equal.
      rewrite (serializeAmount_Qeq c _ 0 Hv). apply serializeAmount_zero.
  - rewrite length_app. unfold checked_items. rewrite length_map.
    now destruct (truthy _).
  - intros q Hq Hz. rewrite Hq. cbn [truthy].
    apply Qeq_bool_iff in Hz. now rewrite Hz.
Qed.

Lemma zero_valued_checked_leaf_emitted_witness :
  wf_form sample_form /\
  exists out,
    serializeCreditNoteInput (JsStr "inv-1") (js_form sample_form) usd = Ok out /\
    (forall fee, In fee (form_leaves sample_form) -> checked fee = true ->
                 value fee == 0 ->
                 In {| feeId := JsStr (id fee); amountCents := JsNum 0 |} (items out)) /\
    List.length (items out)
    = ((if truthy (optProp (CreditNoteForm.addOnFee sample_form) "value")
        then 1 else 0)
       + List.length (filter checked (form_leaves sample_form)))%nat /\
    (forall q, optProp (CreditNoteForm.addOnFee sample_form) "value" = JsNum q ->
               q == 0 ->
               items out = map (fee_item usd) (filter checked (form_leaves sample_form))).
Proof.
  split; [exact sample_form_wf|].
  apply (zero_valued_checked_leaf_emitted (JsStr "inv-1") sample_form usd).
  exact sample_form_wf.
Defined.

(** C4: every emitted item, the add-on item as well as the item of a
    checked leaf, carries amountCents = round(value * 10^precision(currency)),
    the precision being 2 or 3, which is what [serializeAmount] gives on a
    number.  With a truthy add-on value the items are the add-on item, its
    amount converted from that value, followed by the leaves' items; for an
    add-on value that is a number other than 0 this amount is the rounded
    product; without a truthy add-on value the items are the leaves' items.
    Converting an emitted amount to major units and back gives it again,
    and a value with no more decimals than the precision is recovered from
    its amount. *)
Theorem amountCents_round_trip inv (form : CreditNoteForm.t) c :
  wf_form form ->
  let p := getCurrencyPrecision c in
  let round (q : Q) :=
    JsNum (inject_Z (Qfloor (q * inject_Z (10 ^ Z.of_nat p) + (1 # 2)))) in
  let addOnFee := CreditNoteForm.addOnFee form in
  let leaf_items :=
    map (fun fee => {| feeId := JsStr (id fee); amountCents := round (value fee) |})
        (filter checked (form_leaves form)) in
  exists out,
    serializeCreditNoteInput inv (js_form form) c = Ok out /\
    (p = 2 \/ p = 3)%nat /\
    (forall q, serializeAmount (JsNum q) c = round q) /\
    (truthy (optProp addOnFee "value") = true ->
       items out
       = {| feeId := lookup addOnFee "id";
            amountCents := serializeAmount (lookup addOnFee "value") c |} :: leaf_items) /\
    (forall q, lookup addOnFee "value" = JsNum q -> ~ q == 0 ->
       items out
       = {| feeId := lookup addOnFee "id"; amountCents := round q |} :: leaf_items) /\
    (truthy (optProp addOnFee "value") = false -> items out = leaf_items) /\
    Forall (fun item =>
              serializeAmount (deserializeAmount (amountCents item) c) c
              = amountCents item)
           (items out) /\
    (forall q z,
       q * inject_Z (10 ^ Z.of_nat p) == inject_Z z ->
       serializeAmount (JsNum q) c = JsNum (inject_Z z) /\
       exists q', deserializeAmount (serializeAmount (JsNum q) c) c = JsNum q'
                  /\ q' == q).
Proof.
  intros Hwf p round addOnFee leaf_items. eexists.
  split; [now apply serializeCreditNoteInput_typed|].
  cbn [items]. split; [apply precision_2_or_3|].
  assert (Hleaves : checked_items c (form_leaves form) = leaf_items) by reflexivity.
  split; [reflexivity|]. split; [|split; [|split; [|split]]].
  - intros Ht. fold addOnFee. now rewrite Ht, Hleaves.
  - intros q Hq Hz. fold addOnFee. rewrite Hleaves.
    assert (Hnn : nullish addOnFee = false).
    { destruct addOnFee; try reflexivity; discriminate Hq. }
    unfold optProp. rewrite Hnn, Hq. cbn [truthy].
    destruct (Qeq_bool q 0) eqn:E; [apply Qeq_bool_eq in E; contradiction|].
    cbn [negb app]. unfold addOn_item. now rewrite Hq.
  - intros Hf. fold addOnFee. now rewrite Hf, Hleaves.
  - apply Forall_app. split.
    + destruct (truthy _); constructor; [|constructor].
      apply serialize_deserialize_serialize.
    + unfold checked_items. apply Forall_map, Forall_forall. intros fee _.
      apply serialize_deserialize_serialize.
  - intros q z Hz. split.
    + unfold serializeAmount. f_equal. now apply Math_round_integer.
    + exact (deserialize_serialize_exact c q z Hz).
Qed.

Lemma amountCents_round_trip_witness :
  wf_form sample_form /\
  let p := getCurrencyPrecision usd in
  let round (q : Q) :=
    JsNum (inject_Z (Qfloor (q * inject_Z (10 ^ Z.of_nat p) + (1 # 2)))) in
  let addOnFee := CreditNoteForm.addOnFee sample_form in
  let leaf_items :=
    map (fun fee => {| feeId := JsStr (id fee); amountCents := round (value fee) |})
        (filter checked (form_leaves sample_form)) in
  exists out,
    serializeCreditNoteInput (JsStr "inv-1") (js_form sample_form) usd = Ok out /\
    (p = 2 \/ p = 3)%nat /\
    (forall q, serializeAmount (JsNum q) usd = round q) /\
    (truthy (optProp addOnFee "value") = true ->
       items out
       = {| feeId := lookup addOnFee "id";
            amountCents := serializeAmount (lookup addOnFee "value") usd |} :: leaf_items) /\
    (forall q, lookup addOnFee "value" = JsNum q -> ~ q == 0 ->
       items out
       = {| feeId := lookup addOnFee "id"; amountCents := round q |} :: leaf_items) /\
    (truthy (optProp addOnFee "value") = false -> items out = leaf_items) /\
    Forall (fun item =>
              serializeAmount (deserializeAmount (amountCents item) usd) usd
              = amountCents item)
           (items out) /\
    (forall q z,
       q * inject_Z (10 ^ Z.of_nat p) == inject_Z z ->
       serializeAmount (JsNum q) usd = JsNum (inject_Z z) /\
       exists q', deserializeAmount (serializeAmount (JsNum q) usd) usd = JsNum q'
                  /\ q' == q).
Proof.
  split; [exact sample_form_wf|].
  apply (amountCents_round_trip (JsStr "inv-1") sample_form usd).
  exact sample_form_wf.
Defined.

(* ================================================================== *)
(** * Properties of the validation schema *)

Lemma isValid_true_iff s v :
  isValid s v = true <-> validate s JsUndefined v [] = [].
Proof.
  unfold isValid. destruct (validate s JsUndefined v []); split; intros H;
    try reflexivity; discriminate.
Qed.

Lemma map_rel_keys {A : Type} (R : A -> A -> Prop) (m1 m2 : list (string * A)) :
  map_rel R m1 m2 -> map fst m1 = map fst m2.
Proof.
  intros H. induction H as [|x y l1 l2 [Hk _] _ IH]; simpl; [reflexivity|].
  now rewrite Hk, IH.
Qed.

Lemma map_rel_Forall {A : Type} (R : A -> A -> Prop) (P : A -> Prop)
      (m1 m2 : list (string * A)) :
  (forall a b, R a b -> P a -> P b) ->
  map_rel R m1 m2 ->
  Forall (fun kv => P (snd kv)) m1 -> Forall (fun kv => P (snd kv)) m2.
Proof.
  intros HP H. induction H as [|x y l1 l2 [_ Hxy] _ IH]; intros HF;
    inversion HF; subst; constructor; eauto.
Qed.

Lemma distinct_keys_rel {A : Type} (R : A -> A -> Prop) (m1 m2 : list (string * A)) :
  map_rel R m1 m2 -> distinct_keys m1 -> distinct_keys m2.
Proof.
  intros H ND. unfold distinct_keys in *. now rewrite <- (map_rel_keys R m1 m2 H).
Qed.

Lemma wf_group_rel (R : FromFee -> FromFee -> Prop) (g1 g2 : FeeGroup) :
  group_rel R g1 g2 -> wf_group g1 -> wf_group g2.
Proof.
  destruct g1 as [f1|m1], g2 as [f2|m2]; simpl; auto; try contradiction.
  apply distinct_keys_rel.
Qed.

Lemma wf_sub_rel (R : FromFee -> FromFee -> Prop) (s1 s2 : SubInvoice) :
  map_rel (group_rel R) s1 s2 -> wf_sub s1 -> wf_sub s2.
Proof.
  intros Hs [NDs Hgs]. split.
  - exact (distinct_keys_rel _ _ _ Hs NDs).
  - revert Hgs. apply (map_rel_Forall (group_rel R) wf_group); [|exact Hs].
    apply wf_group_rel.
Qed.

Lemma wf_tree_rel (R : FromFee -> FromFee -> Prop) (t1 t2 : FeesPerInvoice) :
  tree_rel R t1 t2 -> wf_tree t1 -> wf_tree t2.
Proof.
  intros Hrel [ND Hsubs]. split.
  - exact (distinct_keys_rel _ _ _ Hrel ND).
  - revert Hsubs.
    apply (map_rel_Forall (map_rel (group_rel R)) wf_sub); [|exact Hrel].
    apply wf_sub_rel.
Qed.

Lemma sample_tree_plain : plain_tree sample_tree.
Proof. unfold plain_tree, plain_sub, plain_group, plain_keys. wf_tac. Defined.

(** ** Candidates whose values are any number *)

Lemma map_rel2_keys {A B : Type} (R : A -> B -> Prop)
      (m1 : list (string * A)) (m2 : list (string * B)) :
  map_rel2 R m1 m2 -> map fst m1 = map fst m2.
Proof.
  intros H. induction H as [|x y l1 l2 [Hk _] _ IH]; simpl; [reflexivity|].
  now rewrite Hk, IH.
Qed.

Lemma validate_candidate_leaf_iff c (initial : FromFee) (candidate : Candidate.Fee) p path :
  validate (leaf_rule c initial) p (js_candidate_fee candidate) path = []
  <-> candidate_leaf_ok c initial candidate.
Proof.
  unfold leaf_rule, simpleFeeSchema, candidate_leaf_ok, js_candidate_fee.
  rewrite validate_object_obj.
  cbn [flat_map snd fst lookup assoc String.eqb Ascii.eqb Bool.eqb
       or_undefined validate optProp nullish truthy app].
  destruct (Candidate.value candidate) as [q|]; cbn [js_number].
  - destruct (Candidate.checked candidate).
    + cbn [validate deserializeAmount at_path flat_map run_test nullish orb js_le
           app map].
      destruct (Qle_bool (1 # 10000000000000000) q) eqn:E1;
        destruct (Qle_bool q (maxAmount initial / pow10 (getCurrencyPrecision c))) eqn:E2;
        cbn [app map]; split; intros H; try discriminate; try reflexivity.
      * exists q. split; [reflexivity|]. intros _. split; now apply Qle_bool_iff.
      * destruct H as [q' [Hq H]]. inversion Hq; subst q'.
        destruct (H eq_refl) as [_ H2]. apply Qle_bool_iff in H2. congruence.
      * destruct H as [q' [Hq H]]. inversion Hq; subst q'.
        destruct (H eq_refl) as [H1 _]. apply Qle_bool_iff in H1. congruence.
      * destruct H as [q' [Hq H]]. inversion Hq; subst q'.
        destruct (H eq_refl) as [H1 _]. apply Qle_bool_iff in H1. congruence.
    + cbn [validate at_path flat_map map app]. split; [|reflexivity].
      intros _. exists q. split; [reflexivity|discriminate].
  - split.
    + destruct (Candidate.checked candidate); cbn [validate app]; discriminate.
    + intros [q [Hq _]]. discriminate Hq.
Qed.

(** A value that is not a number fails the type check of the rule,
    whether the leaf is checked or not. *)
Lemma validate_candidate_NaN mx c (candidate : Candidate.Fee) p path :
  Candidate.value candidate = NotANumber ->
  validate (simpleFeeSchema mx c) p (js_candidate_fee candidate) path
  = [(path ++ ["value"], NotType)].
Proof.
  intros Hv. unfold simpleFeeSchema, js_candidate_fee. rewrite validate_object_obj.
  cbn [flat_map snd fst lookup assoc String.eqb Ascii.eqb Bool.eqb
       or_undefined validate optProp nullish truthy app].
  rewrite Hv. cbn [js_number].
  destruct (Candidate.checked candidate); reflexivity.
Qed.

Lemma validate_candidate_unchecked mx c (candidate : Candidate.Fee) p path :
  Candidate.checked candidate = false ->
  (validate (simpleFeeSchema mx c) p (js_candidate_fee candidate) path = []
   <-> Candidate.value candidate <> NotANumber).
Proof.
  intros Hc. destruct (Candidate.value candidate) as [q|] eqn:Hv.
  - split; [discriminate|]. intros _.
    unfold simpleFeeSchema, js_candidate_fee. rewrite validate_object_obj.
    cbn [flat_map snd fst lookup assoc String.eqb Ascii.eqb Bool.eqb
         or_undefined validate optProp nullish truthy app].
    now rewrite Hc, Hv.
  - rewrite (validate_candidate_NaN mx c candidate p path Hv).
    split; [discriminate|]. intros H. now contradiction H.
Qed.

(** Validating an encoded candidate map against the rules of an initial map
    with the same keys amounts to validating the entries pairwise. *)
Lemma validate_map_rel2 {A B : Type} (S : A -> Schema) (J : B -> JsValue)
      (R P : A -> B -> Prop) (m0 : list (string * A)) (m : list (string * B)) p path :
  map_rel2 R m0 m -> distinct_keys m0 ->
  (forall k a b, In (k, a) m0 -> R a b ->
     (validate (S a) (JsObj (map_values J m)) (J b) (path ++ [k]) = [] <-> P a b)) ->
  (validate (object (map_values S m0)) p (JsObj (map_values J m)) path = []
   <-> map_rel2 P m0 m).
Proof.
  intros Hrel ND0 Hleaf. rewrite validate_object_obj, flat_map_nil_iff.
  assert (ND : NoDup (map fst m)).
  { rewrite <- (map_rel2_keys R m0 m Hrel). exact ND0. }
  enough (G : forall l0 l, map_rel2 R l0 l -> incl l0 m0 -> incl l m ->
            (Forall (fun field =>
                       validate (snd field) (JsObj (map_values J m))
                                (lookup (JsObj (map_values J m)) (fst field))
                                (path ++ [fst field]) = [])
                    (map_values S l0)
             <-> map_rel2 P l0 l))
    by (apply G; [assumption|apply incl_refl|apply incl_refl]).
  clear Hrel. intros l0 l Hrel.
  induction Hrel as [|[k0 a] [k b] l0 l [Hk HR] Hrel IH];
    intros Hincl0 Hincl; simpl in *.
  - split; constructor.
  - subst k0.
    assert (HIn0 : In (k, a) m0) by (apply Hincl0; now left).
    assert (HIn : In (k, b) m) by (apply Hincl; now left).
    assert (IH' := IH (fun x Hx => Hincl0 x (or_intror Hx))
                      (fun x Hx => Hincl x (or_intror Hx))).
    split; intros H.
    + inversion H as [|? ? Hhd Htl]; subst. simpl in Hhd.
      rewrite assoc_map_values, (assoc_In k b m ND HIn) in Hhd. simpl in Hhd.
      constructor.
      * split; [reflexivity|]. now apply (Hleaf k a b HIn0 HR).
      * now apply IH'.
    + inversion H as [|? ? ? ? [_ HP] Htl]; subst. constructor.
      * simpl. rewrite assoc_map_values, (assoc_In k b m ND HIn). simpl.
        now apply (Hleaf k a b HIn0 HR).
      * now apply IH'.
Qed.

Lemma validate_candidate_group_iff c (g0 : FeeGroup) (g : Candidate.Group) p path :
  candidate_group_rel (fun _ _ => True) g0 g -> wf_group g0 ->
  (validate (group_rule c g0) p (js_candidate_group g) path = []
   <-> candidate_group_rel (candidate_leaf_ok c) g0 g).
Proof.
  destruct g0 as [f0|m0], g as [f|m]; simpl candidate_group_rel; intros Hrel Hwf;
    try contradiction.
  - apply validate_candidate_leaf_iff.
  - unfold group_rule, js_candidate_group. rewrite validate_object_obj.
    cbn [flat_map fst snd lookup assoc String.eqb Ascii.eqb Bool.eqb or_undefined].
    rewrite app_nil_r.
    apply (validate_map_rel2 _ _ (fun _ _ => True)); auto.
    intros k a b _ _. apply validate_candidate_leaf_iff.
Qed.

Lemma validate_candidate_sub_iff c (sub0 : SubInvoice) (sub : Candidate.Sub) p path :
  map_rel2 (candidate_group_rel (fun _ _ => True)) sub0 sub -> wf_sub sub0 ->
  (validate (sub_rule c sub0) p (js_candidate_sub sub) path = []
   <-> map_rel2 (candidate_group_rel (candidate_leaf_ok c)) sub0 sub).
Proof.
  intros Hrel [ND Hwf]. unfold sub_rule, js_candidate_sub. rewrite validate_object_obj.
  cbn [flat_map fst snd lookup assoc String.eqb Ascii.eqb Bool.eqb or_undefined].
  rewrite app_nil_r.
  apply (validate_map_rel2 _ _ (candidate_group_rel (fun _ _ => True))); auto.
  intros k a b HIn HR. apply validate_candidate_group_iff; auto.
  rewrite Forall_forall in Hwf. exact (Hwf _ HIn).
Qed.

Lemma validate_candidate_iff c (t0 : FeesPerInvoice) (t : Candidate.Tree) p path :
  candidate_shape t0 t -> wf_tree t0 ->
  (validate (tree_rule c t0) p (js_candidate t) path = []
   <-> candidate_rel (candidate_leaf_ok c) t0 t).
Proof.
  intros Hrel [ND Hwf]. unfold tree_rule, js_candidate, candidate_rel.
  apply (validate_map_rel2 _ _ (map_rel2 (candidate_group_rel (fun _ _ => True)))); auto.
  intros k a b HIn HR. apply validate_candidate_sub_iff; auto.
  rewrite Forall_forall in Hwf. exact (Hwf _ HIn).
Qed.

Lemma Forall2_app_split2 {X Y : Type} (P : X -> Y -> Prop)
      (a1 a2 : list X) (b1 b2 : list Y) :
  List.length a1 = List.length b1 ->
  Forall2 P (a1 ++ a2) (b1 ++ b2) -> Forall2 P a1 b1 /\ Forall2 P a2 b2.
Proof.
  revert b1. induction a1 as [|x a1 IH]; intros [|y b1] Hlen H; simpl in *;
    try discriminate.
  - split; [constructor|exact H].
  - inversion H; subst. destruct (IH b1) as [H1 H2]; auto.
Qed.

Lemma map_rel2_flat_map {V W X Y : Type} (G0 : V -> list X) (G : W -> list Y)
      (R0 Q : V -> W -> Prop) (P : X -> Y -> Prop)
      (m0 : list (string * V)) (m : list (string * W)) :
  (forall a b, R0 a b ->
     List.length (G0 a) = List.length (G b) /\ (Q a b <-> Forall2 P (G0 a) (G b))) ->
  map_rel2 R0 m0 m ->
  List.length (flat_map (fun kv => G0 (snd kv)) m0)
  = List.length (flat_map (fun kv => G (snd kv)) m)
  /\ (map_rel2 Q m0 m
      <-> Forall2 P (flat_map (fun kv => G0 (snd kv)) m0)
                    (flat_map (fun kv => G (snd kv)) m)).
Proof.
  intros HG Hrel. induction Hrel as [|[k0 a] [k b] l0 l [Hk HR] Hrel [IHlen IH]];
    simpl in *.
  - split; [reflexivity|]. split; constructor.
  - destruct (HG a b HR) as [Hlen HQ]. split.
    + rewrite !length_app. congruence.
    + split; intros H.
      * inversion H as [|? ? ? ? [_ Hq] Htl]; subst.
        apply Forall2_app; [now apply HQ|now apply IH].
      * apply Forall2_app_split2 in H as [H1 H2]; [|exact Hlen].
        constructor; [split; [exact Hk|now apply HQ]|now apply IH].
Qed.

Lemma candidate_group_rel_leaves (P : FromFee -> Candidate.Fee -> Prop)
      (g0 : FeeGroup) (g : Candidate.Group) :
  candidate_group_rel (fun _ _ => True) g0 g ->
  List.length (group_leaves g0) = List.length (candidate_group_leaves g)
  /\ (candidate_group_rel P g0 g
      <-> Forall2 P (group_leaves g0) (candidate_group_leaves g)).
Proof.
  destruct g0 as [f0|m0], g as [f|m]; simpl; intros Hrel; try contradiction.
  - split; [reflexivity|]. split; intros H.
    + now constructor.
    + now inversion H.
  - rewrite <- !(flat_map_single snd).
    apply (map_rel2_flat_map (fun fee => [fee]) (fun fee => [fee]) (fun _ _ => True));
      auto.
    intros a b _. split; [reflexivity|]. split; intros H.
    + now constructor.
    + now inversion H.
Qed.

(** A candidate related to the initial tree, read leaf by leaf. *)
Lemma candidate_rel_leaves (P : FromFee -> Candidate.Fee -> Prop)
      (t0 : FeesPerInvoice) (t : Candidate.Tree) :
  candidate_shape t0 t ->
  (candidate_rel P t0 t <-> Forall2 P (tree_leaves t0) (candidate_leaves t)).
Proof.
  intros Hrel. unfold candidate_rel, tree_leaves, candidate_leaves.
  apply (map_rel2_flat_map sub_leaves candidate_sub_leaves
           (map_rel2 (candidate_group_rel (fun _ _ => True))));
    [|exact Hrel].
  intros sub0 sub Hsub. unfold sub_leaves, candidate_sub_leaves.
  apply (map_rel2_flat_map group_leaves candidate_group_leaves
           (candidate_group_rel (fun _ _ => True)));
    [|exact Hsub].
  intros g0 g Hg. now apply candidate_group_rel_leaves.
Qed.

Lemma sample_candidate_shape : candidate_shape sample_tree sample_candidate.
Proof.
  unfold candidate_shape, candidate_rel, candidate_group_rel, map_rel2. wf_tac.
Defined.

(** C2, as the specification words it, fails: a checked value that is
    positive but below the lower bound 1e-16 of the leaf rule is rejected. *)
Lemma positive_value_below_bound_rejected :
  exists s,
    generateFeesSchema (js_fees tiny_initial) usd = Ok s /\
    ~ (isValid s (js_fees tiny_candidate) = true
       <-> Forall2 (spec_leaf_ok usd) (tree_leaves tiny_initial)
                   (tree_leaves tiny_candidate)).
Proof.
  exists (tree_rule usd tiny_initial). split; [reflexivity|]. intros [_ H].
  assert (Hvalid : isValid (tree_rule usd tiny_initial) (js_fees tiny_candidate) = false)
    by reflexivity.
  rewrite H in Hvalid; [discriminate|].
  constructor; [|constructor]. intros _. split.
  - reflexivity.
  - unfold Qle. vm_compute. discriminate.
Qed.

(** C2, amended: for an initial tree whose keys contain no dot or bracket
    and a candidate tree of the same shape whose leaves hold a boolean
    [checked] and a number [value] (a rational or NaN), validation against
    the generated schema succeeds if and only if every candidate leaf has a
    value other than NaN and every checked candidate leaf has a value of at
    least 1e-16 (the lower bound of the leaf rule) and at most
    deserialize(maxAmount, currency) of the initial leaf.  On a single
    leaf: an unchecked leaf passes whatever rational its value is, a
    checked value 0 gets the error [minZero], a checked value equal to the
    deserialized maxAmount passes when that bound is at least 1e-16, and a
    NaN value fails the number type check, checked or not. *)
Theorem validation_rule c (initial : FeesPerInvoice) (candidate : Candidate.Tree) :
  wf_tree initial -> plain_tree initial -> candidate_shape initial candidate ->
  let bound (leaf0 : FromFee) := maxAmount leaf0 / pow10 (getCurrencyPrecision c) in
  exists s,
    generateFeesSchema (js_fees initial) c = Ok s /\
    (isValid s (js_candidate candidate) = true
     <-> Forall2 (fun leaf0 leaf =>
                    exists q,
                      Candidate.value leaf = Rational q /\
                      (Candidate.checked leaf = true ->
                       (1 # 10000000000000000) <= q /\ q <= bound leaf0))
                 (tree_leaves initial) (candidate_leaves candidate)) /\
    (forall leaf0 leaf parent path q,
       Candidate.checked leaf = false -> Candidate.value leaf = Rational q ->
       validate (leaf_rule c leaf0) parent (js_candidate_fee leaf) path = []) /\
    (forall leaf0 leaf parent path q,
       Candidate.checked leaf = true -> Candidate.value leaf = Rational q -> q == 0 ->
       In (path ++ ["value"], FeeError minZero)
          (validate (leaf_rule c leaf0) parent (js_candidate_fee leaf) path)) /\
    (forall leaf0 leaf parent path q,
       Candidate.checked leaf = true -> Candidate.value leaf = Rational q ->
       q == bound leaf0 -> (1 # 10000000000000000) <= q ->
       validate (leaf_rule c leaf0) parent (js_candidate_fee leaf) path = []) /\
    (forall leaf0 leaf parent path,
       Candidate.value leaf = NotANumber ->
       validate (leaf_rule c leaf0) parent (js_candidate_fee leaf) path
       = [(path ++ ["value"], NotType)]).
Proof.
  intros Hwf Hplain Hshape bound. exists (tree_rule c initial).
  split; [now apply generateFeesSchema_wf|]. split; [|split; [|split; [|split]]].
  - rewrite isValid_true_iff.
    rewrite (validate_candidate_iff c initial candidate JsUndefined [] Hshape Hwf).
    apply (candidate_rel_leaves (candidate_leaf_ok c) initial candidate Hshape).
  - intros leaf0 leaf parent path q Hc Hv.
    apply validate_candidate_unchecked; [exact Hc|]. rewrite Hv. discriminate.
  - intros leaf0 leaf parent path q Hc Hv Hq.
    unfold leaf_rule, simpleFeeSchema, js_candidate_fee. rewrite validate_object_obj.
    cbn [flat_map snd fst lookup assoc String.eqb Ascii.eqb Bool.eqb
         or_undefined validate optProp nullish truthy app].
    rewrite Hc, Hv.
    cbn [js_number validate deserializeAmount at_path flat_map run_test nullish orb
         js_le app map].
    destruct (Qle_bool (1 # 10000000000000000) q) eqn:E1.
    + apply Qle_bool_iff in E1. rewrite Hq in E1. exfalso. revert E1.
      unfold Qle. vm_compute. intros E1. now apply E1.
    + cbn [app map]. now left.
  - intros leaf0 leaf parent path q Hc Hv Hq Hmin.
    apply validate_candidate_leaf_iff. exists q. split; [exact Hv|].
    intros _. split; [exact Hmin|]. rewrite Hq. apply Qle_refl.
  - intros leaf0 leaf parent path Hv. now apply validate_candidate_NaN.
Qed.

Lemma validation_rule_witness :
  (wf_tree sample_tree /\ plain_tree sample_tree
   /\ candidate_shape sample_tree sample_candidate) /\
  let bound (leaf0 : FromFee) := maxAmount leaf0 / pow10 (getCurrencyPrecision usd) in
  exists s,
    generateFeesSchema (js_fees sample_tree) usd = Ok s /\
    (isValid s (js_candidate sample_candidate) = true
     <-> Forall2 (fun leaf0 leaf =>
                    exists q,
                      Candidate.value leaf = Rational q /\
                      (Candidate.checked leaf = true ->
                       (1 # 10000000000000000) <= q /\ q <= bound leaf0))
                 (tree_leaves sample_tree) (candidate_leaves sample_candidate)) /\
    (forall leaf0 leaf parent path q,
       Candidate.checked leaf = false -> Candidate.value leaf = Rational q ->
       validate (leaf_rule usd leaf0) parent (js_candidate_fee leaf) path = []) /\
    (forall leaf0 leaf parent path q,
       Candidate.checked leaf = true -> Candidate.value leaf = Rational q -> q == 0 ->
       In (path ++ ["value"], FeeError minZero)
          (validate (leaf_rule usd leaf0) parent (js_candidate_fee leaf) path)) /\
    (forall leaf0 leaf parent path q,
       Candidate.checked leaf = true -> Candidate.value leaf = Rational q ->
       q == bound leaf0 -> (1 # 10000000000000000) <= q ->
       validate (leaf_rule usd leaf0) parent (js_candidate_fee leaf) path = []) /\
    (forall leaf0 leaf parent path,
       Candidate.value leaf = NotANumber ->
       validate (leaf_rule usd leaf0) parent (js_candidate_fee leaf) path
       = [(path ++ ["value"], NotType)]).
Proof.
  split.
  - split; [exact sample_tree_wf|].
    split; [exact sample_tree_plain|exact sample_candidate_shape].
  - apply (validation_rule usd sample_tree sample_candidate).
    + exact sample_tree_wf.
    + exact sample_tree_plain.
    + exact sample_candidate_shape.
Defined.

(** The errors of [sample_candidate] against the schema of [sample_tree]:
    the NaN of its unchecked leaf and the 0 of a checked one. *)
Example sample_candidate_errors :
  validate (tree_rule usd sample_tree) JsUndefined (js_candidate sample_candidate) []
  = [ (["invA"; "fees"; "g2"; "grouped"; "s2"; "value"], NotType);
      (["invA"; "fees"; "g3"; "value"], FeeError minZero) ].
Proof. reflexivity. Qed.

(** A typed tree is the candidate whose values are its rationals. *)
Lemma js_candidate_of_tree (tree : FeesPerInvoice) :
  js_candidate (candidate_of_tree tree) = js_fees tree.
Proof.
  unfold js_candidate, js_fees, candidate_of_tree, map_values. rewrite map_map.
  f_equal. apply map_ext. intros [subKey sub]. cbn [fst snd].
  unfold js_candidate_sub, js_sub, map_values. rewrite map_map.
  do 5 f_equal. apply map_ext. intros [feeGroupKey [fee|grouped]]; cbn [fst snd].
  - reflexivity.
  - cbn [candidate_of_group js_candidate_group js_group]. unfold map_values.
    rewrite map_map. reflexivity.
Qed.

(** At the top level both functions do guard: an absent tree is an empty
    tree. *)
Example absent_tree_is_empty inv c :
  (exists out, serializeCreditNoteInput inv (JsObj [ ("reason", JsStr "other") ]) c = Ok out
               /\ items out = []) /\
  generateFeesSchema JsUndefined c = Ok (object []) /\
  generateFeesSchema JsNull c = Ok (object []).
Proof.
  split; [|split; reflexivity]. eexists. split; reflexivity.
Qed.

Lemma flat_map_map_entries {A B C : Type} (f : B -> list C) (g : string -> A -> B)
      (m : list (string * A)) :
  flat_map (fun field => f (snd field)) (map_entries g m)
  = flat_map (fun kv => f (g (fst kv) (snd kv))) m.
Proof. induction m as [|kv m IH]; simpl; [reflexivity|now rewrite IH]. Qed.

Lemma leaf_rules_entries {A : Type} (g : string -> A -> Schema) (m : list (string * A)) :
  (forall k v, is_object (g k v) = true) ->
  leaf_rules (object (map_entries g m))
  = flat_map (fun kv => leaf_rules (g (fst kv) (snd kv))) m.
Proof.
  intros Hg. cbn [leaf_rules].
  replace (forallb (fun field => is_object (snd field)) (map_entries g m)) with true.
  - apply flat_map_map_entries.
  - symmetry. apply forallb_forall. intros [k s] HIn.
    apply in_map_iff in HIn as [[k' v] [E _]]. inversion E; subst. apply Hg.
Qed.

Lemma Forall2_flat_map {A X Y : Type} (P : X -> Y -> Prop)
      (F : A -> list X) (G : A -> list Y) (l : list A) :
  (forall a, In a l -> Forall2 P (F a) (G a)) ->
  Forall2 P (flat_map F l) (flat_map G l).
Proof.
  induction l as [|a l IH]; simpl; intros H; [constructor|].
  apply Forall2_app; auto.
Qed.

Lemma leaf_rules_wrapper k inner :
  leaf_rules (object [ (k, object inner) ]) = leaf_rules (object inner).
Proof. simpl. apply app_nil_r. Qed.

Lemma leaf_rules_path_rule c initial path :
  leaf_rules (path_rule c initial path) = [path_rule c initial path].
Proof. reflexivity. Qed.

Lemma is_leaf_rule_path_rule c initial path : is_leaf_rule (path_rule c initial path).
Proof. unfold is_leaf_rule, path_rule. eauto. Qed.

(** One leaf rule per leaf of the tree, in walk order. *)
Lemma leaf_rules_tree_path_rule c (tree : FeesPerInvoice) :
  Forall2 (fun rule (_ : FromFee) => is_leaf_rule rule)
          (leaf_rules (tree_path_rule c tree)) (tree_leaves tree).
Proof.
  unfold tree_path_rule, tree_leaves.
  rewrite leaf_rules_entries by reflexivity.
  apply Forall2_flat_map. intros [subKey sub] _. cbn [fst snd].
  unfold sub_path_rule, sub_leaves. rewrite leaf_rules_wrapper.
  rewrite leaf_rules_entries by (intros k [fee|grouped]; reflexivity).
  apply Forall2_flat_map. intros [feeGroupKey [fee|grouped]] _; cbn [fst snd].
  - unfold group_path_rule, group_leaves. rewrite leaf_rules_path_rule.
    constructor; [apply is_leaf_rule_path_rule|constructor].
  - unfold group_path_rule, group_leaves. rewrite leaf_rules_wrapper.
    rewrite leaf_rules_entries by reflexivity.
    rewrite <- (flat_map_single snd).
    apply Forall2_flat_map. intros [feeKey fee] _. cbn [fst snd].
    rewrite leaf_rules_path_rule.
    constructor; [apply is_leaf_rule_path_rule|constructor].
Qed.

(** C3, as the specification words it, fails: a sub-invoice group without
    a [fees] map and a fee-group that is not a leaf and has no [grouped]
    map are not treated as empty; on each of them both the serializer and
    the schema generation end in a TypeError, raised by
    [Object.keys(undefined)]. *)
Lemma missing_nested_map_raises :
  serializeCreditNoteInput (JsStr "inv-1") (form_of_fees no_fees_map) usd = TypeError /\
  generateFeesSchema no_fees_map usd = TypeError /\
  serializeCreditNoteInput (JsStr "inv-1") (form_of_fees no_grouped_map) usd = TypeError /\
  generateFeesSchema no_grouped_map usd = TypeError.
Proof. repeat split; reflexivity. Qed.

Lemma tree_leaves_empty_fees (before after : FeesPerInvoice) subKey :
  tree_leaves (before ++ (subKey, []) :: after) = tree_leaves (before ++ after).
Proof. unfold tree_leaves. now rewrite !flat_map_app. Qed.

Lemma tree_leaves_empty_grouped (before after : FeesPerInvoice) subKey
      (sub1 sub2 : SubInvoice) feeGroupKey :
  tree_leaves (before ++ (subKey, sub1 ++ (feeGroupKey, Grouped []) :: sub2) :: after)
  = tree_leaves (before ++ (subKey, sub1 ++ sub2) :: after).
Proof.
  unfold tree_leaves. rewrite !flat_map_app. cbn [flat_map snd].
  unfold sub_leaves. now rewrite !flat_map_app.
Qed.

Lemma sparse_form_wf : wf_form sparse_form.
Proof.
  unfold wf_form, sparse_form, sparse_tree, wf_tree, wf_sub, wf_group, distinct_keys.
  wf_tac.
Defined.

(** C3, amended: on every form of the declared types (a pay-back array that
    is absent or made of typed entries, fee-groups that are leaves with a
    boolean [checked] or wrappers of a [grouped] map of such leaves) whose
    tree is absent, or present with all of its nested maps (empty ones
    included), neither the serializer nor the schema generation raises an
    error.  The items are the optional add-on item followed by the items of
    the checked leaves, and there is one leaf rule per leaf: an absent tree
    gives no item and the empty schema, and an empty [fees] map or an empty
    [grouped] map gives no item and no rule beside those of the other
    leaves. *)
Theorem present_maps_raise_no_error inv (form : CreditNoteForm.t) c :
  wf_form form ->
  let addOn := if truthy (optProp (CreditNoteForm.addOnFee form) "value")
               then [addOn_item (CreditNoteForm.addOnFee form) c] else [] in
  let from_leaves out s (leaves : list FromFee) :=
    items out = addOn ++ map (fee_item c) (filter checked leaves) /\
    Forall2 (fun rule (_ : FromFee) => is_leaf_rule rule) (leaf_rules s) leaves in
  exists out s,
    serializeCreditNoteInput inv (js_form form) c = Ok out /\
    generateFeesSchema (opt_js js_fees (CreditNoteForm.fees form)) c = Ok s /\
    from_leaves out s (form_leaves form) /\
    (CreditNoteForm.fees form = None -> items out = addOn /\ s = object []) /\
    (forall before after subKey,
       CreditNoteForm.fees form = Some (before ++ (subKey, []) :: after) ->
       from_leaves out s (tree_leaves (before ++ after))) /\
    (forall before after subKey sub1 sub2 feeGroupKey,
       CreditNoteForm.fees form
       = Some (before ++ (subKey, sub1 ++ (feeGroupKey, Grouped []) :: sub2) :: after) ->
       from_leaves out s (tree_leaves (before ++ (subKey, sub1 ++ sub2) :: after))).
Proof.
  intros Hwf addOn from_leaves.
  assert (Hs : exists s,
             generateFeesSchema (opt_js js_fees (CreditNoteForm.fees form)) c = Ok s /\
             Forall2 (fun rule (_ : FromFee) => is_leaf_rule rule)
                     (leaf_rules s) (form_leaves form) /\
             (CreditNoteForm.fees form = None -> s = object [])).
  { unfold wf_form, form_leaves in *.
    destruct (CreditNoteForm.fees form) as [tree|]; cbn [opt_js].
    - exists (tree_path_rule c tree). split; [now apply generateFeesSchema_paths|].
      split; [apply leaf_rules_tree_path_rule|discriminate].
    - exists (object []). split; [reflexivity|]. split; [constructor|reflexivity]. }
  destruct Hs as [s [Hs [Hrules Hnone]]]. eexists. exists s.
  split; [now apply serializeCreditNoteInput_typed|].
  split; [exact Hs|].
  assert (Hall : from_leaves
                   {| invoiceId := inv;
                      reason := CreditNoteForm.reason form;
                      description := CreditNoteForm.description form;
                      creditAmountCents := payBack_cents credit c (CreditNoteForm.payBack form);
                      refundAmountCents := payBack_cents refund c (CreditNoteForm.payBack form);
                      items := addOn ++ checked_items c (form_leaves form) |}
                   s (form_leaves form)).
  { split; [reflexivity|exact Hrules]. }
  split; [exact Hall|]. split; [|split].
  - intros Hf. split; [|now apply Hnone].
    cbn [items]. unfold form_leaves. rewrite Hf. apply app_nil_r.
  - intros before after subKey Hf.
    replace (tree_leaves (before ++ after)) with (form_leaves form); [exact Hall|].
    unfold form_leaves. rewrite Hf. apply tree_leaves_empty_fees.
  - intros before after subKey sub1 sub2 feeGroupKey Hf.
    replace (tree_leaves (before ++ (subKey, sub1 ++ sub2) :: after))
      with (form_leaves form); [exact Hall|].
    unfold form_leaves. rewrite Hf. apply tree_leaves_empty_grouped.
Qed.

Lemma present_maps_raise_no_error_witness :
  wf_form sparse_form /\
  let addOn := if truthy (optProp (CreditNoteForm.addOnFee sparse_form) "value")
               then [addOn_item (CreditNoteForm.addOnFee sparse_form) usd] else [] in
  let from_leaves out s (leaves : list FromFee) :=
    items out = addOn ++ map (fee_item usd) (filter checked leaves) /\
    Forall2 (fun rule (_ : FromFee) => is_leaf_rule rule) (leaf_rules s) leaves in
  exists out s,
    serializeCreditNoteInput (JsStr "inv-1") (js_form sparse_form) usd = Ok out /\
    generateFeesSchema (opt_js js_fees (CreditNoteForm.fees sparse_form)) usd = Ok s /\
    from_leaves out s (form_leaves sparse_form) /\
    (CreditNoteForm.fees sparse_form = None -> items out = addOn /\ s = object []) /\
    (forall before after subKey,
       CreditNoteForm.fees sparse_form = Some (before ++ (subKey, []) :: after) ->
       from_leaves out s (tree_leaves (before ++ after))) /\
    (forall before after subKey sub1 sub2 feeGroupKey,
       CreditNoteForm.fees sparse_form
       = Some (before ++ (subKey, sub1 ++ (feeGroupKey, Grouped []) :: sub2) :: after) ->
       from_leaves out s (tree_leaves (before ++ (subKey, sub1 ++ sub2) :: after))).
Proof.
  split; [exact sparse_form_wf|].
  apply (present_maps_raise_no_error (JsStr "inv-1") sparse_form usd).
  exact sparse_form_wf.
Defined.

(** The serializer and the schema generation on [sparse_form], whose tree
    has an empty [grouped] map and an empty [fees] map beside one checked
    leaf, and on [treeless_form], which has no tree. *)
Example sparse_form_example :
  (exists out,
     serializeCreditNoteInput (JsStr "inv-1") (js_form sparse_form) usd = Ok out /\
     items out = [ {| feeId := JsStr "f1"; amountCents := JsNum 1000 |} ]) /\
  (exists s,
     generateFeesSchema (js_fees sparse_tree) usd = Ok s /\
     leaf_rules s = [ simpleFeeSchema (JsNum 5000) usd ] /\
     rule_at s ["invA"; "fees"; "g1"] = Some (object [ ("grouped", object []) ]) /\
     rule_at s ["invB"] = Some (object [ ("fees", object []) ])).
Proof.
  split; [eexists; split; reflexivity|].
  eexists. split; [reflexivity|]. repeat split; reflexivity.
Qed.

Example treeless_form_example :
  (exists out,
     serializeCreditNoteInput (JsStr "inv-1") (js_form treeless_form) usd = Ok out /\
     items out = [ {| feeId := JsStr "addon"; amountCents := JsNum 300 |} ]) /\
  generateFeesSchema (opt_js js_fees (CreditNoteForm.fees treeless_form)) usd
  = Ok (object []).
Proof.
  split; [eexists; split; reflexivity|reflexivity].
Qed.


(** ** The serializer and the validation on candidates *)

Lemma candidate_items_app c (l1 l2 : list Candidate.Fee) :
  candidate_items c (l1 ++ l2) = candidate_items c l1 ++ candidate_items c l2.
Proof. unfold candidate_items. now rewrite filter_app, map_app. Qed.

Lemma candidate_items_flat_map {A : Type} c (F : A -> list Candidate.Fee) (l : list A) :
  flat_map (fun x => candidate_items c (F x)) l = candidate_items c (flat_map F l).
Proof.
  induction l as [|x l IH]; simpl; [reflexivity|].
  now rewrite candidate_items_app, IH.
Qed.

Lemma groupedItems_candidate c (grouped : list (string * Candidate.Fee)) :
  distinct_keys grouped ->
  groupedItems (JsObj (map_values js_candidate_fee grouped)) c
  = Ok (candidate_items c (map snd grouped)).
Proof.
  intros ND. unfold groupedItems. cbn [Object_keys bind].
  rewrite map_fst_map_values.
  rewrite (reduce_map_values _ (fun fee => candidate_items c [fee])).
  - simpl. rewrite (candidate_items_flat_map c (fun kv => [snd kv])).
    now rewrite flat_map_single.
  - intros k fee acc HIn. unfold getProp at 1. cbn [nullish].
    rewrite (lookup_map_values js_candidate_fee k fee grouped ND HIn).
    unfold candidate_items, candidate_item, js_candidate_fee, getProp.
    cbn [nullish bind lookup assoc String.eqb Ascii.eqb Bool.eqb or_undefined truthy
         filter map].
    destruct (Candidate.checked fee); cbn [negb]; [reflexivity|now rewrite app_nil_r].
Qed.

Lemma groupStep_candidate c (sub : Candidate.Sub) k g acc :
  distinct_keys sub -> wf_candidate_group g -> In (k, g) sub ->
  groupStep (js_candidate_sub sub) c acc k
  = Ok (acc ++ candidate_items c (candidate_group_leaves g)).
Proof.
  intros ND Hg HIn. unfold groupStep, js_candidate_sub. cbn [nullish].
  change (lookup (JsObj [("fees", JsObj (map_values js_candidate_group sub))]) "fees")
    with (JsObj (map_values js_candidate_group sub)).
  unfold getProp at 1. cbn [nullish bind].
  rewrite (lookup_map_values js_candidate_group k g sub ND HIn).
  destruct g as [fee|grouped]; cbn [js_candidate_group candidate_group_leaves
                                    wf_candidate_group] in *.
  - unfold candidate_items, candidate_item, js_candidate_fee, getProp, optProp.
    cbn [nullish bind lookup assoc String.eqb Ascii.eqb Bool.eqb or_undefined truthy
         typeof_boolean filter map].
    destruct (Candidate.checked fee); cbn [negb]; [reflexivity|now rewrite app_nil_r].
  - unfold getProp, optProp.
    cbn [nullish bind lookup assoc String.eqb Ascii.eqb Bool.eqb or_undefined
         typeof_boolean].
    now rewrite (groupedItems_candidate c grouped Hg).
Qed.

Lemma subStep_candidate c (tree : Candidate.Tree) k sub acc :
  distinct_keys tree -> wf_candidate_sub sub -> In (k, sub) tree ->
  subStep (js_candidate tree) c acc k
  = Ok (acc ++ candidate_items c (candidate_sub_leaves sub)).
Proof.
  intros ND [NDs Hgs] HIn. unfold subStep, js_candidate, getProp. cbn [nullish bind].
  rewrite (lookup_map_values js_candidate_sub k sub tree ND HIn).
  change (optProp (js_candidate_sub sub) "fees")
    with (JsObj (map_values js_candidate_group sub)).
  cbn [Object_keys bind]. rewrite map_fst_map_values.
  rewrite (reduce_map_values _ (fun g => candidate_items c (candidate_group_leaves g))).
  - simpl. unfold candidate_sub_leaves.
    now rewrite (candidate_items_flat_map c (fun kv => candidate_group_leaves (snd kv))).
  - intros k' g acc' HIn'. apply groupStep_candidate; auto.
    rewrite Forall_forall in Hgs. exact (Hgs _ HIn').
Qed.

Lemma feeItems_candidate c (tree : Candidate.Tree) :
  wf_candidate tree ->
  feeItems (js_candidate tree) c = Ok (candidate_items c (candidate_leaves tree)).
Proof.
  intros [ND Hsubs]. unfold feeItems, js_candidate. cbn [Object_keys bind].
  rewrite map_fst_map_values.
  rewrite (reduce_map_values _ (fun sub => candidate_items c (candidate_sub_leaves sub))).
  - simpl. unfold candidate_leaves.
    now rewrite (candidate_items_flat_map c (fun kv => candidate_sub_leaves (snd kv))).
  - intros k sub acc HIn. apply subStep_candidate; auto.
    rewrite Forall_forall in Hsubs. exact (Hsubs _ HIn).
Qed.

(** The whole output on a form that holds a candidate tree. *)
Lemma serializeCreditNoteInput_candidate inv rs ds pb (tree : Candidate.Tree) ao c :
  wf_candidate tree ->
  serializeCreditNoteInput inv (js_candidate_form rs ds pb tree ao) c
  = Ok {| invoiceId := inv;
          reason := rs;
          description := ds;
          creditAmountCents := payBack_cents credit c pb;
          refundAmountCents := payBack_cents refund c pb;
          items := (if truthy (optProp ao "value") then [addOn_item ao c] else [])
                   ++ candidate_items c (candidate_leaves tree) |}.
Proof.
  intros Hwf. unfold js_candidate_form, serializeCreditNoteInput, getProp.
  cbn [nullish lookup assoc String.eqb Ascii.eqb Bool.eqb or_undefined bind].
  rewrite addOnItems_ok.
  change (default_to (js_candidate tree) (JsArr [])) with (js_candidate tree).
  rewrite (feeItems_candidate c tree Hwf).
  destruct pb as [entries|].
  - cbn [truthy negb]. rewrite !payBackAmount_typed. cbn [bind].
    rewrite js_or_payBack_cents. reflexivity.
  - reflexivity.
Qed.

Lemma wf_candidate_rel (R : Candidate.Fee -> Candidate.Fee -> Prop)
      (t1 t2 : Candidate.Tree) :
  candidates_rel R t1 t2 -> wf_candidate t1 -> wf_candidate t2.
Proof.
  intros Hrel [ND Hsubs]. split.
  - exact (distinct_keys_rel _ _ _ Hrel ND).
  - revert Hsubs.
    apply (map_rel_Forall (map_rel (candidates_group_rel R)) wf_candidate_sub);
      [|exact Hrel].
    intros s1 s2 Hs [NDs Hgs]. split.
    + exact (distinct_keys_rel _ _ _ Hs NDs).
    + revert Hgs.
      apply (map_rel_Forall (candidates_group_rel R) wf_candidate_group); [|exact Hs].
      intros [f1|m1] [f2|m2]; simpl; auto; try contradiction.
      apply distinct_keys_rel.
Qed.

Lemma candidates_rel_impl (R R' : Candidate.Fee -> Candidate.Fee -> Prop)
      (t1 t2 : Candidate.Tree) :
  (forall a b, R a b -> R' a b) -> candidates_rel R t1 t2 -> candidates_rel R' t1 t2.
Proof.
  intros HR. unfold candidates_rel. apply map_rel_impl. intros s1 s2.
  apply map_rel_impl. intros [f1|m1] [f2|m2]; simpl; auto.
  now apply map_rel_impl.
Qed.

Lemma candidates_group_rel_leaves (P : Candidate.Fee -> Candidate.Fee -> Prop)
      (g1 g2 : Candidate.Group) :
  candidates_group_rel (fun _ _ => True) g1 g2 ->
  List.length (candidate_group_leaves g1) = List.length (candidate_group_leaves g2)
  /\ (candidates_group_rel P g1 g2
      <-> Forall2 P (candidate_group_leaves g1) (candidate_group_leaves g2)).
Proof.
  destruct g1 as [f1|m1], g2 as [f2|m2]; simpl; intros Hrel; try contradiction.
  - split; [reflexivity|]. split; intros H.
    + now constructor.
    + now inversion H.
  - rewrite <- !(flat_map_single snd).
    apply (map_rel_flat_map (fun fee => [fee]) (fun _ _ => True)); auto.
    intros a b _. split; [reflexivity|]. split; intros H.
    + now constructor.
    + now inversion H.
Qed.

(** Related candidates, read leaf by leaf. *)
Lemma candidates_rel_leaves (P : Candidate.Fee -> Candidate.Fee -> Prop)
      (t1 t2 : Candidate.Tree) :
  candidates_rel (fun _ _ => True) t1 t2 ->
  (candidates_rel P t1 t2 <-> Forall2 P (candidate_leaves t1) (candidate_leaves t2)).
Proof.
  intros Hrel. unfold candidates_rel, candidate_leaves.
  apply (map_rel_flat_map candidate_sub_leaves
           (map_rel (candidates_group_rel (fun _ _ => True))));
    [|exact Hrel].
  intros sub1 sub2 Hsub. unfold candidate_sub_leaves.
  apply (map_rel_flat_map candidate_group_leaves
           (candidates_group_rel (fun _ _ => True)));
    [|exact Hsub].
  intros g1 g2 Hg. now apply candidates_group_rel_leaves.
Qed.

Lemma candidate_items_rel c (l1 l2 : list Candidate.Fee) :
  Forall2 differ_in_unchecked_value l1 l2 -> candidate_items c l1 = candidate_items c l2.
Proof.
  unfold candidate_items.
  intros H. induction H as [|f1 f2 l1 l2 [Hid [_ [Hc Hv]]] _ IH]; simpl; [reflexivity|].
  rewrite <- Hc. destruct (Candidate.checked f1); [|exact IH].
  simpl. rewrite IH. f_equal. unfold candidate_item. now rewrite Hid, (Hv eq_refl).
Qed.

Lemma Forall2_with_Forall {X : Type} (R : X -> X -> Prop) (P : X -> Prop)
      (l1 l2 : list X) :
  Forall2 R l1 l2 -> Forall P l1 -> Forall P l2 ->
  Forall2 (fun a b => R a b /\ P a /\ P b) l1 l2.
Proof.
  intros H. induction H as [|a b l1 l2 Hab _ IH]; intros H1 H2; [constructor|].
  inversion H1; inversion H2; subst. constructor; auto.
Qed.

Lemma validate_candidate_leaf_indist mx c (f1 f2 : Candidate.Fee) p1 p2 path :
  same_checked_numbers f1 f2 ->
  validate (simpleFeeSchema mx c) p1 (js_candidate_fee f1) path
  = validate (simpleFeeSchema mx c) p2 (js_candidate_fee f2) path.
Proof.
  intros [Hc [Hv Hn]]. destruct (Candidate.checked f1) eqn:E1.
  - unfold simpleFeeSchema, js_candidate_fee. rewrite !validate_object_obj.
    cbn [flat_map snd fst lookup assoc String.eqb Ascii.eqb Bool.eqb
         or_undefined validate optProp nullish truthy app].
    now rewrite <- Hc, E1, (Hv eq_refl).
  - destruct (Hn eq_refl) as [H1 H2].
    rewrite (proj2 (validate_candidate_unchecked mx c f1 p1 path E1) H1).
    symmetry. apply validate_candidate_unchecked; [congruence|exact H2].
Qed.

Lemma validate_candidate_group_indist s (g1 g2 : Candidate.Group) q1 q2 pth :
  is_group_rule s -> candidates_group_rel same_checked_numbers g1 g2 ->
  validate s q1 (js_candidate_group g1) pth = validate s q2 (js_candidate_group g2) pth.
Proof.
  intros Hs Hg.
  destruct g1 as [f1|m1], g2 as [f2|m2]; simpl in Hg; try contradiction.
  - destruct Hs as [[mx [c ->]]|[inner [-> _]]].
    + now apply validate_candidate_leaf_indist.
    + reflexivity.
  - destruct Hs as [[mx [c ->]]|[inner [-> Hinner]]].
    + reflexivity.
    + unfold js_candidate_group. rewrite !validate_object_obj.
      cbn [flat_map fst snd lookup assoc String.eqb Ascii.eqb Bool.eqb or_undefined].
      f_equal.
      apply (validate_map_indist js_candidate_fee same_checked_numbers is_leaf_rule);
        auto.
      * intros s a b p1 p2 path [mx [c ->]] Hab.
        now apply validate_candidate_leaf_indist.
      * intros s p1 p2 path Hs. now apply is_leaf_rule_undefined.
Qed.

Lemma validate_candidate_sub_indist s (sub1 sub2 : Candidate.Sub) q1 q2 pth :
  is_sub_rule s -> map_rel (candidates_group_rel same_checked_numbers) sub1 sub2 ->
  validate s q1 (js_candidate_sub sub1) pth = validate s q2 (js_candidate_sub sub2) pth.
Proof.
  intros [inner [-> Hinner]] Hrel. unfold js_candidate_sub.
  rewrite !validate_object_obj.
  cbn [flat_map fst snd lookup assoc String.eqb Ascii.eqb Bool.eqb or_undefined].
  f_equal.
  apply (validate_map_indist js_candidate_group
                             (candidates_group_rel same_checked_numbers) is_group_rule);
    auto.
  - intros s a b p1 p2 path Hs Hab. now apply validate_candidate_group_indist.
  - intros s p1 p2 path Hs. now apply is_group_rule_undefined.
Qed.

(** Validation cannot tell apart two candidates whose leaves agree on
    [checked], on [value] where checked, and hold a number other than NaN
    where unchecked. *)
Lemma validate_candidate_indist s (t1 t2 : Candidate.Tree) p1 p2 path :
  is_fees_schema s -> candidates_rel same_checked_numbers t1 t2 ->
  validate s p1 (js_candidate t1) path = validate s p2 (js_candidate t2) path.
Proof.
  intros [shape [-> Hshape]] Hrel. unfold js_candidate.
  apply (validate_map_indist js_candidate_sub
                             (map_rel (candidates_group_rel same_checked_numbers))
                             is_sub_rule); auto.
  - intros s a b q1 q2 pth Hs Hab. now apply validate_candidate_sub_indist.
  - intros s q1 q2 pth Hs. now apply is_sub_rule_undefined.
Qed.

Lemma edited_candidate_wf v : wf_candidate (edited_candidate v).
Proof.
  unfold wf_candidate, wf_candidate_sub, wf_candidate_group, edited_candidate,
    distinct_keys.
  wf_tac.
Defined.

Lemma edited_candidates_differ v1 v2 :
  candidates_rel differ_in_unchecked_value (edited_candidate v1) (edited_candidate v2).
Proof.
  unfold candidates_rel, candidates_group_rel, map_rel, differ_in_unchecked_value,
    edited_candidate.
  wf_tac.
Defined.

(** C8, as the specification words it, fails: validation does constrain
    the value of an unchecked leaf.  Of two candidates that differ only in
    the value of their unchecked leaf, the one holding 0 is valid and the
    one holding NaN is not. *)
Lemma unchecked_NaN_value_rejected :
  exists s,
    generateFeesSchema (js_fees tiny_initial) usd = Ok s /\
    isValid s (js_candidate (unchecked_leaf_tree (Rational 0))) = true /\
    isValid s (js_candidate (unchecked_leaf_tree NotANumber)) = false /\
    validate s JsUndefined (js_candidate (unchecked_leaf_tree NotANumber)) []
    = [ (["invA"; "fees"; "g1"; "value"], NotType) ] /\
    ~ (forall v, isValid s (js_candidate (unchecked_leaf_tree v)) = true).
Proof.
  exists (tree_rule usd tiny_initial). repeat split; try reflexivity.
  intros H. specialize (H NotANumber). discriminate H.
Qed.

(** C8, amended: two trees that differ only in the values of unchecked
    leaves give the same serializer output, whatever numbers these values
    are, NaN included; they get the same validation errors against any
    generated schema when these values are numbers other than NaN.  Of the
    value of an unchecked leaf a leaf rule asks only that it is a number
    other than NaN: every rational passes, and NaN gets a type error. *)
Theorem unchecked_value_is_ignored inv reason description payBack addOnFee c
        (tree1 tree2 : Candidate.Tree) initial s :
  wf_candidate tree1 ->
  candidates_rel differ_in_unchecked_value tree1 tree2 ->
  generateFeesSchema initial c = Ok s ->
  let form tree := js_candidate_form reason description payBack tree addOnFee in
  (exists out,
     serializeCreditNoteInput inv (form tree1) c = Ok out /\
     serializeCreditNoteInput inv (form tree2) c = Ok out) /\
  (Forall unchecked_is_rational (candidate_leaves tree1) ->
   Forall unchecked_is_rational (candidate_leaves tree2) ->
   validate s JsUndefined (js_candidate tree1) []
   = validate s JsUndefined (js_candidate tree2) [] /\
   isValid s (js_candidate tree1) = isValid s (js_candidate tree2)) /\
  (forall maxAmount leaf parent path,
     Candidate.checked leaf = false ->
     (validate (simpleFeeSchema maxAmount c) parent (js_candidate_fee leaf) path = []
      <-> Candidate.value leaf <> NotANumber)) /\
  (forall maxAmount leaf parent path,
     Candidate.checked leaf = false -> Candidate.value leaf = NotANumber ->
     validate (simpleFeeSchema maxAmount c) parent (js_candidate_fee leaf) path
     = [(path ++ ["value"], NotType)]).
Proof.
  intros Hwf Hrel Hs form.
  assert (Hwf2 : wf_candidate tree2) by exact (wf_candidate_rel _ _ _ Hrel Hwf).
  assert (Hshape : candidates_rel (fun _ _ => True) tree1 tree2).
  { revert Hrel. apply candidates_rel_impl. auto. }
  assert (Hleaves : Forall2 differ_in_unchecked_value
                            (candidate_leaves tree1) (candidate_leaves tree2)).
  { now apply (candidates_rel_leaves differ_in_unchecked_value tree1 tree2 Hshape). }
  split; [|split; [|split]].
  - eexists. split.
    + unfold form. now apply serializeCreditNoteInput_candidate.
    + unfold form. rewrite serializeCreditNoteInput_candidate by exact Hwf2.
      now rewrite (candidate_items_rel c _ _ Hleaves).
  - intros H1 H2.
    assert (Hv : validate s JsUndefined (js_candidate tree1) []
                 = validate s JsUndefined (js_candidate tree2) []).
    { apply validate_candidate_indist; [exact (generateFeesSchema_shape _ _ _ Hs)|].
      apply (candidates_rel_leaves same_checked_numbers tree1 tree2 Hshape).
      pose proof (Forall2_with_Forall _ _ _ _ Hleaves H1 H2) as H.
      revert H. apply Forall2_impl.
      intros a b [[_ [_ [Hc Hval]]] [Ha Hb]]. split; [exact Hc|].
      split; [exact Hval|]. intros Hu. split; [now apply Ha|].
      apply Hb. congruence. }
    split; [exact Hv|]. unfold isValid. now rewrite Hv.
  - intros mx leaf parent path Hc. now apply validate_candidate_unchecked.
  - intros mx leaf parent path _ Hnan. now apply validate_candidate_NaN.
Qed.

Lemma unchecked_value_is_ignored_witness :
  (wf_candidate (edited_candidate (Rational 7)) /\
   candidates_rel differ_in_unchecked_value
                  (edited_candidate (Rational 7)) (edited_candidate (Rational 250)) /\
   generateFeesSchema (js_fees sample_tree) usd = Ok (tree_rule usd sample_tree)) /\
  let form tree := js_candidate_form (JsStr "other") JsNull None tree JsUndefined in
  (exists out,
     serializeCreditNoteInput (JsStr "inv-1") (form (edited_candidate (Rational 7))) usd
     = Ok out /\
     serializeCreditNoteInput (JsStr "inv-1") (form (edited_candidate (Rational 250))) usd
     = Ok out) /\
  (Forall unchecked_is_rational (candidate_leaves (edited_candidate (Rational 7))) ->
   Forall unchecked_is_rational (candidate_leaves (edited_candidate (Rational 250))) ->
   validate (tree_rule usd sample_tree) JsUndefined
            (js_candidate (edited_candidate (Rational 7))) []
   = validate (tree_rule usd sample_tree) JsUndefined
              (js_candidate (edited_candidate (Rational 250))) [] /\
   isValid (tree_rule usd sample_tree) (js_candidate (edited_candidate (Rational 7)))
   = isValid (tree_rule usd sample_tree) (js_candidate (edited_candidate (Rational 250)))) /\
  (forall maxAmount leaf parent path,
     Candidate.checked leaf = false ->
     (validate (simpleFeeSchema maxAmount usd) parent (js_candidate_fee leaf) path = []
      <-> Candidate.value leaf <> NotANumber)) /\
  (forall maxAmount leaf parent path,
     Candidate.checked leaf = false -> Candidate.value leaf = NotANumber ->
     validate (simpleFeeSchema maxAmount usd) parent (js_candidate_fee leaf) path
     = [(path ++ ["value"], NotType)]).
Proof.
  split.
  - split; [exact (edited_candidate_wf (Rational 7))|].
    split; [exact (edited_candidates_differ (Rational 7) (Rational 250))|reflexivity].
  - apply (unchecked_value_is_ignored (JsStr "inv-1") (JsStr "other") JsNull None
             JsUndefined usd (edited_candidate (Rational 7))
             (edited_candidate (Rational 250)) (js_fees sample_tree)
             (tree_rule usd sample_tree)).
    + exact (edited_candidate_wf (Rational 7)).
    + exact (edited_candidates_differ (Rational 7) (Rational 250)).
    + reflexivity.
Defined.

(** The same on [edited_candidate]: the serializer gives the same items
    whether the unchecked leaf holds 7 or NaN, and validation tells the two
    apart. *)
Example edited_candidate_example :
  let form tree := js_candidate_form (JsStr "other") JsNull None tree JsUndefined in
  (exists out,
     serializeCreditNoteInput (JsStr "inv-1") (form (edited_candidate (Rational 7))) usd
     = Ok out /\
     serializeCreditNoteInput (JsStr "inv-1") (form (edited_candidate NotANumber)) usd
     = Ok out /\
     items out = [ {| feeId := JsStr "f1"; amountCents := JsNum 1000 |};
                   {| feeId := JsStr "f2"; amountCents := JsNum 200 |};
                   {| feeId := JsStr "f4"; amountCents := JsNum 0 |} ]) /\
  validate (tree_rule usd sample_tree) JsUndefined
           (js_candidate (edited_candidate (Rational 7))) []
  = [ (["invA"; "fees"; "g3"; "value"], FeeError minZero) ] /\
  validate (tree_rule usd sample_tree) JsUndefined
           (js_candidate (edited_candidate NotANumber)) []
  = [ (["invA"; "fees"; "g2"; "grouped"; "s2"; "value"], NotType);
      (["invA"; "fees"; "g3"; "value"], FeeError minZero) ].
Proof.
  split; [|split; reflexivity].
  eexists. split; [reflexivity|]. split; reflexivity.
Qed.

Lemma sample_schema :
  generateFeesSchema (js_fees sample_tree) usd = Ok (tree_rule usd sample_tree).
Proof. reflexivity. Defined.

(** C10: validation reads only [checked] and [value] of the candidate's
    leaves: two candidates that differ only in the [maxAmount] of their
    leaves get the same validation errors against any generated schema,
    whose bounds are those of the initial tree. *)
Theorem candidate_maxAmount_is_ignored c initial s (candidate1 candidate2 : FeesPerInvoice) :
  generateFeesSchema initial c = Ok s ->
  tree_rel same_but_maxAmount candidate1 candidate2 ->
  validate s JsUndefined (js_fees candidate1) []
  = validate s JsUndefined (js_fees candidate2) [] /\
  isValid s (js_fees candidate1) = isValid s (js_fees candidate2) /\
  (forall tree, initial = js_fees tree -> wf_tree tree -> plain_tree tree ->
                s = tree_rule c tree).
Proof.
  intros Hs Hrel.
  assert (Hv : validate s JsUndefined (js_fees candidate1) []
               = validate s JsUndefined (js_fees candidate2) []).
  { apply validate_indist; [exact (generateFeesSchema_shape _ _ _ Hs)|].
    revert Hrel. apply tree_rel_impl. intros a b [_ [Hc Hval]].
    split; [exact Hc|now intros _]. }
  split; [exact Hv|split].
  - unfold isValid. now rewrite Hv.
  - intros tree -> Hwf Hplain.
    rewrite (generateFeesSchema_wf c tree Hwf Hplain) in Hs. now inversion Hs.
Qed.

Lemma sample_trees_differ_in_maxAmount :
  tree_rel same_but_maxAmount sample_tree sample_tree''.
Proof.
  unfold tree_rel, map_rel, group_rel, same_but_maxAmount. wf_tac.
Defined.

Lemma candidate_maxAmount_is_ignored_witness :
  (generateFeesSchema (js_fees sample_tree) usd = Ok (tree_rule usd sample_tree) /\
   tree_rel same_but_maxAmount sample_tree sample_tree'') /\
  validate (tree_rule usd sample_tree) JsUndefined (js_fees sample_tree) []
  = validate (tree_rule usd sample_tree) JsUndefined (js_fees sample_tree'') [] /\
  isValid (tree_rule usd sample_tree) (js_fees sample_tree)
  = isValid (tree_rule usd sample_tree) (js_fees sample_tree'') /\
  (forall tree, js_fees sample_tree = js_fees tree -> wf_tree tree -> plain_tree tree ->
                tree_rule usd sample_tree = tree_rule usd tree).
Proof.
  split.
  - split; [exact sample_schema|exact sample_trees_differ_in_maxAmount].
  - apply (candidate_maxAmount_is_ignored usd (js_fees sample_tree)
             (tree_rule usd sample_tree) sample_tree sample_tree'').
    + exact sample_schema.
    + exact sample_trees_differ_in_maxAmount.
Defined.

(* ================================================================== *)
(** * The error report of the validation *)

















(** X4: a checked leaf without a [value] gets exactly one error, the
    required message (the empty text) on its [value] field; an unchecked
    leaf without a [value] is valid, the default 0 standing in. *)
Theorem missing_value_is_required mx c (props : list (string * JsValue)) parent path :
  assoc "value" props = None ->
  (assoc "checked" props = Some (JsBool true) ->
   validate (simpleFeeSchema mx c) parent (JsObj props) path
   = [(path ++ ["value"], Text "")]) /\
  (assoc "checked" props = Some (JsBool false) \/ assoc "checked" props = None ->
   validate (simpleFeeSchema mx c) parent (JsObj props) path = []).
Proof.
  intros Hv. unfold simpleFeeSchema. rewrite validate_object_obj.
  cbn [flat_map fst snd lookup validate optProp nullish app].
  rewrite Hv. cbn [or_undefined]. split.
  - intros Hc. rewrite Hc. reflexivity.
  - intros [Hc|Hc]; rewrite Hc; reflexivity.
Qed.

Lemma missing_value_is_required_witness :
  assoc "value" [ ("id", JsStr "f1"); ("checked", JsBool true) ] = None /\
  (assoc "checked" [ ("id", JsStr "f1"); ("checked", JsBool true) ] = Some (JsBool true) ->
   validate (simpleFeeSchema (JsNum 5000) usd) JsUndefined
            (JsObj [ ("id", JsStr "f1"); ("checked", JsBool true) ]) ["g1"]
   = [(["g1"] ++ ["value"], Text "")]) /\
  (assoc "checked" [ ("id", JsStr "f1"); ("checked", JsBool true) ] = Some (JsBool false)
   \/ assoc "checked" [ ("id", JsStr "f1"); ("checked", JsBool true) ] = None ->
   validate (simpleFeeSchema (JsNum 5000) usd) JsUndefined
            (JsObj [ ("id", JsStr "f1"); ("checked", JsBool true) ]) ["g1"] = []).
Proof.
  split; [reflexivity|].
  apply (missing_value_is_required (JsNum 5000) usd
           [ ("id", JsStr "f1"); ("checked", JsBool true) ] JsUndefined ["g1"]).
  reflexivity.
Defined.

(** X5: the two top-level guards differ on [null]: the destructuring
    default [fees = []] of the serializer applies to [undefined] only, so a
    form whose [fees] is [null] makes the serializer raise, whatever its
    other fields, while [formikInitialFees || {}] makes the schema
    generation take [null] for an empty tree. *)
Theorem null_tree_raises_in_serializer_only inv (props : list (string * JsValue)) c :
  lookup (JsObj props) "fees" = JsNull ->
  serializeCreditNoteInput inv (JsObj props) c = TypeError /\
  generateFeesSchema JsNull c = Ok (object []).
Proof.
  intros Hfees. split; [|reflexivity].
  unfold serializeCreditNoteInput, getProp. cbn [nullish bind]. rewrite Hfees.
  destruct (if negb (truthy (lookup (JsObj props) "payBack")) then _ else _);
    cbn [bind]; [|reflexivity].
  destruct (if negb (truthy (lookup (JsObj props) "payBack")) then _ else _);
    cbn [bind]; [|reflexivity].
  rewrite addOnItems_ok. reflexivity.
Qed.

Lemma null_tree_raises_in_serializer_only_witness :
  lookup (JsObj [ ("reason", JsStr "other"); ("fees", JsNull) ]) "fees" = JsNull /\
  serializeCreditNoteInput (JsStr "inv-1")
                           (JsObj [ ("reason", JsStr "other"); ("fees", JsNull) ]) usd
  = TypeError /\
  generateFeesSchema JsNull usd = Ok (object []).
Proof.
  split; [reflexivity|].
  apply (null_tree_raises_in_serializer_only (JsStr "inv-1")
           [ ("reason", JsStr "other"); ("fees", JsNull) ] usd).
  reflexivity.
Defined.

(* ================================================================== *)
(** * Entries of a grouped map that are not typed leaves *)

Lemma reduce_throws {A : Type} (f : A -> string -> result A) keys k :
  In k keys -> (forall acc, f acc k = TypeError) ->
  forall acc, reduce f keys acc = TypeError.
Proof.
  intros HIn Hk. induction keys as [|a keys IH]; [contradiction|].
  intros acc. simpl. destruct HIn as [->|HIn].
  - now rewrite Hk.
  - destruct (f acc a); simpl; [now apply IH|reflexivity].
Qed.

Lemma lookup_In k v (props : list (string * JsValue)) :
  distinct_keys props -> In (k, v) props -> lookup (JsObj props) k = v.
Proof. intros ND HIn. simpl. now rewrite (assoc_In k v props ND HIn). Qed.

Lemma groupedItems_entries c (props : list (string * JsValue)) :
  distinct_keys props ->
  Forall (fun kv => nullish (snd kv) = false) props ->
  groupedItems (JsObj props) c = Ok (entries_items c props).
Proof.
  intros ND Hprops. unfold groupedItems. cbn [Object_keys bind].
  rewrite (reduce_map_values _
             (fun fee => if truthy (lookup fee "checked")
                         then [entry_item c fee] else [])); [reflexivity|].
  intros k fee acc HIn. unfold getProp at 1. cbn [nullish bind].
  rewrite (lookup_In k fee props ND HIn).
  rewrite Forall_forall in Hprops. specialize (Hprops _ HIn). cbn [snd] in Hprops.
  unfold getProp. rewrite Hprops. cbn [bind].
  destruct (truthy (lookup fee "checked")); cbn [negb]; [reflexivity|].
  now rewrite app_nil_r.
Qed.

Lemma groupedItems_nullish_entry c (props : list (string * JsValue)) :
  distinct_keys props ->
  Exists (fun kv => nullish (snd kv) = true) props ->
  groupedItems (JsObj props) c = TypeError.
Proof.
  intros ND Hex. apply Exists_exists in Hex as [[k fee] [HIn Hnull]].
  cbn [snd] in Hnull. unfold groupedItems. cbn [Object_keys bind].
  apply (reduce_throws _ _ k).
  - change k with (fst (k, fee)). now apply in_map.
  - intros acc. unfold getProp at 1. cbn [nullish bind].
    rewrite (lookup_In k fee props ND HIn). unfold getProp. now rewrite Hnull.
Qed.

Lemma feeItems_grouped_only c subKey feeGroupKey props :
  feeItems (grouped_only subKey feeGroupKey props) c = groupedItems (JsObj props) c.
Proof.
  unfold feeItems, grouped_only. cbn [Object_keys map fst reduce bind].
  unfold subStep, getProp. cbn [nullish lookup assoc bind].
  rewrite String.eqb_refl.
  cbn [or_undefined optProp nullish lookup assoc String.eqb Ascii.eqb Bool.eqb
       Object_keys map fst reduce bind].
  unfold groupStep, getProp. cbn [nullish lookup assoc bind String.eqb Ascii.eqb Bool.eqb
                                  or_undefined].
  rewrite String.eqb_refl.
  cbn [or_undefined optProp nullish lookup assoc String.eqb Ascii.eqb Bool.eqb
       typeof_boolean bind].
  destruct (groupedItems (JsObj props) c); reflexivity.
Qed.

Lemma groupedShape_entries c init subKey feeGroupKey (props : list (string * JsValue)) :
  distinct_keys props ->
  groupedShape init c subKey feeGroupKey (JsObj props)
  = Ok (map_entries
          (fun feeKey _ =>
             path_rule c init (subKey ++ ".fees." ++ feeGroupKey ++ ".grouped."
                                      ++ feeKey ++ ".maxAmount"))
          props).
Proof.
  intros ND. unfold groupedShape. cbn [Object_keys bind].
  apply reduce_obj_set; [assumption|]. reflexivity.
Qed.

Lemma generateFeesSchema_grouped_only c subKey feeGroupKey props :
  distinct_keys props ->
  generateFeesSchema (grouped_only subKey feeGroupKey props) c
  = Ok (object
          [ (subKey,
             object
               [ ("fees",
                  object
                    [ (feeGroupKey,
                       object
                         [ ("grouped",
                            object
                              (map_entries
                                 (fun feeKey _ =>
                                    path_rule c (grouped_only subKey feeGroupKey props)
                                              (subKey ++ ".fees." ++ feeGroupKey
                                                      ++ ".grouped." ++ feeKey
                                                      ++ ".maxAmount"))
                                 props)) ]) ]) ]) ]).
Proof.
  intros ND. unfold generateFeesSchema.
  set (init := grouped_only subKey feeGroupKey props).
  assert (E1 : js_or init (JsObj []) = init) by reflexivity.
  assert (E2 : Object_keys init = Ok [subKey]) by reflexivity.
  assert (E3 : getProp init subKey
               = Ok (JsObj [ ("fees",
                              JsObj [ (feeGroupKey, JsObj [ ("grouped", JsObj props) ]) ]) ]))
    by (unfold init, grouped_only, getProp; simpl; now rewrite String.eqb_refl).
  clearbody init. rewrite E1, E2. cbn [bind reduce].
  unfold subSchemaStep. rewrite E3.
  cbn [optProp nullish lookup assoc String.eqb Ascii.eqb Bool.eqb or_undefined
       Object_keys map fst reduce bind].
  unfold feeGroupStep, getProp.
  cbn [nullish lookup assoc bind]. rewrite String.eqb_refl.
  cbn [or_undefined optProp nullish lookup assoc String.eqb Ascii.eqb Bool.eqb
       typeof_boolean bind].
  rewrite (groupedShape_entries c init subKey feeGroupKey props ND).
  reflexivity.
Qed.

(** X6: inside a [grouped] map the serializer tests [checked] for
    truthiness, not for its type: when no entry is [null] or [undefined],
    the walk yields one item per entry whose [checked] is truthy, in key
    order, with the entry's [id] and the conversion of its [value]. *)
Theorem grouped_entries_emitted_when_truthy c subKey feeGroupKey
        (props : list (string * JsValue)) :
  distinct_keys props ->
  Forall (fun kv => nullish (snd kv) = false) props ->
  feeItems (grouped_only subKey feeGroupKey props) c
  = Ok (flat_map
          (fun kv =>
             if truthy (lookup (snd kv) "checked")
             then [ {| feeId := lookup (snd kv) "id";
                       amountCents := serializeAmount (lookup (snd kv) "value") c |} ]
             else [])
          props).
Proof.
  intros ND Hprops. rewrite feeItems_grouped_only.
  now apply groupedItems_entries.
Qed.

Lemma raw_grouped_distinct : distinct_keys raw_grouped.
Proof. unfold distinct_keys. wf_tac. Defined.

Lemma grouped_entries_emitted_when_truthy_witness :
  (distinct_keys raw_grouped /\
   Forall (fun kv => nullish (snd kv) = false) raw_grouped) /\
  feeItems (grouped_only "invA" "g1" raw_grouped) usd
  = Ok (flat_map
          (fun kv =>
             if truthy (lookup (snd kv) "checked")
             then [ {| feeId := lookup (snd kv) "id";
                       amountCents := serializeAmount (lookup (snd kv) "value") usd |} ]
             else [])
          raw_grouped).
Proof.
  assert (H : Forall (fun kv => nullish (snd kv) = false) raw_grouped)
    by (repeat constructor).
  split; [split; [exact raw_grouped_distinct|exact H]|].
  apply (grouped_entries_emitted_when_truthy usd "invA" "g1" raw_grouped);
    [exact raw_grouped_distinct|exact H].
Defined.

(** X7: the schema generation never reads the entries of a [grouped] map,
    the serializer does: when an entry is [null] or [undefined] the
    serializer raises a TypeError, while the schema is generated with one
    leaf rule per key of the map, in key order. *)
Theorem nullish_entry_raises_in_serializer_only c subKey feeGroupKey
        (props : list (string * JsValue)) :
  distinct_keys props ->
  Exists (fun kv => nullish (snd kv) = true) props ->
  feeItems (grouped_only subKey feeGroupKey props) c = TypeError /\
  exists s rules,
    generateFeesSchema (grouped_only subKey feeGroupKey props) c = Ok s /\
    rule_at s [subKey; "fees"; feeGroupKey; "grouped"] = Some (object rules) /\
    map fst rules = map fst props /\
    Forall (fun field => is_leaf_rule (snd field)) rules.
Proof.
  intros ND Hex. split.
  - rewrite feeItems_grouped_only. now apply groupedItems_nullish_entry.
  - eexists.
    exists (map_entries
              (fun feeKey _ =>
                 path_rule c (grouped_only subKey feeGroupKey props)
                           (subKey ++ ".fees." ++ feeGroupKey ++ ".grouped."
                                   ++ feeKey ++ ".maxAmount"))
              props).
    split; [now apply generateFeesSchema_grouped_only|].
    split; [|split].
    + repeat (cbn [rule_at assoc String.eqb Ascii.eqb Bool.eqb];
              rewrite ?String.eqb_refl).
      reflexivity.
    + unfold map_entries. rewrite map_map. reflexivity.
    + unfold map_entries. apply Forall_map, Forall_forall. intros kv _.
      apply is_leaf_rule_path_rule.
Qed.

Lemma raw_grouped_with_null_distinct : distinct_keys raw_grouped_with_null.
Proof. unfold distinct_keys. wf_tac. Defined.

Lemma nullish_entry_raises_in_serializer_only_witness :
  (distinct_keys raw_grouped_with_null /\
   Exists (fun kv => nullish (snd kv) = true) raw_grouped_with_null) /\
  feeItems (grouped_only "invA" "g1" raw_grouped_with_null) usd = TypeError /\
  exists s rules,
    generateFeesSchema (grouped_only "invA" "g1" raw_grouped_with_null) usd = Ok s /\
    rule_at s ["invA"; "fees"; "g1"; "grouped"] = Some (object rules) /\
    map fst rules = map fst raw_grouped_with_null /\
    Forall (fun field => is_leaf_rule (snd field)) rules.
Proof.
  assert (H : Exists (fun kv => nullish (snd kv) = true) raw_grouped_with_null)
    by (right; left; reflexivity).
  split; [split; [exact raw_grouped_with_null_distinct|exact H]|].
  apply (nullish_entry_raises_in_serializer_only usd "invA" "g1" raw_grouped_with_null);
    [exact raw_grouped_with_null_distinct|exact H].
Defined.

(* ================================================================== *)
(** * Trees on which both walks raise *)

Lemma Object_keys_nullish v : nullish v = true -> Object_keys v = TypeError.
Proof. destruct v; simpl; intros H; try discriminate; reflexivity. Qed.

Lemma optProp_not_nullish v k : nullish (optProp v k) = false -> nullish v = false.
Proof. unfold optProp. destruct (nullish v); [discriminate|reflexivity]. Qed.

(** X8: a sub-invoice group that is [null] or [undefined], or whose [fees]
    is, anywhere in the tree, makes both the serializer walk and the schema
    generation raise a TypeError, whatever the rest of the tree. *)
Theorem missing_fees_map_raises c (subs : list (string * JsValue)) subKey sub :
  distinct_keys subs ->
  In (subKey, sub) subs ->
  nullish (optProp sub "fees") = true ->
  feeItems (JsObj subs) c = TypeError /\
  generateFeesSchema (JsObj subs) c = TypeError.
Proof.
  intros ND HIn Hfees.
  assert (Hkey : In subKey (map fst subs))
    by (change subKey with (fst (subKey, sub)); now apply in_map).
  split.
  - unfold feeItems. cbn [Object_keys bind].
    apply (reduce_throws _ _ subKey Hkey). intros acc.
    unfold subStep, getProp. cbn [nullish bind].
    rewrite (lookup_In subKey sub subs ND HIn).
    now rewrite (Object_keys_nullish _ Hfees).
  - unfold generateFeesSchema. cbn [js_or truthy Object_keys bind].
    rewrite (reduce_throws _ _ subKey Hkey); [reflexivity|]. intros acc.
    unfold subSchemaStep, getProp. cbn [nullish bind].
    rewrite (lookup_In subKey sub subs ND HIn).
    now rewrite (Object_keys_nullish _ Hfees).
Qed.

Lemma missing_fees_map_raises_witness :
  (distinct_keys [ ("invA", JsObj []) ] /\
   In ("invA", JsObj []) [ ("invA", JsObj []) ] /\
   nullish (optProp (JsObj []) "fees") = true) /\
  feeItems (JsObj [ ("invA", JsObj []) ]) usd = TypeError /\
  generateFeesSchema (JsObj [ ("invA", JsObj []) ]) usd = TypeError.
Proof.
  assert (ND : distinct_keys [ ("invA", JsObj []) ])
    by (unfold distinct_keys; wf_tac).
  assert (HIn : In ("invA", JsObj []) [ ("invA", JsObj []) ]) by (left; reflexivity).
  split; [split; [exact ND|split; [exact HIn|reflexivity]]|].
  apply (missing_fees_map_raises usd [ ("invA", JsObj []) ] "invA" (JsObj []));
    [exact ND|exact HIn|reflexivity].
Defined.

(** X9: a fee-group whose [checked] is not of boolean type is taken for a
    grouped wrapper by both walks, whatever else it carries: when it has no
    [grouped] map, or is itself [null] or [undefined], both the serializer
    walk and the schema generation raise a TypeError. *)
Theorem misrouted_fee_group_raises c (subs groups : list (string * JsValue))
        subKey sub feeGroupKey child :
  distinct_keys subs -> distinct_keys groups ->
  In (subKey, sub) subs ->
  optProp sub "fees" = JsObj groups ->
  In (feeGroupKey, child) groups ->
  nullish child = true \/
  (typeof_boolean (lookup child "checked") = false /\
   nullish (lookup child "grouped") = true) ->
  feeItems (JsObj subs) c = TypeError /\
  generateFeesSchema (JsObj subs) c = TypeError.
Proof.
  intros NDs NDg Hsub Hfees Hchild Hbad.
  assert (Hkey : In subKey (map fst subs))
    by (change subKey with (fst (subKey, sub)); now apply in_map).
  assert (Hgkey : In feeGroupKey (map fst groups))
    by (change feeGroupKey with (fst (feeGroupKey, child)); now apply in_map).
  assert (Hnn : nullish sub = false)
    by (apply (optProp_not_nullish sub "fees"); now rewrite Hfees).
  assert (Hlk : lookup sub "fees" = JsObj groups)
    by (unfold optProp in Hfees; now rewrite Hnn in Hfees).
  split.
  - unfold feeItems. cbn [Object_keys bind].
    apply (reduce_throws _ _ subKey Hkey). intros acc.
    unfold subStep, getProp. cbn [nullish bind].
    rewrite (lookup_In subKey sub subs NDs Hsub), Hfees. cbn [Object_keys bind].
    rewrite (reduce_throws _ _ feeGroupKey Hgkey); [reflexivity|]. intros acc'.
    unfold groupStep. rewrite Hnn, Hlk. unfold getProp at 1. cbn [nullish bind].
    rewrite (lookup_In feeGroupKey child groups NDg Hchild).
    unfold getProp. destruct Hbad as [Hnull|[Hty Hgr]].
    + now rewrite Hnull.
    + destruct (nullish child) eqn:E; [reflexivity|]. cbn [bind]. rewrite Hty.
      unfold optProp. rewrite E. unfold groupedItems.
      now rewrite (Object_keys_nullish _ Hgr).
  - unfold generateFeesSchema. cbn [js_or truthy Object_keys bind].
    rewrite (reduce_throws _ _ subKey Hkey); [reflexivity|]. intros acc.
    unfold subSchemaStep, getProp. cbn [nullish bind].
    rewrite (lookup_In subKey sub subs NDs Hsub), Hfees. cbn [Object_keys bind].
    rewrite (reduce_throws _ _ feeGroupKey Hgkey); [reflexivity|]. intros acc'.
    unfold feeGroupStep. unfold getProp at 1. cbn [nullish bind].
    rewrite (lookup_In feeGroupKey child groups NDg Hchild).
    unfold getProp. destruct Hbad as [Hnull|[Hty Hgr]].
    + now rewrite Hnull.
    + destruct (nullish child) eqn:E; [reflexivity|]. cbn [bind]. rewrite Hty.
      unfold optProp. rewrite E. unfold groupedShape.
      now rewrite (Object_keys_nullish _ Hgr).
Qed.

Lemma misrouted_fee_group_raises_witness :
  let child := JsObj [ ("id", JsStr "f1"); ("value", JsNum 3) ] in
  let groups := [ ("g1", child) ] in
  let sub := JsObj [ ("fees", JsObj groups) ] in
  let subs := [ ("invA", sub) ] in
  (distinct_keys subs /\ distinct_keys groups /\
   In ("invA", sub) subs /\
   optProp sub "fees" = JsObj groups /\
   In ("g1", child) groups /\
   (nullish child = true \/
    (typeof_boolean (lookup child "checked") = false /\
     nullish (lookup child "grouped") = true))) /\
  feeItems (JsObj subs) usd = TypeError /\
  generateFeesSchema (JsObj subs) usd = TypeError.
Proof.
  intros child groups sub subs.
  assert (ND1 : distinct_keys subs) by (unfold distinct_keys; wf_tac).
  assert (ND2 : distinct_keys groups) by (unfold distinct_keys; wf_tac).
  assert (H1 : In ("invA", sub) subs) by (left; reflexivity).
  assert (H2 : In ("g1", child) groups) by (left; reflexivity).
  assert (H3 : nullish child = true \/
               (typeof_boolean (lookup child "checked") = false /\
                nullish (lookup child "grouped") = true))
    by (right; split; reflexivity).
  split.
  - repeat split; try assumption; try reflexivity.
  - apply (misrouted_fee_group_raises usd subs groups "invA" sub "g1" child);
      try assumption. reflexivity.
Defined.

(* ================================================================== *)
(** * The rule found at the path of a leaf *)

Lemma rule_at_entries {A : Type} (F : string -> A -> Schema) (m : list (string * A))
      k v rest :
  distinct_keys m -> In (k, v) m ->
  rule_at (object (map_entries F m)) (k :: rest) = rule_at (F k v) rest.
Proof.
  intros ND HIn. cbn [rule_at].
  replace (assoc k (map_entries F m)) with (Some (F k v)); [reflexivity|].
  symmetry. apply assoc_In.
  - unfold map_entries. rewrite map_map. exact ND.
  - unfold map_entries. apply in_map_iff. exists (k, v). now split.
Qed.

Lemma rule_at_wrapper k inner rest :
  rule_at (object [ (k, inner) ]) (k :: rest) = rule_at inner rest.
Proof. cbn [rule_at assoc]. now rewrite String.eqb_refl. Qed.

Lemma baseGet_undefined path : baseGet JsUndefined path = JsUndefined.
Proof. destruct path; reflexivity. Qed.

(** X10: with keys free of dots and brackets, the rule that the generated
    schema holds at the form path of a leaf, bare or grouped, is the leaf
    rule bounded by that very leaf's [maxAmount]. *)
Theorem rule_at_leaf_path c (tree : FeesPerInvoice) subKey sub feeGroupKey :
  wf_tree tree -> plain_tree tree ->
  In (subKey, sub) tree ->
  exists s,
    generateFeesSchema (js_fees tree) c = Ok s /\
    (forall fee,
       In (feeGroupKey, Leaf fee) sub ->
       rule_at s [subKey; "fees"; feeGroupKey]
       = Some (simpleFeeSchema (JsNum (maxAmount fee)) c)) /\
    (forall grouped feeKey fee,
       In (feeGroupKey, Grouped grouped) sub -> In (feeKey, fee) grouped ->
       rule_at s [subKey; "fees"; feeGroupKey; "grouped"; feeKey]
       = Some (simpleFeeSchema (JsNum (maxAmount fee)) c)).
Proof.
  intros Hwf Hplain Hsub. exists (tree_rule c tree).
  split; [now apply generateFeesSchema_wf|].
  destruct Hwf as [NDt Ws]. rewrite Forall_forall in Ws.
  destruct (Ws _ Hsub) as [NDs Wg]. cbn [snd] in NDs, Wg.
  unfold tree_rule.
  change (map_values (sub_rule c) tree) with (map_entries (fun _ => sub_rule c) tree).
  split.
  - intros fee Hg. rewrite (rule_at_entries _ tree subKey sub) by assumption.
    unfold sub_rule. rewrite rule_at_wrapper.
    change (map_values (group_rule c) sub) with (map_entries (fun _ => group_rule c) sub).
    now rewrite (rule_at_entries _ sub feeGroupKey (Leaf fee)) by assumption.
  - intros grouped feeKey fee Hg Hf.
    rewrite (rule_at_entries _ tree subKey sub) by assumption.
    unfold sub_rule. rewrite rule_at_wrapper.
    change (map_values (group_rule c) sub) with (map_entries (fun _ => group_rule c) sub).
    rewrite (rule_at_entries _ sub feeGroupKey (Grouped grouped)) by assumption.
    unfold group_rule. rewrite rule_at_wrapper.
    change (map_values (leaf_rule c) grouped)
      with (map_entries (fun _ => leaf_rule c) grouped).
    rewrite Forall_forall in Wg. specialize (Wg _ Hg). cbn [snd wf_group] in Wg.
    now rewrite (rule_at_entries _ grouped feeKey fee) by assumption.
Qed.

Lemma rule_at_leaf_path_witness :
  let sub :=
    [ ("g1", Leaf {| id := "f1"; checked := true; value := 10; maxAmount := 5000 |});
      ("g2", Grouped
               [ ("s1", {| id := "f2"; checked := true; value := 2; maxAmount := 1000 |});
                 ("s2", {| id := "f3"; checked := false; value := 7; maxAmount := 300 |}) ]);
      ("g3", Leaf {| id := "f4"; checked := true; value := 0; maxAmount := 900 |}) ] in
  (wf_tree sample_tree /\ plain_tree sample_tree /\ In ("invA", sub) sample_tree) /\
  exists s,
    generateFeesSchema (js_fees sample_tree) usd = Ok s /\
    (forall fee,
       In ("g2", Leaf fee) sub ->
       rule_at s ["invA"; "fees"; "g2"]
       = Some (simpleFeeSchema (JsNum (maxAmount fee)) usd)) /\
    (forall grouped feeKey fee,
       In ("g2", Grouped grouped) sub -> In (feeKey, fee) grouped ->
       rule_at s ["invA"; "fees"; "g2"; "grouped"; feeKey]
       = Some (simpleFeeSchema (JsNum (maxAmount fee)) usd)).
Proof.
  intros sub.
  assert (HIn : In ("invA", sub) sample_tree) by (left; reflexivity).
  split; [split; [exact sample_tree_wf|split; [exact sample_tree_plain|exact HIn]]|].
  apply (rule_at_leaf_path usd sample_tree "invA" sub "g2");
    [exact sample_tree_wf|exact sample_tree_plain|exact HIn].
Defined.

Lemma string_app_assoc (x y z : string) : ((x ++ y) ++ z = x ++ (y ++ z))%string.
Proof. induction x as [|a x IH]; simpl; [reflexivity|now rewrite IH]. Qed.

Lemma _get_first_segment_missing (tree : FeesPerInvoice) (a rest : string) :
  plain_key a = true ->
  assoc a tree = None ->
  assoc (a ++ String "." rest)%string tree = None ->
  _get (js_or (js_fees tree) (JsObj [])) (a ++ String "." rest) = JsUndefined.
Proof.
  intros Ha Hmiss Hpath. unfold _get, js_fees. cbn [js_or truthy nullish has_property].
  rewrite assoc_map_values, Hpath. cbn [option_map].
  rewrite stringToPath_app by exact Ha. cbn [baseGet nullish lookup].
  rewrite assoc_map_values, Hmiss. cbn [option_map or_undefined].
  apply baseGet_undefined.
Qed.

(** X11: when a sub-invoice key contains a dot, its first segment is not a
    key of the tree and the dotted path is not one either, [_get] finds
    nothing: the rule at the path of a bare leaf of that sub-invoice group
    is built with [undefined] for maxAmount, not with the leaf's
    [maxAmount]. *)
Theorem dotted_key_loses_maxAmount c (tree : FeesPerInvoice) subKey a b sub
        feeGroupKey fee :
  wf_tree tree ->
  In (subKey, sub) tree -> In (feeGroupKey, Leaf fee) sub ->
  subKey = (a ++ "." ++ b)%string -> plain_key a = true ->
  assoc a tree = None ->
  assoc (subKey ++ ".fees." ++ feeGroupKey ++ ".maxAmount")%string tree = None ->
  exists s,
    generateFeesSchema (js_fees tree) c = Ok s /\
    rule_at s [subKey; "fees"; feeGroupKey] = Some (simpleFeeSchema JsUndefined c).
Proof.
  intros Hwf Hsub Hg Hkey Ha Hmiss Hpath. exists (tree_path_rule c tree).
  split; [now apply generateFeesSchema_paths|].
  destruct Hwf as [NDt Ws]. rewrite Forall_forall in Ws.
  destruct (Ws _ Hsub) as [NDs _]. cbn [snd] in NDs.
  unfold tree_path_rule. rewrite (rule_at_entries _ tree subKey sub) by assumption.
  unfold sub_path_rule. rewrite rule_at_wrapper.
  rewrite (rule_at_entries _ sub feeGroupKey (Leaf fee)) by assumption.
  cbn [rule_at group_path_rule]. unfold path_rule. do 2 f_equal.
  revert Hpath. rewrite Hkey.
  change (a ++ "." ++ b)%string with (a ++ String "." b)%string.
  rewrite string_app_assoc.
  change (String "." b ++ ".fees." ++ feeGroupKey ++ ".maxAmount")%string
    with (String "." (b ++ ".fees." ++ feeGroupKey ++ ".maxAmount"))%string.
  intros Hpath. now apply _get_first_segment_missing.
Qed.

Lemma dotted_key_loses_maxAmount_witness :
  let fee := {| id := "f1"; checked := true; value := 10; maxAmount := 5000 |} in
  (wf_tree dotted_tree /\
   In ("inv.A", [ ("g1", Leaf fee) ]) dotted_tree /\
   In ("g1", Leaf fee) [ ("g1", Leaf fee) ] /\
   "inv.A" = ("inv" ++ "." ++ "A")%string /\ plain_key "inv" = true /\
   assoc "inv" dotted_tree = None /\
   assoc ("inv.A" ++ ".fees." ++ "g1" ++ ".maxAmount")%string dotted_tree = None) /\
  exists s,
    generateFeesSchema (js_fees dotted_tree) usd = Ok s /\
    rule_at s ["inv.A"; "fees"; "g1"] = Some (simpleFeeSchema JsUndefined usd).
Proof.
  intros fee.
  assert (Hwf : wf_tree dotted_tree)
    by (unfold wf_tree, wf_sub, wf_group, distinct_keys; wf_tac).
  assert (H1 : In ("inv.A", [ ("g1", Leaf fee) ]) dotted_tree) by (left; reflexivity).
  assert (H2 : In ("g1", Leaf fee) [ ("g1", Leaf fee) ]) by (left; reflexivity).
  split.
  - split; [exact Hwf|]. repeat split; try assumption; reflexivity.
  - apply (dotted_key_loses_maxAmount usd dotted_tree "inv.A" "inv" "A"
             [ ("g1", Leaf fee) ] "g1" fee); try assumption; reflexivity.
Defined.

(* ================================================================== *)
(** * A valid candidate, serialized *)

Lemma pow10_pos p : 0 < pow10 p.
Proof.
  unfold pow10, Qlt. simpl. rewrite Z.mul_1_r.
  apply Z.pow_pos_nonneg; lia.
Qed.

Lemma Qfloor_half (z : Z) : Qfloor (inject_Z z + (1 # 2)) = z.
Proof.
  unfold Qfloor, Qplus, inject_Z. simpl.
  symmetry. apply Z.div_unique with (r := 1%Z); lia.
Qed.

Lemma min_value_pos : 0 < min_value.
Proof. reflexivity. Qed.

(** A value between the bounds of a leaf rule converts to a number of
    minor units between 0 and an integral [maxAmount]. *)
Lemma cents_within_bounds p (v M : Q) (z : Z) :
  min_value <= v -> v <= M / pow10 p -> M == inject_Z z ->
  (0 <= Qfloor (v * pow10 p + (1 # 2)))%Z /\
  inject_Z (Qfloor (v * pow10 p + (1 # 2))) <= M.
Proof.
  intros Hmin Hmax HM.
  assert (HP : 0 < pow10 p) by apply pow10_pos.
  assert (Hv : 0 <= v).
  { apply Qle_trans with min_value; [apply Qlt_le_weak, min_value_pos|exact Hmin]. }
  assert (HvP : v * pow10 p <= inject_Z z).
  { rewrite <- HM.
    apply Qle_trans with ((M / pow10 p) * pow10 p).
    - apply Qmult_le_compat_r; [exact Hmax|now apply Qlt_le_weak].
    - apply Qle_lteq. right. field. intros H. rewrite H in HP.
      exact (Qlt_irrefl _ HP). }
  split.
  - change 0%Z with (Qfloor 0). apply Qfloor_resp_le.
    apply Qle_trans with (0 + 0); [apply Qle_refl|].
    apply Qplus_le_compat; [|discriminate].
    apply Qmult_le_0_compat; [exact Hv|now apply Qlt_le_weak].
  - rewrite HM. rewrite <- Zle_Qle.
    apply Z.le_trans with (Qfloor (inject_Z z + (1 # 2))).
    + apply Qfloor_resp_le. apply Qplus_le_compat; [exact HvP|apply Qle_refl].
    + rewrite Qfloor_half. apply Z.le_refl.
Qed.

Lemma Forall2_Forall_l {A B : Type} (P : A -> B -> Prop) (Q : A -> Prop) l1 l2 :
  Forall2 P l1 l2 -> Forall Q l1 -> Forall2 (fun a b => P a b /\ Q a) l1 l2.
Proof.
  intros H. induction H; intros HQ; inversion HQ; subst; constructor; auto.
Qed.

(** X12: a candidate that passes validation is serialized within bounds:
    when the initial leaves' [maxAmount]s are whole numbers of minor units,
    every item emitted for a checked leaf of a valid candidate carries an
    integral [amountCents] between 0 and the [maxAmount] of the initial
    leaf. *)
Theorem valid_candidate_serializes_within_bounds c (initial candidate : FeesPerInvoice) s :
  wf_tree initial -> plain_tree initial -> same_shape initial candidate ->
  Forall (fun leaf0 => exists z, maxAmount leaf0 == inject_Z z) (tree_leaves initial) ->
  generateFeesSchema (js_fees initial) c = Ok s ->
  isValid s (js_fees candidate) = true ->
  feeItems (js_fees candidate) c
  = Ok (map (fee_item c) (filter checked (tree_leaves candidate))) /\
  Forall2 (fun leaf0 leaf =>
             checked leaf = true ->
             exists n, amountCents (fee_item c leaf) = JsNum (inject_Z n) /\
                       (0 <= n)%Z /\ inject_Z n <= maxAmount leaf0)
          (tree_leaves initial) (tree_leaves candidate).
Proof.
  intros Hwf Hplain Hshape Hint Hs Hvalid.
  assert (Hwf' : wf_tree candidate) by exact (wf_tree_rel _ _ _ Hshape Hwf).
  split; [now apply feeItems_wf|].
  rewrite (generateFeesSchema_wf c initial Hwf Hplain) in Hs.
  inversion Hs; subst s. clear Hs.
  apply isValid_true_iff in Hvalid.
  apply (validate_tree_iff c initial candidate JsUndefined [] Hshape Hwf') in Hvalid.
  apply (tree_rel_leaves (leaf_ok c) initial candidate Hshape) in Hvalid.
  apply (Forall2_Forall_l _ _ _ _ Hvalid) in Hint.
  apply Forall2_impl with (2 := Hint).
  intros leaf0 leaf [Hok [z Hz]] Hc. destruct (Hok Hc) as [Hmin Hmax].
  exists (Qfloor (value leaf * pow10 (getCurrencyPrecision c) + (1 # 2))).
  split; [reflexivity|].
  exact (cents_within_bounds _ _ _ z Hmin Hmax Hz).
Qed.

Lemma valid_candidate_serializes_within_bounds_witness :
  (wf_tree sample_tree /\ plain_tree sample_tree /\ same_shape sample_tree valid_tree /\
   Forall (fun leaf0 => exists z, maxAmount leaf0 == inject_Z z) (tree_leaves sample_tree) /\
   generateFeesSchema (js_fees sample_tree) usd = Ok (tree_rule usd sample_tree) /\
   isValid (tree_rule usd sample_tree) (js_fees valid_tree) = true) /\
  feeItems (js_fees valid_tree) usd
  = Ok (map (fee_item usd) (filter checked (tree_leaves valid_tree))) /\
  Forall2 (fun leaf0 leaf =>
             checked leaf = true ->
             exists n, amountCents (fee_item usd leaf) = JsNum (inject_Z n) /\
                       (0 <= n)%Z /\ inject_Z n <= maxAmount leaf0)
          (tree_leaves sample_tree) (tree_leaves valid_tree).
Proof.
  assert (Hshape : same_shape sample_tree valid_tree)
    by (unfold same_shape, tree_rel, map_rel, group_rel; wf_tac).
  assert (Hint : Forall (fun leaf0 => exists z, maxAmount leaf0 == inject_Z z)
                        (tree_leaves sample_tree)).
  { simpl. repeat constructor.
    - exists 5000%Z. reflexivity.
    - exists 1000%Z. reflexivity.
    - exists 300%Z. reflexivity.
    - exists 900%Z. reflexivity. }
  assert (Hvalid : isValid (tree_rule usd sample_tree) (js_fees valid_tree) = true)
    by reflexivity.
  split.
  - split; [exact sample_tree_wf|]. split; [exact sample_tree_plain|].
    split; [exact Hshape|]. split; [exact Hint|]. split; [exact sample_schema|exact Hvalid].
  - apply (valid_candidate_serializes_within_bounds usd sample_tree valid_tree
             (tree_rule usd sample_tree)); try assumption.
    + exact sample_tree_wf.
    + exact sample_tree_plain.
    + exact sample_schema.
Defined.

(* ================================================================== *)
(** * What the schema depends on *)

Lemma plain_keys_rel {A : Type} (R : A -> A -> Prop) (m1 m2 : list (string * A)) :
  map_rel R m1 m2 -> plain_keys m1 -> plain_keys m2.
Proof.
  intros H. induction H as [|x y l1 l2 [Hk _] _ IH]; intros HP.
  - constructor.
  - inversion HP; subst. constructor; [now rewrite <- Hk|now apply IH].
Qed.

Lemma plain_tree_rel (R : FromFee -> FromFee -> Prop) (t1 t2 : FeesPerInvoice) :
  tree_rel R t1 t2 -> plain_tree t1 -> plain_tree t2.
Proof.
  intros Hrel [Pk Ps]. split.
  - exact (plain_keys_rel _ _ _ Hrel Pk).
  - revert Ps.
    apply (map_rel_Forall (map_rel (group_rel R)) plain_sub); [|exact Hrel].
    intros s1 s2 Hs [Pks Pg]. split.
    + exact (plain_keys_rel _ _ _ Hs Pks).
    + revert Pg. apply (map_rel_Forall (group_rel R) plain_group); [|exact Hs].
      intros [f1|m1] [f2|m2]; simpl; auto; try contradiction.
      apply plain_keys_rel.
Qed.

Lemma map_values_rel {A B : Type} (F : A -> B) (R : A -> A -> Prop)
      (m1 m2 : list (string * A)) :
  (forall a b, R a b -> F a = F b) ->
  map_rel R m1 m2 -> map_values F m1 = map_values F m2.
Proof.
  intros HF H. induction H as [|x y l1 l2 [Hk Hxy] _ IH]; simpl; [reflexivity|].
  now rewrite Hk, (HF _ _ Hxy), IH.
Qed.

Lemma tree_rule_same_maxAmount c (t1 t2 : FeesPerInvoice) :
  tree_rel same_maxAmount t1 t2 -> tree_rule c t1 = tree_rule c t2.
Proof.
  intros Hrel. unfold tree_rule. f_equal.
  apply (map_values_rel _ (map_rel (group_rel same_maxAmount))); [|exact Hrel].
  intros s1 s2 Hs. unfold sub_rule. do 4 f_equal.
  apply (map_values_rel _ (group_rel same_maxAmount)); [|exact Hs].
  intros [f1|m1] [f2|m2]; simpl; try contradiction.
  - intros H. unfold leaf_rule. now rewrite H.
  - intros H. do 4 f_equal.
    apply (map_values_rel _ same_maxAmount); [|exact H].
    intros a b Hab. unfold leaf_rule. now rewrite Hab.
Qed.

(** X13: the generated schema depends on the keys and the [maxAmount]s of
    the initial tree only: two trees with plain keys that differ in the
    [id], [checked] and [value] of their leaves generate the same
    schema. *)
Theorem schema_ignores_checked_and_value c (tree1 tree2 : FeesPerInvoice) :
  wf_tree tree1 -> plain_tree tree1 ->
  tree_rel same_maxAmount tree1 tree2 ->
  exists s,
    generateFeesSchema (js_fees tree1) c = Ok s /\
    generateFeesSchema (js_fees tree2) c = Ok s.
Proof.
  intros Hwf Hplain Hrel. exists (tree_rule c tree1). split.
  - now apply generateFeesSchema_wf.
  - rewrite (tree_rule_same_maxAmount c tree1 tree2 Hrel).
    apply generateFeesSchema_wf.
    + exact (wf_tree_rel _ _ _ Hrel Hwf).
    + exact (plain_tree_rel _ _ _ Hrel Hplain).
Qed.

Lemma schema_ignores_checked_and_value_witness :
  (wf_tree sample_tree /\ plain_tree sample_tree /\
   tree_rel same_maxAmount sample_tree edited_tree) /\
  exists s,
    generateFeesSchema (js_fees sample_tree) usd = Ok s /\
    generateFeesSchema (js_fees edited_tree) usd = Ok s.
Proof.
  assert (Hrel : tree_rel same_maxAmount sample_tree edited_tree)
    by (unfold tree_rel, map_rel, group_rel, same_maxAmount; wf_tac).
  split; [split; [exact sample_tree_wf|split; [exact sample_tree_plain|exact Hrel]]|].
  apply (schema_ignores_checked_and_value usd sample_tree edited_tree);
    [exact sample_tree_wf|exact sample_tree_plain|exact Hrel].
Defined.

(* ================================================================== *)
(** * Leaves the schema does not know *)

Lemma assoc_app_other {V : Type} k k' (v : V) (m : list (string * V)) :
  k' <> k -> assoc k' (m ++ [(k, v)]) = assoc k' m.
Proof.
  intros Hne. induction m as [|[k0 v0] m IH]; simpl.
  - destruct (String.eqb_spec k k'); [congruence|reflexivity].
  - destruct (String.eqb k0 k'); [reflexivity|exact IH].
Qed.

Lemma assoc_None_not_key {V : Type} k (m : list (string * V)) :
  assoc k m = None -> forall field, In field m -> fst field <> k.
Proof.
  induction m as [|[k0 v0] m IH]; simpl; intros H field HIn; [contradiction|].
  destruct (String.eqb_spec k0 k) as [->|Hne]; [discriminate|].
  destruct HIn as [<-|HIn]; [exact Hne|now apply IH].
Qed.

Lemma sub_rule_parent s p1 p2 v pth :
  is_sub_rule s -> validate s p1 v pth = validate s p2 v pth.
Proof. intros [inner [-> _]]. reflexivity. Qed.

(** X14: a sub-invoice group for which the schema holds no rule is not
    validated at all, yet it is serialized: appending it to a candidate
    leaves the validation errors unchanged and adds the items of its
    checked leaves to the walk. *)
Theorem unknown_sub_invoice_is_not_validated c initial s
        (candidate : FeesPerInvoice) k (sub : SubInvoice) :
  generateFeesSchema initial c = Ok s ->
  rule_at s [k] = None ->
  wf_tree (candidate ++ [(k, sub)]) ->
  validate s JsUndefined (js_fees (candidate ++ [(k, sub)])) []
  = validate s JsUndefined (js_fees candidate) [] /\
  feeItems (js_fees (candidate ++ [(k, sub)])) c
  = Ok (map (fee_item c) (filter checked (tree_leaves candidate))
        ++ map (fee_item c) (filter checked (sub_leaves sub))).
Proof.
  intros Hs Hnone Hwf. split.
  - destruct (generateFeesSchema_shape _ _ _ Hs) as [shape [-> Hshape]].
    assert (Hk : assoc k shape = None).
    { cbn [rule_at] in Hnone. destruct (assoc k shape); [discriminate|reflexivity]. }
    unfold js_fees. rewrite !validate_object_obj.
    rewrite !flat_map_concat_map. f_equal. apply map_ext_in.
    intros [k' r] HIn. cbn [fst snd].
    assert (Hne : k' <> k) by exact (assoc_None_not_key k shape Hk _ HIn).
    rewrite Forall_forall in Hshape. specialize (Hshape _ HIn). cbn [snd] in Hshape.
    rewrite !lookup_opt_js.
    unfold map_values at 2. rewrite assoc_app_other by exact Hne.
    apply sub_rule_parent. exact Hshape.
  - rewrite (feeItems_wf c _ Hwf). f_equal. unfold tree_leaves.
    rewrite flat_map_app. cbn [flat_map snd]. rewrite app_nil_r.
    apply checked_items_app.
Qed.

Lemma unknown_sub_invoice_is_not_validated_witness :
  (generateFeesSchema (js_fees sample_tree) usd = Ok (tree_rule usd sample_tree) /\
   rule_at (tree_rule usd sample_tree) ["invB"] = None /\
   wf_tree (sample_tree ++ [("invB", extra_sub)])) /\
  validate (tree_rule usd sample_tree) JsUndefined
           (js_fees (sample_tree ++ [("invB", extra_sub)])) []
  = validate (tree_rule usd sample_tree) JsUndefined (js_fees sample_tree) [] /\
  feeItems (js_fees (sample_tree ++ [("invB", extra_sub)])) usd
  = Ok (map (fee_item usd) (filter checked (tree_leaves sample_tree))
        ++ map (fee_item usd) (filter checked (sub_leaves extra_sub))).
Proof.
  assert (Hwf : wf_tree (sample_tree ++ [("invB", extra_sub)]))
    by (unfold wf_tree, wf_sub, wf_group, distinct_keys; wf_tac).
  split; [split; [exact sample_schema|split; [reflexivity|exact Hwf]]|].
  apply (unknown_sub_invoice_is_not_validated usd (js_fees sample_tree)
           (tree_rule usd sample_tree) sample_tree "invB" extra_sub);
    [exact sample_schema|reflexivity|exact Hwf].
Defined.

(* ================================================================== *)
(** * A pay-back that is not an array *)

Lemma payBackAmount_not_array payBack type c :
  (forall elems, payBack <> JsArr elems) -> payBackAmount payBack type c = TypeError.
Proof.
  intros H. unfold payBackAmount, Array_find.
  destruct payBack; try reflexivity. now destruct (H elems).
Qed.

(** X15: the guard [!payBack] covers falsy values only: a form whose
    [payBack] is truthy but not an array (an object, a string, a number)
    makes the serializer raise a TypeError, whatever its other fields. *)
Theorem payBack_not_an_array_raises inv (props : list (string * JsValue)) c :
  truthy (lookup (JsObj props) "payBack") = true ->
  (forall elems, lookup (JsObj props) "payBack" <> JsArr elems) ->
  serializeCreditNoteInput inv (JsObj props) c = TypeError.
Proof.
  intros Ht Harr. unfold serializeCreditNoteInput, getProp. cbn [nullish bind].
  rewrite Ht. cbn [negb].
  now rewrite (payBackAmount_not_array _ credit c Harr).
Qed.

Lemma payBack_not_an_array_raises_witness :
  let props := [ ("reason", JsStr "other");
                 ("payBack", JsObj [ ("type", JsStr "credit"); ("value", JsNum 5) ]) ] in
  (truthy (lookup (JsObj props) "payBack") = true /\
   (forall elems, lookup (JsObj props) "payBack" <> JsArr elems)) /\
  serializeCreditNoteInput (JsStr "inv-1") (JsObj props) usd = TypeError.
Proof.
  intros props.
  assert (H : forall elems, lookup (JsObj props) "payBack" <> JsArr elems)
    by (intros elems; discriminate).
  split; [split; [reflexivity|exact H]|].
  apply (payBack_not_an_array_raises (JsStr "inv-1") props usd); [reflexivity|exact H].
Defined.

(* ================================================================== *)
(** * The two walks on trees with arbitrary fee-groups *)

Lemma fold_entries_collect {V I : Type} (g : V -> result (list I))
      (l : list (string * V)) :
  forall acc,
    fold_entries (fun acc kv => let* x := g (snd kv) in Ok (acc ++ x)) l acc
    = let* xs := collect g l in Ok (acc ++ xs).
Proof.
  induction l as [|kv l IH]; intros acc; simpl.
  - now rewrite app_nil_r.
  - destruct (g (snd kv)) as [x|]; simpl; [|reflexivity].
    rewrite IH. destruct (collect g l) as [xs|]; simpl; [|reflexivity].
    now rewrite app_assoc.
Qed.

(** A [reduce] over the keys of a map whose callback appends the items of
    the entry it reads, or throws. *)
Lemma reduce_collect {V I : Type} (f : list I -> string -> result (list I))
      (g : V -> result (list I)) (m : list (string * V)) :
  (forall k v acc, In (k, v) m -> f acc k = let* x := g v in Ok (acc ++ x)) ->
  reduce f (map fst m) [] = collect g m.
Proof.
  intros Hf.
  rewrite (reduce_entries f (fun acc kv => let* x := g (snd kv) in Ok (acc ++ x)) m m).
  - rewrite fold_entries_collect. now destruct (collect g m).
  - intros [k v] acc HIn. now apply Hf.
  - apply incl_refl.
Qed.

Lemma fold_entries_traverse {V S : Type} (g : string -> V -> result S)
      (l : list (string * V)) :
  forall acc : list (string * S),
    NoDup (map fst acc ++ map fst l) ->
    fold_entries (fun acc kv => let* s := g (fst kv) (snd kv) in
                                Ok (obj_set acc (fst kv) s)) l acc
    = let* rs := traverse g l in Ok (acc ++ rs).
Proof.
  induction l as [|[k v] l IH]; intros acc ND; simpl.
  - now rewrite app_nil_r.
  - simpl in ND. pose proof (NoDup_remove_2 _ _ _ ND) as Hk.
    destruct (g k v) as [s|]; simpl; [|reflexivity].
    rewrite obj_set_fresh by (intros HIn; apply Hk, in_or_app; now left).
    rewrite IH.
    + destruct (traverse g l) as [rs|]; simpl; [|reflexivity].
      now rewrite <- app_assoc.
    + rewrite map_app, <- app_assoc. exact ND.
Qed.

(** A [reduce] over the keys of a map whose callback sets the rule of the
    entry it reads, or throws. *)
Lemma reduce_traverse {V S : Type}
      (f : list (string * S) -> string -> result (list (string * S)))
      (g : string -> V -> result S) (m : list (string * V)) :
  distinct_keys m ->
  (forall k v acc, In (k, v) m -> f acc k = let* s := g k v in Ok (obj_set acc k s)) ->
  reduce f (map fst m) [] = traverse g m.
Proof.
  intros ND Hf.
  rewrite (reduce_entries f
             (fun acc kv => let* s := g (fst kv) (snd kv) in
                            Ok (obj_set acc (fst kv) s)) m m).
  - rewrite fold_entries_traverse by exact ND. now destruct (traverse g m).
  - intros [k v] acc HIn. now apply Hf.
  - apply incl_refl.
Qed.

Lemma groupStep_raw c (groups : RawSub) k child acc :
  distinct_keys groups -> In (k, child) groups ->
  groupStep (js_raw_sub groups) c acc k
  = let* x := spec_group_items c child in Ok (acc ++ x).
Proof.
  intros ND HIn. unfold groupStep, js_raw_sub. cbn [nullish].
  change (lookup (JsObj [("fees", JsObj groups)]) "fees") with (JsObj groups).
  unfold getProp at 1. cbn [nullish bind].
  rewrite (lookup_In k child groups ND HIn).
  unfold spec_group_items, is_bare_leaf, getProp, optProp, entry_item.
  destruct (nullish child); cbn [bind]; [reflexivity|].
  destruct (typeof_boolean (lookup child "checked")); [|reflexivity].
  destruct (truthy (lookup child "checked")); cbn [negb bind]; [reflexivity|].
  now rewrite app_nil_r.
Qed.

Lemma subStep_raw c (tree : RawTree) k groups acc :
  distinct_keys tree -> distinct_keys groups -> In (k, groups) tree ->
  subStep (js_raw_tree tree) c acc k
  = let* x := collect (spec_group_items c) groups in Ok (acc ++ x).
Proof.
  intros ND NDg HIn. unfold subStep, js_raw_tree, getProp. cbn [nullish bind].
  rewrite (lookup_map_values js_raw_sub k groups tree ND HIn).
  change (optProp (js_raw_sub groups) "fees") with (JsObj groups).
  cbn [Object_keys bind].
  rewrite (reduce_collect _ (spec_group_items c) groups); [reflexivity|].
  intros k' child acc' HIn'. now apply groupStep_raw.
Qed.

(** The serializer's walk is the walk of the specification. *)
Lemma feeItems_raw c (tree : RawTree) :
  wf_raw_tree tree ->
  feeItems (js_raw_tree tree) c = spec_walk_items c tree.
Proof.
  intros [ND Hsubs]. unfold feeItems, js_raw_tree. cbn [Object_keys bind].
  rewrite map_fst_map_values.
  apply (reduce_collect _ (collect (spec_group_items c)) tree).
  intros k groups acc HIn. apply subStep_raw; auto.
  rewrite Forall_forall in Hsubs. exact (Hsubs _ HIn).
Qed.

Lemma feeGroupStep_raw c init subKey (groups : RawSub) feeGroupKey child acc :
  distinct_keys groups -> In (feeGroupKey, child) groups ->
  feeGroupStep init (JsObj groups) c subKey acc feeGroupKey
  = let* s := spec_group_rule c init subKey feeGroupKey child in
    Ok (obj_set acc feeGroupKey s).
Proof.
  intros ND HIn. unfold feeGroupStep. unfold getProp at 1. cbn [nullish bind].
  rewrite (lookup_In feeGroupKey child groups ND HIn).
  unfold spec_group_rule, is_bare_leaf, getProp, optProp, path_rule.
  destruct (nullish child); cbn [bind]; [reflexivity|].
  destruct (typeof_boolean (lookup child "checked")); [reflexivity|].
  now destruct (groupedShape init c subKey feeGroupKey (lookup child "grouped")).
Qed.

Lemma subSchemaStep_raw c (tree : RawTree) subKey groups acc :
  distinct_keys tree -> distinct_keys groups -> In (subKey, groups) tree ->
  subSchemaStep (js_raw_tree tree) c acc subKey
  = let* s := (let* inner := traverse (spec_group_rule c (js_raw_tree tree) subKey)
                                      groups in
               Ok (object [ ("fees", object inner) ])) in
    Ok (obj_set acc subKey s).
Proof.
  intros ND NDg HIn. unfold subSchemaStep, getProp.
  change (nullish (js_raw_tree tree)) with false. cbn iota. cbn [bind].
  assert (E : lookup (js_raw_tree tree) subKey = js_raw_sub groups)
    by exact (lookup_map_values js_raw_sub subKey groups tree ND HIn).
  rewrite !E.
  change (optProp (js_raw_sub groups) "fees") with (JsObj groups).
  cbn [Object_keys bind].
  rewrite (reduce_traverse _ (spec_group_rule c (js_raw_tree tree) subKey) groups).
  - now destruct (traverse (spec_group_rule c (js_raw_tree tree) subKey) groups).
  - exact NDg.
  - intros k child acc' HIn'. now apply feeGroupStep_raw.
Qed.

(** The schema generation is the walk of the specification. *)
Lemma generateFeesSchema_raw c (tree : RawTree) :
  wf_raw_tree tree ->
  generateFeesSchema (js_raw_tree tree) c = spec_walk_rules c tree.
Proof.
  intros [ND Hsubs]. unfold generateFeesSchema, spec_walk_rules.
  change (js_or (js_raw_tree tree) (JsObj [])) with (js_raw_tree tree).
  unfold js_raw_tree at 1. cbn [Object_keys bind]. rewrite map_fst_map_values.
  rewrite (reduce_traverse _
             (fun subKey groups =>
                let* inner := traverse (spec_group_rule c (js_raw_tree tree) subKey)
                                       groups in
                Ok (object [ ("fees", object inner) ])) tree).
  - reflexivity.
  - exact ND.
  - intros k groups acc HIn. apply subSchemaStep_raw; auto.
    rewrite Forall_forall in Hsubs. exact (Hsubs _ HIn).
Qed.

Lemma js_fees_raw (tree : FeesPerInvoice) :
  js_fees tree = js_raw_tree (raw_of_tree tree).
Proof.
  unfold js_fees, js_raw_tree, raw_of_tree, map_values. now rewrite map_map.
Qed.

Lemma ambiguous_tree_wf : wf_raw_tree ambiguous_tree.
Proof. unfold wf_raw_tree, ambiguous_tree, distinct_keys. wf_tac. Defined.

(** C5: both walks discriminate a fee-group by the same test, whether the
    type of its [checked] field is boolean.  On every tree that has its
    [fees] maps, whatever its fee-groups are, the serializer's walk and the
    schema generation are the walks led by that one test: a fee-group with
    a boolean [checked] gives its own item (when checked) and its own leaf
    rule, even beside a [grouped] map, and any other fee-group gives the
    items and the wrapped rules of its [grouped] map.  On a typed tree the
    test is true exactly on the bare leaves, the generated schema has the
    shape of the tree with one leaf rule per leaf in walk order, and the
    serializer emits the checked ones among these same leaves. *)
Theorem walks_are_congruent c (raw : RawTree) :
  wf_raw_tree raw ->
  feeItems (js_raw_tree raw) c = spec_walk_items c raw /\
  generateFeesSchema (js_raw_tree raw) c = spec_walk_rules c raw /\
  (forall tree : FeesPerInvoice,
     wf_tree tree ->
     js_fees tree = js_raw_tree (raw_of_tree tree) /\
     (forall subKey sub feeGroupKey g,
        In (subKey, sub) tree -> In (feeGroupKey, g) sub ->
        is_bare_leaf (lookup (lookup (lookup (js_fees tree) subKey) "fees") feeGroupKey)
        = match g with Leaf _ => true | Grouped _ => false end) /\
     exists s,
       generateFeesSchema (js_fees tree) c = Ok s /\
       s = tree_path_rule c tree /\
       Forall2 (fun rule (_ : FromFee) => is_leaf_rule rule)
               (leaf_rules s) (tree_leaves tree) /\
       feeItems (js_fees tree) c
       = Ok (map (fee_item c) (filter checked (tree_leaves tree)))).
Proof.
  intros Hraw. split; [now apply feeItems_raw|].
  split; [now apply generateFeesSchema_raw|].
  intros tree Hwf. split; [apply js_fees_raw|]. split.
  - intros subKey sub feeGroupKey g Hsub Hg. destruct Hwf as [ND Hsubs].
    rewrite Forall_forall in Hsubs. destruct (Hsubs _ Hsub) as [NDs _].
    unfold js_fees. rewrite (lookup_map_values js_sub subKey sub tree ND Hsub).
    rewrite lookup_fees.
    rewrite (lookup_map_values js_group feeGroupKey g sub NDs Hg).
    now destruct g.
  - exists (tree_path_rule c tree). split; [now apply generateFeesSchema_paths|].
    split; [reflexivity|]. split; [apply leaf_rules_tree_path_rule|].
    now apply feeItems_wf.
Qed.

Lemma walks_are_congruent_witness :
  wf_raw_tree ambiguous_tree /\
  feeItems (js_raw_tree ambiguous_tree) usd = spec_walk_items usd ambiguous_tree /\
  generateFeesSchema (js_raw_tree ambiguous_tree) usd
  = spec_walk_rules usd ambiguous_tree /\
  (forall tree : FeesPerInvoice,
     wf_tree tree ->
     js_fees tree = js_raw_tree (raw_of_tree tree) /\
     (forall subKey sub feeGroupKey g,
        In (subKey, sub) tree -> In (feeGroupKey, g) sub ->
        is_bare_leaf (lookup (lookup (lookup (js_fees tree) subKey) "fees") feeGroupKey)
        = match g with Leaf _ => true | Grouped _ => false end) /\
     exists s,
       generateFeesSchema (js_fees tree) usd = Ok s /\
       s = tree_path_rule usd tree /\
       Forall2 (fun rule (_ : FromFee) => is_leaf_rule rule)
               (leaf_rules s) (tree_leaves tree) /\
       feeItems (js_fees tree) usd
       = Ok (map (fee_item usd) (filter checked (tree_leaves tree)))).
Proof.
  split; [exact ambiguous_tree_wf|].
  apply (walks_are_congruent usd ambiguous_tree). exact ambiguous_tree_wf.
Defined.

(** Both walks on [ambiguous_tree]: the fee-group with a boolean [checked]
    is a bare leaf for both, its [grouped] map is not visited; the
    fee-group whose [checked] is a string is a grouped wrapper for both. *)
Example ambiguous_tree_example :
  feeItems (js_raw_tree ambiguous_tree) usd
  = Ok [ {| feeId := JsStr "f1"; amountCents := JsNum 400 |};
         {| feeId := JsStr "f4"; amountCents := JsNum 200 |} ] /\
  exists s,
    generateFeesSchema (js_raw_tree ambiguous_tree) usd = Ok s /\
    rule_at s ["invA"; "fees"; "g1"] = Some (simpleFeeSchema (JsNum 900) usd) /\
    rule_at s ["invA"; "fees"; "g2"]
    = Some (object [ ("grouped", object [ ("s1", simpleFeeSchema (JsNum 200) usd) ]) ]).
Proof.
  split; [reflexivity|]. eexists. split; [reflexivity|]. split; reflexivity.
Qed.
